(** * Waterline adapter facade and app-level lock manager

    A shallow embedding of the adapter wrapper (the facade around a
    pluggable storage adapter), of its criteria normaliser and of its
    app-level transaction primitive, together with the properties that
    the specification states about them; and of the helpers of the
    content server's node controller.

    Layout: the host language (numbers, strings, values, heap, effects),
    then [normalizeCriteria], the facade operations, the lock manager and
    its event-loop semantics, the node controller; the theorems follow
    the definitions, first those of the specification, then further
    properties read off the code. *)

From Stdlib Require Import ZArith List String Ascii Bool Lia SpecFloat DecimalString.
Import ListNotations.

Set Implicit Arguments.

(* ===================================================================== *)
(** * Host numbers: IEEE 754 binary64                                      *)
(* ===================================================================== *)

(** A number of the host language is a binary64 float.  [spec_float] is
    the Standard Library's executable specification of IEEE arithmetic;
    every number built below is in canonical form. *)
Module Num.

Local Open Scope string_scope.
Local Open Scope Z_scope.

Definition number := spec_float.

Definition prec : Z := 53.
Definition emax : Z := 1024.

Definition NaN : number := S754_nan.
Definition Infinity : number := S754_infinity false.
Definition zero : number := S754_zero false.

Definition of_Z (z : Z) : number := binary_normalize prec emax z 0 false.

Definition mul : number -> number -> number := SFmul prec emax.
Definition ltb : number -> number -> bool := SFltb.
Definition gtb (x y : number) : bool := SFltb y x.

Definition is_nan (x : number) : bool :=
  match x with S754_nan => true | _ => false end.

Definition is_zero (x : number) : bool :=
  match x with S754_zero _ => true | _ => false end.

(** The global [isFinite]. *)
Definition is_finite (x : number) : bool :=
  match x with
  | S754_zero _ | S754_finite _ _ _ => true
  | S754_infinity _ | S754_nan => false
  end.

(** Structural equality; on canonical floats it distinguishes [+0]
    from [-0] and identifies [NaN] with itself. *)
Definition same (x y : number) : bool :=
  match x, y with
  | S754_zero a, S754_zero b => Bool.eqb a b
  | S754_infinity a, S754_infinity b => Bool.eqb a b
  | S754_nan, S754_nan => true
  | S754_finite a m e, S754_finite b n f =>
      Bool.eqb a b && Pos.eqb m n && Z.eqb e f
  | _, _ => false
  end.

(** [Math.pow(x, 2)]: the square, rounded once. *)
Definition pow2 (x : number) : number := mul x x.

(** The float nearest to [m * 10^e10] (ties to even), with sign [neg]. *)
Definition of_decimal (neg : bool) (m : Z) (e10 : Z) : number :=
  match m with
  | Z0 => S754_zero neg
  | Zpos p =>
      if 0 <=? e10
      then binary_round prec emax neg (p * Z.to_pos (10 ^ e10)) 0
      else
        let '(q, e', l) :=
          SFdiv_core_binary prec emax (Zpos p) 0 (10 ^ (- e10)) 0 in
        binary_round_aux prec emax neg q e' l
  | Zneg _ => NaN
  end.

(** ** Text to number (the grammar of numeric strings) *)

(** White space and line ends, among the characters of one byte. *)
Definition is_space (c : ascii) : bool :=
  let n := nat_of_ascii c in
  ((9 <=? n)%nat && (n <=? 13)%nat) || (n =? 32)%nat || (n =? 160)%nat.

Definition digit_val (c : ascii) : option Z :=
  let n := Z.of_nat (nat_of_ascii c) in
  if (48 <=? n) && (n <=? 57) then Some (n - 48) else None.

Definition hex_val (c : ascii) : option Z :=
  let n := Z.of_nat (nat_of_ascii c) in
  if (48 <=? n) && (n <=? 57) then Some (n - 48)
  else if (65 <=? n) && (n <=? 70) then Some (n - 55)
  else if (97 <=? n) && (n <=? 102) then Some (n - 87)
  else None.

Fixpoint drop_spaces (l : list ascii) : list ascii :=
  match l with
  | c :: r => if is_space c then drop_spaces r else l
  | [] => []
  end.

Definition trim (l : list ascii) : list ascii :=
  rev (drop_spaces (rev (drop_spaces l))).

(** Longest prefix of decimal digits: its value, its length, the rest. *)
Fixpoint span_digits (acc : Z) (len : Z) (l : list ascii)
  : Z * Z * list ascii :=
  match l with
  | c :: r =>
      match digit_val c with
      | Some d => span_digits (10 * acc + d) (len + 1) r
      | None => (acc, len, l)
      end
  | [] => (acc, len, [])
  end.

Fixpoint all_hex (acc : Z) (l : list ascii) : option Z :=
  match l with
  | [] => Some acc
  | c :: r =>
      match hex_val c with
      | Some d => all_hex (16 * acc + d) r
      | None => None
      end
  end.

(** The optional exponent part; [None] when the text is malformed. *)
Definition exponent_part (l : list ascii) : option Z :=
  match l with
  | [] => Some 0
  | c :: r =>
      if (Ascii.eqb c "e" || Ascii.eqb c "E")%char then
        let '(neg, r') :=
          match r with
          | s :: t =>
              if Ascii.eqb s "-"%char then (true, t)
              else if Ascii.eqb s "+"%char then (false, t)
              else (false, r)
          | [] => (false, [])
          end in
        match span_digits 0 0 r' with
        | (v, len, []) =>
            if 0 <? len then Some (if neg then - v else v) else None
        | _ => None
        end
      else None
  end.

Definition unsigned_decimal (neg : bool) (l : list ascii) : number :=
  if list_eq_dec ascii_dec l (list_ascii_of_string "Infinity")
  then S754_infinity neg
  else
    let '(ip, ilen, r1) := span_digits 0 0 l in
    let '(m, flen, r2) :=
      match r1 with
      | c :: r =>
          if Ascii.eqb c "."%char
          then let '(m, tlen, r') := span_digits ip ilen r in
               (m, tlen - ilen, r')
          else (ip, 0, r1)
      | [] => (ip, 0, [])
      end in
    if (ilen + flen =? 0) then NaN
    else
      match exponent_part r2 with
      | Some e => of_decimal neg m (e - flen)
      | None => NaN
      end.

Definition StringToNumber (s : string) : number :=
  match trim (list_ascii_of_string s) with
  | [] => zero
  | c :: r =>
      match r with
      | x :: h :: t =>
          if (Ascii.eqb c "0" && (Ascii.eqb x "x" || Ascii.eqb x "X"))%char
          then match all_hex 0 (h :: t) with
               | Some v => of_Z v
               | None => NaN
               end
          else if Ascii.eqb c "-"%char then unsigned_decimal true r
          else if Ascii.eqb c "+"%char then unsigned_decimal false r
          else unsigned_decimal false (c :: r)
      | _ =>
          if Ascii.eqb c "-"%char then unsigned_decimal true r
          else if Ascii.eqb c "+"%char then unsigned_decimal false r
          else unsigned_decimal false (c :: r)
      end
  end.

(** ** Number to text

    The shortest decimal numeral [s * 10^(n-k)], [k] digits long, that
    reads back as the same float; then the host's layout rules. *)

(** [x >= 10^n] for the positive rational [x = N / D]. *)
Definition ge_pow10 (N D n : Z) : bool :=
  if 0 <=? n then D * 10 ^ n <=? N else D <=? N * 10 ^ (- n).

Fixpoint first_above (fuel : nat) (N D n : Z) : Z :=
  match fuel with
  | O => n
  | S f => if ge_pow10 N D n then first_above f N D (n + 1) else n
  end.

(** The [n] with [10^(n-1) <= N/D < 10^n]. *)
Definition decimal_exponent (N D : Z) : Z :=
  let guess := ((Z.log2 N - Z.log2 D) * 30103) / 100000 in
  first_above 8 N D (guess - 2).

(** The [k]-digit candidates around [N/D] that read back as [x]. *)
Definition shortest_at (x : number) (N D n : Z) (k : Z) : option (Z * Z) :=
  let sh := k - n in
  let num := if 0 <=? sh then N * 10 ^ sh else N in
  let den := if 0 <=? sh then D else D * 10 ^ (- sh) in
  let lo := num / den in
  let hi := lo + 1 in
  let ok_lo := (10 ^ (k - 1) <=? lo) && same (of_decimal false lo (n - k)) x in
  let ok_hi := same (of_decimal false hi (n - k)) x in
  let up := if hi =? 10 ^ k then (10 ^ (k - 1), n + 1) else (hi, n) in
  match ok_lo, ok_hi with
  | true, false => Some (lo, n)
  | false, true => Some up
  | true, true =>
      match Z.compare (2 * num) ((2 * lo + 1) * den) with
      | Lt => Some (lo, n)
      | Gt => Some up
      | Eq => if Z.even lo then Some (lo, n) else Some up
      end
  | false, false => None
  end.

Fixpoint shortest_from (fuel : nat) (x : number) (N D n : Z) (k : Z)
  : Z * Z * Z :=
  match fuel with
  | O => (N / D, k, n)
  | S f =>
      match shortest_at x N D n k with
      | Some (s, n') => (s, k, n')
      | None => shortest_from f x N D n (k + 1)
      end
  end.

Definition digits_of (z : Z) : string :=
  NilZero.string_of_uint (N.to_uint (Z.to_N z)).

Fixpoint zeros (n : nat) : string :=
  match n with O => EmptyString | S m => String "0" (zeros m) end.

Definition layout (s k n : Z) : string :=
  let ds := digits_of s in
  if (k <=? n) && (n <=? 21) then
    ds ++ zeros (Z.to_nat (n - k))
  else if (0 <? n) && (n <=? 21) then
    substring 0 (Z.to_nat n) ds ++ "." ++
    substring (Z.to_nat n) (Z.to_nat (k - n)) ds
  else if (-6 <? n) && (n <=? 0) then
    "0." ++ zeros (Z.to_nat (- n)) ++ ds
  else
    let e := n - 1 in
    let es := (if 0 <=? e then "+" else "-") ++ digits_of (Z.abs e) in
    if k =? 1 then ds ++ "e" ++ es
    else substring 0 1 ds ++ "." ++
         substring 1 (Z.to_nat (k - 1)) ds ++ "e" ++ es.

Definition positive_to_string (m : positive) (e : Z) : string :=
  let N := if 0 <=? e then Zpos m * 2 ^ e else Zpos m in
  let D := if 0 <=? e then 1 else 2 ^ (- e) in
  let n := decimal_exponent N D in
  let '(s, k, n') :=
    shortest_from 17 (S754_finite false m e) N D n 1 in
  layout s k n'.

Definition NumberToString (x : number) : string :=
  match x with
  | S754_nan => "NaN"
  | S754_zero _ => "0"
  | S754_infinity s => if s then "-Infinity" else "Infinity"
  | S754_finite s m e =>
      (if s then "-" else "") ++ positive_to_string m e
  end.

End Num.

(* ===================================================================== *)
(** * Host values and the object heap                                      *)
(* ===================================================================== *)

(** Values are the primitives, dates and functions (both opaque and never
    mutated by the code under study) and references to heap cells.  Plain
    objects and arrays live in the heap, so that an in-place update is
    seen through every alias.  The properties of a cell are listed in the
    order in which the engine enumerates them: the names that are array
    indices first, in ascending order, then the other names in the order
    in which they were added.

    Outside the model: accessors (among them the name [__proto__]); the
    members that arrays, dates, functions and primitives inherit; the
    conversion to a number or to text of an object that has a [valueOf]
    or [toString] of its own; the text of a date or a function; and
    text that is not made of single-byte characters. *)
Module JS.

Import Num.
Local Open Scope string_scope.

Definition loc := nat.

Inductive value : Type :=
| VUndefined
| VNull
| VBool (b : bool)
| VNum (x : number)
| VStr (s : string)
| VDate (t : number)
| VFun (id : nat)
| VRef (l : loc).

Definition props := list (string * value).

(** A heap cell: a plain object, or an array with its elements and the
    named properties it may carry besides. *)
Inductive cell : Type :=
| CObj (ps : props)
| CArr (items : list value) (ps : props).

Definition heap := list cell.

(** What ends a computation early: an exception of the host or, with
    [Endless], a loop that never ends.  Either way what follows is left
    undone; the code under study catches nothing. *)
Inductive exn : Type :=
| TypeError (msg : string)
| ReferenceError (name : string)
| ErrorObject (msg : string)
| Thrown (v : value)
| Endless.

(** ** Association lists with insertion order *)

Fixpoint assoc (k : string) (ps : props) : option value :=
  match ps with
  | [] => None
  | (k', v) :: r => if String.eqb k k' then Some v else assoc k r
  end.

(** Replacing what an existing name holds. *)
Fixpoint assoc_put (k : string) (v : value) (ps : props) : props :=
  match ps with
  | [] => []
  | (k', v') :: r =>
      if String.eqb k k' then (k', v) :: r else (k', v') :: assoc_put k v r
  end.

Fixpoint assoc_del (k : string) (ps : props) : props :=
  match ps with
  | [] => []
  | (k', v') :: r =>
      if String.eqb k k' then r else (k', v') :: assoc_del k r
  end.

Definition keys (ps : props) : list string := map fst ps.

(** ** Array indices as property names *)

Definition index_name (i : nat) : string :=
  NilZero.string_of_uint (Nat.to_uint i).

(** A property name is an array index when it is the canonical decimal
    numeral of a natural number. *)
Definition array_index (k : string) : option nat :=
  match NilZero.uint_of_string k with
  | Some u =>
      let i := Nat.of_uint u in
      if String.eqb (index_name i) k then Some i else None
  | None => None
  end.

(** The same in binary, for independence of the size of the number. *)
Definition canonical_index (k : string) : option N :=
  match NilZero.uint_of_string k with
  | Some u =>
      let n := N.of_uint u in
      if String.eqb (NilZero.string_of_uint (N.to_uint n)) k
      then Some n else None
  | None => None
  end.

(** The names that the engine keeps as elements, and enumerates first:
    the array indices below 2^32 - 1. *)
Definition element_index (k : string) : option N :=
  match canonical_index k with
  | Some n => if (n <? 4294967295)%N then Some n else None
  | None => None
  end.

(** A new element goes among the elements, in ascending order. *)
Fixpoint place (i : N) (k : string) (v : value) (ps : props) : props :=
  match ps with
  | [] => [(k, v)]
  | (k', v') :: r =>
      match element_index k' with
      | Some j =>
          if (j <? i)%N then (k', v') :: place i k v r
          else (k, v) :: ps
      | None => (k, v) :: ps
      end
  end.

(** Assignment keeps the position of an existing name; a new name that
    is an element goes to its place among the elements, any other new
    name goes last. *)
Definition assoc_set (k : string) (v : value) (ps : props) : props :=
  match assoc k ps with
  | Some _ => assoc_put k v ps
  | None =>
      match element_index k with
      | Some i => place i k v ps
      | None => (ps ++ [(k, v)])%list
      end
  end.

Fixpoint indexed (i : nat) (items : list value) : props :=
  match items with
  | [] => []
  | v :: r => (index_name i, v) :: indexed (S i) r
  end.

Fixpoint list_set (i : nat) (v : value) (items : list value) : list value :=
  match i, items with
  | O, [] => [v]
  | O, _ :: r => v :: r
  | S j, [] => VUndefined :: list_set j v []
  | S j, x :: r => x :: list_set j v r
  end.

Fixpoint heap_set (l : loc) (c : cell) (h : heap) : heap :=
  match l, h with
  | _, [] => []
  | O, _ :: r => c :: r
  | S j, x :: r => x :: heap_set j c r
  end.

(** ** Type tests (underscore's predicates) *)

Definition isUndefined (v : value) : bool :=
  match v with VUndefined => true | _ => false end.

Definition isString (v : value) : bool :=
  match v with VStr _ => true | _ => false end.

(** [_.isFinite]: a finite number. *)
Definition isFinite (v : value) : bool :=
  match v with VNum x => is_finite x | _ => false end.

(** [_.isObject]: anything that is not a primitive. *)
Definition isObject (v : value) : bool :=
  match v with
  | VDate _ | VFun _ | VRef _ => true
  | _ => false
  end.

Definition isFunction (v : value) : bool :=
  match v with VFun _ => true | _ => false end.

(** ** Conversions *)

Definition truthy (v : value) : bool :=
  match v with
  | VUndefined | VNull => false
  | VBool b => b
  | VNum x => negb (is_zero x || is_nan x)
  | VStr s => negb (String.eqb s "")
  | VDate _ | VFun _ | VRef _ => true
  end.

(** The number read from the text of an array element.  The text of an
    array is the comma-separated text of its elements, with nothing for
    [undefined] and [null]; a plain object, a function and a date print
    as text that is no numeral.  Fuel bounds the nesting: a chain longer
    than the heap is cyclic, and a cycle prints as the empty text. *)
Fixpoint text_number (fuel : nat) (h : heap) (v : value) : number :=
  match v with
  | VUndefined | VNull => zero
  | VBool _ => NaN
  | VNum x => StringToNumber (NumberToString x)
  | VStr s => StringToNumber s
  | VDate _ | VFun _ => NaN
  | VRef l =>
      match fuel with
      | O => zero
      | S f =>
          match nth_error h l with
          | Some (CArr [] _) => zero
          | Some (CArr [e] _) => text_number f h e
          | _ => NaN
          end
      end
  end.

(** Unary plus. *)
Definition ToNumber (h : heap) (v : value) : number :=
  match v with
  | VUndefined => NaN
  | VNull => zero
  | VBool b => if b then of_Z 1 else zero
  | VNum x => x
  | VStr s => StringToNumber s
  | VDate t => t
  | VFun _ => NaN
  | VRef _ => text_number (S (List.length h)) h v
  end.

(** Text of a primitive, as string concatenation produces it. *)
Definition ToStringPrim (v : value) : string :=
  match v with
  | VUndefined => "undefined"
  | VNull => "null"
  | VBool b => if b then "true" else "false"
  | VNum x => NumberToString x
  | VStr s => s
  | VDate _ | VFun _ | VRef _ => "[object Object]"
  end.

(** ** Property access on the heap *)

(** Reading a property; [None] when the base is [undefined] or [null],
    where the host throws. *)
Definition get (h : heap) (v : value) (k : string) : option value :=
  match v with
  | VUndefined | VNull => None
  | VStr s =>
      if String.eqb k "length"
      then Some (VNum (of_Z (Z.of_nat (String.length s))))
      else match array_index k with
           | Some i =>
               match String.get i s with
               | Some c => Some (VStr (String c EmptyString))
               | None => Some VUndefined
               end
           | None => Some VUndefined
           end
  | VBool _ | VNum _ | VDate _ | VFun _ => Some VUndefined
  | VRef l =>
      match nth_error h l with
      | Some (CObj ps) =>
          Some (match assoc k ps with Some x => x | None => VUndefined end)
      | Some (CArr items ps) =>
          if String.eqb k "length"
          then Some (VNum (of_Z (Z.of_nat (List.length items))))
          else match array_index k with
               | Some i => Some (nth i items VUndefined)
               | None =>
                   Some (match assoc k ps with
                         | Some x => x
                         | None => VUndefined
                         end)
               end
      | None => Some VUndefined
      end
  end.

(** The members that a plain object inherits from [Object.prototype].
    They are functions of the host; their identities are the first
    naturals, which no other function of the model bears. *)
Definition Object_prototype : list string :=
  [ "constructor"; "toString"; "toLocaleString"; "valueOf";
    "hasOwnProperty"; "isPrototypeOf"; "propertyIsEnumerable";
    "__defineGetter__"; "__defineSetter__"; "__lookupGetter__";
    "__lookupSetter__" ].

Fixpoint position (k : string) (l : list string) : option nat :=
  match l with
  | [] => None
  | x :: r =>
      if String.eqb k x then Some O
      else match position k r with Some i => Some (S i) | None => None end
  end.

Definition inherited (k : string) : value :=
  match position k Object_prototype with
  | Some i => VFun i
  | None => VUndefined
  end.

(** What a plain object holds under a name, of its own or inherited. *)
Definition held_under (ps : props) (k : string) : value :=
  match assoc k ps with Some x => x | None => inherited k end.

(** Reading a property under a computed name: [obj[name]].  On a plain
    object the name is looked up along the prototype chain.  ([get]
    serves the names written in the code, none of which is inherited.) *)
Definition member (h : heap) (v : value) (k : string) : option value :=
  match v with
  | VRef l =>
      match nth_error h l with
      | Some (CObj ps) => Some (held_under ps k)
      | _ => get h v k
      end
  | _ => get h v k
  end.

(** The text of a value used as a property name.  The text of an array
    is the comma-separated text of its elements, with nothing for
    [undefined] and [null] and nothing for an array that is being
    printed already. *)
Fixpoint join (sep : string) (l : list string) : string :=
  match l with
  | [] => ""
  | [x] => x
  | x :: r => x ++ sep ++ join sep r
  end.

Fixpoint text (fuel : nat) (seen : list loc) (h : heap) (v : value)
  : string :=
  match v with
  | VRef l =>
      match nth_error h l with
      | Some (CArr items _) =>
          if existsb (Nat.eqb l) seen then ""
          else
            match fuel with
            | O => ""
            | S f =>
                join ","
                     (map (fun e =>
                             match e with
                             | VUndefined | VNull => ""
                             | _ => text f (l :: seen) h e
                             end) items)
            end
      | _ => "[object Object]"
      end
  | _ => ToStringPrim v
  end.

Definition ToString (h : heap) (v : value) : string :=
  text (S (List.length h)) [] h v.

(** Writing a property; on a primitive the write is dropped, on
    [undefined] and [null] the host throws ([None]).  An array grows
    when the index is past its end. *)
Definition set (h : heap) (v : value) (k : string) (x : value)
  : option heap :=
  match v with
  | VUndefined | VNull => None
  | VRef l =>
      match nth_error h l with
      | Some (CObj ps) => Some (heap_set l (CObj (assoc_set k x ps)) h)
      | Some (CArr items ps) =>
          match array_index k with
          | Some i => Some (heap_set l (CArr (list_set i x items) ps) h)
          | None => Some (heap_set l (CArr items (assoc_set k x ps)) h)
          end
      | None => Some h
      end
  | _ => Some h
  end.

(** The own enumerable properties, in enumeration order: what [for-in]
    and [_.each] on an object visit.  ([_.each] on an array visits the
    elements only.  It walks an object that carries a numeric [length]
    by index, in a way that differs between the versions of the
    library: the facts below that depend on it are stated for objects
    without such a length.) *)
Definition own_props (h : heap) (v : value) : props :=
  match v with
  | VRef l =>
      match nth_error h l with
      | Some (CObj ps) => ps
      | Some (CArr items ps) => (indexed 0 items ++ ps)%list
      | None => []
      end
  | _ => []
  end.

Definition each_entries (h : heap) (v : value) : props :=
  match v with
  | VRef l =>
      match nth_error h l with
      | Some (CObj ps) => ps
      | Some (CArr items _) => indexed 0 items
      | None => []
      end
  | _ => []
  end.

End JS.

(* ===================================================================== *)
(** * Effects: heap, clock, event log, exceptions                          *)
(* ===================================================================== *)

Module Eff.

Import Num JS.
Local Open Scope string_scope.

(** What an observer sees: the caller's callback being invoked, and the
    calls a recording adapter receives. *)
Inductive event : Type :=
| EvCallback (args : list value)
| EvAdapter (method : string) (args : list value).

(** The variables captured by the callbacks of one [async.forEach]. *)
Record frame : Type := Frame { completed : nat; live : bool }.

Record world : Type := World {
  w_heap : heap;
  w_clock : nat -> number;   (* the wall clock at successive readings *)
  w_tick : nat;
  w_log : list event;        (* oldest first *)
  w_frames : list frame
}.

Inductive result (A : Type) : Type :=
| Ok (a : A)
| Throw (e : exn).
Arguments Ok {A} a.
Arguments Throw {A} e.

Definition M (A : Type) : Type := world -> result A * world.

Definition ret {A} (a : A) : M A := fun w => (Ok a, w).

Definition bind {A B} (m : M A) (k : A -> M B) : M B :=
  fun w =>
    match m w with
    | (Ok a, w') => k a w'
    | (Throw e, w') => (Throw e, w')
    end.

Definition throw {A} (e : exn) : M A := fun w => (Throw e, w).

Declare Scope eff_scope.
Delimit Scope eff_scope with eff.
Notation "x <- m ;; k" := (bind m (fun x => k))
  (at level 61, m at next level, right associativity) : eff_scope.
Notation "m ;; k" := (bind m (fun _ => k))
  (at level 61, right associativity) : eff_scope.
Local Open Scope eff_scope.

Definition set_heap (h : heap) (w : world) : world :=
  World h (w_clock w) (w_tick w) (w_log w) (w_frames w).

Definition read_heap : M heap := fun w => (Ok (w_heap w), w).

Definition write_heap (h : heap) : M unit := fun w => (Ok tt, set_heap h w).

(** An object or array literal. *)
Definition alloc (c : cell) : M value :=
  fun w => (Ok (VRef (List.length (w_heap w))),
            set_heap (w_heap w ++ [c])%list w).

Definition getp (v : value) (k : string) : M value :=
  h <- read_heap ;;
  match get h v k with
  | Some x => ret x
  | None => throw (TypeError ("Cannot read property '" ++ k ++ "'"))
  end.

(** [obj[name]], for a name that is computed. *)
Definition memberp (v : value) (k : string) : M value :=
  h <- read_heap ;;
  match member h v k with
  | Some x => ret x
  | None => throw (TypeError ("Cannot read property '" ++ k ++ "'"))
  end.

(** The property name that a value stands for. *)
Definition name_of (key : value) : M string :=
  h <- read_heap ;; ret (ToString h key).

Definition setp (v : value) (k : string) (x : value) : M unit :=
  h <- read_heap ;;
  match set h v k x with
  | Some h' => write_heap h'
  | None => throw (TypeError ("Cannot set property '" ++ k ++ "'"))
  end.

Definition to_number (v : value) : M number :=
  h <- read_heap ;; ret (ToNumber h v).

Definition emit (e : event) : M unit :=
  fun w => (Ok tt, World (w_heap w) (w_clock w) (w_tick w)
                         (w_log w ++ [e])%list (w_frames w)).

(** [new Date()]. *)
Definition new_Date : M value :=
  fun w => (Ok (VDate (w_clock w (w_tick w))),
            World (w_heap w) (w_clock w) (S (w_tick w))
                  (w_log w) (w_frames w)).

Fixpoint for_each {A} (l : list A) (body : A -> M unit) : M unit :=
  match l with
  | [] => ret tt
  | x :: r => body x ;; for_each r body
  end.

(** A callback of the host: it receives its actual arguments; a
    parameter without an argument reads as [undefined]. *)
Definition callback := list value -> M unit.

Definition arg (n : nat) (args : list value) : value :=
  nth n args VUndefined.

(** The callback handed in by the caller of a facade operation: all an
    observer can tell is that it was invoked, and with what. *)
Definition user_cb : callback := fun args => emit (EvCallback args).

Definition run {A} (m : M A) (w : world) : result A * world := m w.

(** How often the caller's callback has been invoked. *)
Definition callback_count (w : world) : nat :=
  List.length
    (filter (fun e => match e with EvCallback _ => true | _ => false end)
            (w_log w)).

End Eff.

(* ===================================================================== *)
(** * The criteria normaliser                                              *)
(* ===================================================================== *)

Module Criteria.

Import Num JS Eff.
Local Open Scope string_scope.
Local Open Scope eff_scope.

(** [_.each(criteria, function (val, key) { if (_.isUndefined(val))
    delete criteria[key]; })].  Deleting an array element leaves a hole,
    which reads as [undefined] again; on a primitive there is nothing
    to visit that is undefined.

    [_.each] visits the properties of an object, unless the object
    carries a [length] that is a number: then it counts [i] from 0 up
    to that length and visits [obj[i]].  Of such an object the
    undefined properties go that are named by an index below the
    length, and no others.  The count is made in floating point: it
    does not get past 2^53, and a walk to a greater length never
    ends. *)
Definition drop_undefined (ps : props) : props :=
  filter (fun kv => negb (isUndefined (snd kv))) ps.

(** The length that makes [_.each] walk an object by index. *)
Definition array_like (ps : props) : option number :=
  match assoc "length" ps with
  | Some (VNum x) => if is_nan x then None else Some x
  | _ => None
  end.

Definition counted : Z := 9007199254740992.

(** The names that the walk to the length [x] visits. *)
Definition visited (x : number) (k : string) : bool :=
  match canonical_index k with
  | Some i => (Z.of_N i <=? counted)%Z && ltb (of_Z (Z.of_N i)) x
  | None => false
  end.

Definition drop_undefined_below (x : number) (ps : props) : props :=
  filter (fun kv => negb (isUndefined (snd kv) && visited x (fst kv))) ps.

(** What [_.each] with this iterator leaves of an object... *)
Definition stripped (ps : props) : props :=
  match array_like ps with
  | None => drop_undefined ps
  | Some x => drop_undefined_below x ps
  end.

(** ... when it ends. *)
Definition endless (ps : props) : bool :=
  match array_like ps with
  | None => false
  | Some x => ltb (of_Z counted) x
  end.

Definition strip_undefined (criteria : value) : M unit :=
  h <- read_heap ;;
  match criteria with
  | VRef l =>
      match nth_error h l with
      | Some (CObj ps) =>
          write_heap (heap_set l (CObj (stripped ps)) h) ;;
          if endless ps then throw Endless else ret tt
      | _ => ret tt
      end
  | _ => ret tt
  end.

(** The body of the [for (attrName in criteria.where)] loop. *)
Definition coerce_attr (criteria : value) (attrName : string) : M unit :=
  w <- getp criteria "where" ;;
  x <- getp w attrName ;;
  n <- to_number x ;;
  if gtb (pow2 n) zero
  then (w' <- getp criteria "where" ;;
        y <- getp w' attrName ;;
        m <- to_number y ;;
        setp w' attrName (VNum m))
  else ret tt.

(** underscore.string's [words]: no words in a blank text; otherwise
    trim, then split at runs of blanks. *)
Fixpoint split_blanks (cur : list ascii) (l : list ascii)
  : list (list ascii) :=
  match l with
  | [] => [rev cur]
  | c :: r =>
      if is_space c
      then match cur with
           | [] => split_blanks [] r
           | _ => rev cur :: split_blanks [] r
           end
      else split_blanks (c :: cur) r
  end.

Definition words (s : string) : list string :=
  match trim (list_ascii_of_string s) with
  | [] => []
  | t => map string_of_list_ascii (split_blanks [] t)
  end.

Definition lower (c : ascii) : ascii :=
  let n := nat_of_ascii c in
  if ((65 <=? n) && (n <=? 90))%nat then ascii_of_nat (n + 32) else c.

Definition toLowerCase (s : string) : string :=
  string_of_list_ascii (map lower (list_ascii_of_string s)).

Definition normalize_sort (criteria : value) : M unit :=
  sort <- getp criteria "sort" ;;
  if truthy sort then
    (match sort with
     | VStr s =>
         let parts := words s in
         let dir :=
           match nth_error parts 1 with
           | Some d => if String.eqb d "" then "asc" else toLowerCase d
           | None => "asc"
           end in
         (* parts[1] = dir: the array has at least two elements now *)
         let len := Nat.max 2 (List.length parts) in
         if negb (len =? 2)%nat
            || (negb (String.eqb dir "asc") && negb (String.eqb dir "desc"))
         then throw (ErrorObject ("Invalid sort criteria :: " ++ s))
         else
           (o <- alloc (CObj []) ;;
            setp criteria "sort" o ;;
            o' <- getp criteria "sort" ;;
            (* without a first word, parts[0] reads as undefined *)
            setp o' (nth 0 parts "undefined")
                 (VNum (if String.eqb dir "asc" then of_Z 1 else of_Z (-1))))
     | _ => ret tt
     end ;;
     sort' <- getp criteria "sort" ;;
     (* the message of the error names an undeclared variable, so
        building it is what throws *)
     if negb (isObject sort') && negb (isFunction sort')
     then throw (ReferenceError "direction")
     else ret tt)
  else ret tt.

Definition normalizeCriteria (criteria : value) : M value :=
  if negb (truthy criteria) then alloc (CObj [("where", VNull)])
  else
    strip_undefined criteria ;;
    n <- to_number criteria ;;
    criteria <-
      (if (isFinite criteria || isString criteria) && gtb n zero
       then alloc (CObj [("id", VNum n)])
       else ret criteria) ;;
    if negb (isObject criteria)
    then ret (VStr ("Invalid options/criteria :: " ++ ToStringPrim criteria))
    else
      w <- getp criteria "where" ;;
      l <- getp criteria "limit" ;;
      s <- getp criteria "skip" ;;
      o <- getp criteria "offset" ;;
      r <- getp criteria "order" ;;
      criteria <-
        (if negb (truthy w) && negb (truthy l) && negb (truthy s)
            && negb (truthy o) && negb (truthy r)
         then alloc (CObj [("where", criteria)])
         else ret criteria) ;;
      w <- getp criteria "where" ;;
      h <- read_heap ;;
      for_each (keys (own_props h w)) (coerce_attr criteria) ;;
      normalize_sort criteria ;;
      ret criteria.

End Criteria.

(* ===================================================================== *)
(** * Library helpers used by the facade                                   *)
(* ===================================================================== *)

Module Lib.

Import Num JS Eff.
Local Open Scope string_scope.
Local Open Scope eff_scope.

(** [_.isEqual]: deep comparison.  Identical references are equal; two
    objects are equal when they have the same keys with equal values,
    two arrays when they have equal elements.  Fuel bounds the descent
    by the size of the heap, which suffices for acyclic data. *)
Fixpoint eq_values (fuel : nat) (h : heap) (a b : value) : bool :=
  match a, b with
  | VUndefined, VUndefined => true
  | VNull, VNull => true
  | VBool x, VBool y => Bool.eqb x y
  | VNum x, VNum y => same x y
  | VStr s, VStr t => String.eqb s t
  | VDate s, VDate t => SFeqb s t
  | VFun i, VFun j => Nat.eqb i j
  | VRef l, VRef m =>
      if Nat.eqb l m then true
      else
        match fuel with
        | O => true
        | S f =>
            match nth_error h l, nth_error h m with
            | Some (CObj ps), Some (CObj qs) =>
                Nat.eqb (List.length ps) (List.length qs)
                && forallb (fun kv =>
                              match assoc (fst kv) qs with
                              | Some v' => eq_values f h (snd kv) v'
                              | None => false
                              end) ps
            | Some (CArr xs _), Some (CArr ys _) =>
                Nat.eqb (List.length xs) (List.length ys)
                && forallb (fun xy => eq_values f h (fst xy) (snd xy))
                           (combine xs ys)
            | _, _ => false
            end
        end
  | _, _ => false
  end.

Definition isEqual (a b : value) : M bool :=
  h <- read_heap ;; ret (eq_values (S (List.length h)) h a b).

(** ** [async.forEach]

    The iterator is started on every item in turn; the final callback
    runs with the first error an iterator reports, at once and only
    once, or with [null] when every iterator has reported success. *)

Definition new_frame : M nat :=
  fun w => (Ok (List.length (w_frames w)),
            World (w_heap w) (w_clock w) (w_tick w) (w_log w)
                  (w_frames w ++ [Frame 0 true])%list).

Definition read_frame (i : nat) : M frame :=
  fun w => (Ok (nth i (w_frames w) (Frame 0 false)), w).

Fixpoint frames_set (i : nat) (f : frame) (fs : list frame) : list frame :=
  match i, fs with
  | _, [] => []
  | O, _ :: r => f :: r
  | S j, x :: r => x :: frames_set j f r
  end.

Definition write_frame (i : nat) (f : frame) : M unit :=
  fun w => (Ok tt,
            World (w_heap w) (w_clock w) (w_tick w) (w_log w)
                  (frames_set i f (w_frames w))).

Definition forEach {A} (arr : list A)
           (iterator : A -> callback -> M unit) (final : callback)
  : M unit :=
  match arr with
  | [] => final []
  | _ =>
      i <- new_frame ;;
      for_each arr (fun x =>
        iterator x (fun args =>
          let err := arg 0 args in
          fr <- read_frame i ;;
          if truthy err then
            (if live fr then final [err] else ret tt) ;;
            fr' <- read_frame i ;;
            write_frame i (Frame (completed fr') false)
          else
            write_frame i (Frame (S (completed fr)) (live fr)) ;;
            if Nat.eqb (S (completed fr)) (List.length arr)
            then (if live fr then final [VNull] else ret tt)
            else ret tt))
  end.

End Lib.

(* ===================================================================== *)
(** * The adapter facade                                                   *)
(* ===================================================================== *)

Module Facade.

Import Num JS Eff Criteria Lib.
Local Open Scope string_scope.
Local Open Scope eff_scope.

Record config : Type := Config {
  createdAt : value;
  updatedAt : value;
  transactionWarningTimer : value
}.

(** An adapter implements a subset of the operations; each takes a
    trailing callback. *)
Record adapter : Type := Adapter {
  a_config : config;
  a_describe : option (string -> callback -> M unit);
  a_alter : option (string -> value -> callback -> M unit);
  a_addAttribute : option (string -> string -> value -> callback -> M unit);
  a_removeAttribute :
    option (string -> string -> value -> callback -> M unit);
  a_create : option (string -> value -> callback -> M unit);
  a_find : option (string -> value -> callback -> M unit)
}.

Section WithAdapter.

Variable A : adapter.

Definition describe (collectionName : string) (cb : callback) : M unit :=
  match a_describe A with
  | Some f => f collectionName cb
  | None => cb []
  end.

(** The attributes of the new definition that the collection lacks. *)
Fixpoint checkAttributes (originalAttributes : value) (entries : props)
         (newAttributes : props) : M props :=
  match entries with
  | [] => ret newAttributes
  | (attrName, attribute) :: r =>
      o <- memberp originalAttributes attrName ;;
      checkAttributes originalAttributes r
        (if negb (truthy o)
         then assoc_set attrName attribute newAttributes
         else newAttributes)
  end.

(** The attributes of the collection that the new definition lacks or
    changes; the latter are put back among the new ones. *)
Fixpoint markDeprecated (attributes : value) (entries : props)
         (deprecatedAttributes newAttributes : props)
  : M (props * props) :=
  match entries with
  | [] => ret (deprecatedAttributes, newAttributes)
  | (attrName, attribute) :: r =>
      a <- memberp attributes attrName ;;
      let dep1 :=
        if negb (truthy a)
        then assoc_set attrName attribute deprecatedAttributes
        else deprecatedAttributes in
      a' <- memberp attributes attrName ;;
      same <- isEqual a' attribute ;;
      if negb same
      then markDeprecated attributes r
             (assoc_set attrName attribute dep1)
             (assoc_set attrName attribute newAttributes)
      else markDeprecated attributes r dep1 newAttributes
  end.

Definition lookup (ps : props) (k : string) : value :=
  match assoc k ps with Some v => v | None => VUndefined end.

Definition afterDescribe
           (add remove : string -> string -> value -> callback -> M unit)
           (collectionName : string) (attributes : value) (cb : callback)
  : callback :=
  fun args =>
    let err := arg 0 args in
    let originalAttributes := arg 1 args in
    (* [done] is not bound anywhere in scope *)
    if truthy err then throw (ReferenceError "done")
    else
      h <- read_heap ;;
      newAttributes <-
        checkAttributes originalAttributes (each_entries h attributes) [] ;;
      h' <- read_heap ;;
      dn <- markDeprecated attributes (each_entries h' originalAttributes)
                           [] newAttributes ;;
      let deprecatedAttributes := fst dn in
      let newAttributes := snd dn in
      forEach (keys newAttributes)
        (fun attrName k =>
           add collectionName attrName (lookup newAttributes attrName) k)
        (fun args' =>
           let err' := arg 0 args' in
           if truthy err' then throw (Thrown err')
           else
             forEach (keys deprecatedAttributes)
               (fun attrName k =>
                  remove collectionName attrName
                         (lookup deprecatedAttributes attrName) k)
               cb).

Definition alter (collectionName : string) (attributes : value)
           (cb : callback) : M unit :=
  match a_alter A with
  | Some f => f collectionName attributes cb
  | None =>
      match a_addAttribute A, a_removeAttribute A with
      | Some add, Some remove =>
          describe collectionName
            (afterDescribe add remove collectionName attributes cb)
      | _, _ => cb []
      end
  end.

(** The timestamps are written into the object that was passed in. *)
Definition stamp (flag : value) (values : value) (field : string)
  : M unit :=
  if truthy flag
  then (d <- new_Date ;; setp values field d)
  else ret tt.

Definition create (collectionName : string) (values : value)
           (cb : callback) : M unit :=
  match a_create A with
  | None => cb [VStr "No create() method defined in adapter!"]
  | Some f =>
      stamp (createdAt (a_config A)) values "createdAt" ;;
      stamp (updatedAt (a_config A)) values "updatedAt" ;;
      f collectionName values cb
  end.

Definition findAll (collectionName : string) (criteria : value)
           (cb : callback) : M unit :=
  match a_find A with
  | None => cb [VStr "No find() method defined in adapter!"]
  | Some f =>
      criteria <- normalizeCriteria criteria ;;
      if isString criteria then cb [criteria]
      else f collectionName criteria cb
  end.

(** The callback that [find] hands to [findAll]. *)
Definition afterFindAll (collectionName : string) (cb : callback)
  : callback :=
  fun args =>
    let models := arg 1 args in
    len <- getp models "length" ;;
    n <- to_number len ;;
    if ltb n (of_Z 1) then cb []
    else
      len' <- getp models "length" ;;
      n' <- to_number len' ;;
      if gtb n' (of_Z 1)
      then cb [VStr ("More than one " ++ collectionName ++ " returned!")]
      else (m <- getp models "0" ;; cb [VNull; m]).

(** If no criteria specified, use first model. *)
Definition firstIfNone (criteria : value) : M value :=
  if negb (truthy criteria)
  then alloc (CObj [("limit", VNum (of_Z 1))])
  else ret criteria.

Definition find (collectionName : string) (criteria : value)
           (cb : callback) : M unit :=
  criteria <- firstIfNone criteria ;;
  findAll collectionName criteria (afterFindAll collectionName cb).

End WithAdapter.

End Facade.

(* ===================================================================== *)
(** * Sample adapters and worlds                                           *)
(* ===================================================================== *)

Module Samples.

Import Num JS Eff Criteria Lib Facade.
Local Open Scope string_scope.
Local Open Scope eff_scope.

Definition no_config : config := Config VUndefined VUndefined VUndefined.

Definition world_of (h : heap) : world :=
  World h (fun n => of_Z (1000 + Z.of_nat n)) 0 [] [].

(** An adapter that records the column operations it receives and
    reports success; [describe] answers with the object at [current]. *)
Definition column_adapter (current : loc) : adapter :=
  Adapter no_config
    (Some (fun name k => k [VNull; VRef current]))
    None
    (Some (fun name attrName def k =>
             emit (EvAdapter "addAttribute" [VStr name; VStr attrName; def]) ;;
             k []))
    (Some (fun name attrName def k =>
             emit (EvAdapter "removeAttribute"
                             [VStr name; VStr attrName; def]) ;;
             k []))
    None None.

(** The same, with a [describe] that reports an error. *)
Definition describe_fails (err : value) : adapter :=
  Adapter no_config
    (Some (fun name k => k [err]))
    None
    (Some (fun name attrName def k =>
             emit (EvAdapter "addAttribute" [VStr name; VStr attrName; def]) ;;
             k []))
    (Some (fun name attrName def k =>
             emit (EvAdapter "removeAttribute"
                             [VStr name; VStr attrName; def]) ;;
             k []))
    None None.

(** The same, with an [addAttribute] that reports an error. *)
Definition add_fails (current : loc) (err : value) : adapter :=
  Adapter no_config
    (Some (fun name k => k [VNull; VRef current]))
    None
    (Some (fun name attrName def k =>
             emit (EvAdapter "addAttribute" [VStr name; VStr attrName; def]) ;;
             k [err]))
    (Some (fun name attrName def k =>
             emit (EvAdapter "removeAttribute"
                             [VStr name; VStr attrName; def]) ;;
             k []))
    None None.

(** Current attributes [{ a: string, b: int }] at 0, target attributes
    [{ a: string, c: bool }] at 1. *)
Definition schema_heap : heap :=
  [ CObj [("a", VStr "string"); ("b", VStr "int")];
    CObj [("a", VStr "string"); ("c", VStr "bool")] ].

(** An adapter whose [find] reports an error and no models. *)
Definition find_fails (err : value) : adapter :=
  Adapter no_config None None None None None
    (Some (fun name criteria k =>
             emit (EvAdapter "find" [VStr name; criteria]) ;; k [err])).

(** An adapter whose [find] answers with the array at [models], and
    whose [create] stores nothing and answers with the values. *)
Definition store_adapter (cfg : config) (models : loc) : adapter :=
  Adapter cfg None None None None
    (Some (fun name values k =>
             emit (EvAdapter "create" [VStr name; values]) ;;
             k [VNull; values]))
    (Some (fun name criteria k =>
             emit (EvAdapter "find" [VStr name; criteria]) ;;
             k [VNull; VRef models])).

End Samples.

(* ===================================================================== *)
(** * The lock manager                                                     *)
(* ===================================================================== *)

Module Locks.

Import JS.
Local Open Scope Z_scope.

(** (for sorting) *)
Definition MAX_INTEGER : Z := 4294967295.

(** A lock entry of the transaction collection.  The two callbacks of
    the call travel with the entry; they are known by their identity. *)
Record lock : Type := Lock {
  id : Z;
  uuid : string;
  name : string;
  atomicLogic : nat;
  afterUnlock : option nat
}.

(** Find the oldest lock with the same transaction name. *)
Definition pickNext (currentLock : lock) (nextLock : option lock)
           (lk : lock) : option lock :=
  (* Ignore locks with different transaction names *)
  if negb (String.eqb (name lk) (name currentLock)) then nextLock
  (* Ignore current lock *)
  else if String.eqb (uuid lk) (uuid currentLock) then nextLock
  else
    (* Find the lock with the smallest id *)
    let minId :=
      match nextLock with Some n => id n | None => MAX_INTEGER end in
    if id lk <? minId then Some lk else nextLock.

Definition getNextLock (locks : list lock) (currentLock : lock)
  : option lock :=
  fold_left (pickNext currentLock) locks None.

(** The scan of [transaction]: an entry of the same name, of another
    call, that is older. *)
Definition eachLock (newLock : lock) (conflict : option lock)
           (entry : lock) : option lock :=
  if String.eqb (name entry) (name newLock)
     && negb (String.eqb (uuid entry) (uuid newLock))
     && (id entry <? id newLock)
  then Some entry else conflict.

Definition findConflict (locks : list lock) (newLock : lock)
  : option lock :=
  fold_left (eachLock newLock) locks None.

(** ** The callbacks of the lock manager

    Every operation on the transaction collection is asynchronous: the
    code issues the call together with a callback and returns.  A
    callback is kept as data, the function that is waiting together
    with the variables it has captured. *)

Inductive request : Type :=
| Create (uuid name : string) (atomicLogic : nat) (afterUnlock : option nat)
| FindAll
| Destroy (uuid : string).

Inductive reply : Type :=
| Created (err : value) (newLock : option lock)
| Found (err : value) (locks : list lock)
| Destroyed (err : value).

Inductive waiting : Type :=
| afterCreatingTransaction (atomicLogic : nat)
| afterLookingUpTransactions (atomicLogic : nat) (newLock : lock)
| afterLookingUpForRelease (currentLock : lock)
                           (afterUnlockArgs : list value)
| afterLockReleased (currentLock : lock) (afterUnlockArgs : list value)
                    (nextInLine : option lock).

(** The function handed to [atomicLogic]: the unlock of an acquired
    lock, or a function that throws the error of a failed acquisition. *)
Inductive unlocker : Type :=
| Unlock (l : lock)
| Rethrow (err : value).

(** What a piece of lock-manager code does, in program order. *)
Inductive action : Type :=
| Issue (r : request) (k : waiting)
| SetWarningTimer (l : lock)
| ClearWarningTimer (l : lock)
| CallAtomicLogic (f : nat) (err : value) (u : unlocker)
| CallAfterUnlock (g : nat) (args : list value).

(** [transaction(transactionName, atomicLogic, afterUnlock)], with the
    unique identifier that the call draws. *)
Definition transaction (fresh_uuid transactionName : string)
           (atomicLogic : nat) (afterUnlock : option nat) : list action :=
  [ Issue (Create fresh_uuid transactionName atomicLogic afterUnlock)
          (afterCreatingTransaction atomicLogic) ].

Definition acquireLock (newLock : lock) : list action :=
  [ SetWarningTimer newLock;
    CallAtomicLogic (atomicLogic newLock) VNull (Unlock newLock) ].

Definition releaseLock (currentLock : lock) (afterUnlockArgs : list value)
  : list action :=
  [ Issue FindAll (afterLookingUpForRelease currentLock afterUnlockArgs) ].

(** The [unlock] function that [acquireLock] passes to the atomic
    logic. *)
Definition unlock (newLock : lock) (args : list value) : list action :=
  ClearWarningTimer newLock :: releaseLock newLock args.

(** [cb && cb(...)]. *)
Definition call_if_given (cb : option nat) (args : list value)
  : list action :=
  match cb with
  | Some g => [CallAfterUnlock g args]
  | None => []
  end.

Definition reply_err (r : reply) : value :=
  match r with
  | Created e _ | Found e _ | Destroyed e => e
  end.

Definition reply_locks (r : reply) : list lock :=
  match r with Found _ ls => ls | _ => [] end.

(** Running a waiting callback on the reply of the collection.  (A
    callback only ever receives the reply to its own call: a lock for
    [create], the list of locks for [findAll].) *)
Definition resume (k : waiting) (r : reply) : list action :=
  let err := reply_err r in
  match k with
  | afterCreatingTransaction f =>
      if truthy err then [CallAtomicLogic f err (Rethrow err)]
      else
        match r with
        | Created _ (Some newLock) =>
            [Issue FindAll (afterLookingUpTransactions f newLock)]
        | _ => []
        end
  | afterLookingUpTransactions f newLock =>
      if truthy err then [CallAtomicLogic f err (Rethrow err)]
      else
        match findConflict (reply_locks r) newLock with
        | None => acquireLock newLock
        | Some _ => []
        end
  | afterLookingUpForRelease currentLock afterUnlockArgs =>
      let cb := afterUnlock currentLock in
      if truthy err then call_if_given cb [err]
      else
        let nextInLine := getNextLock (reply_locks r) currentLock in
        [Issue (Destroy (uuid currentLock))
               (afterLockReleased currentLock afterUnlockArgs nextInLine)]
  | afterLockReleased currentLock afterUnlockArgs nextInLine =>
      let cb := afterUnlock currentLock in
      if truthy err then call_if_given cb [err]
      else
        call_if_given cb afterUnlockArgs ++
        match nextInLine with
        | Some n => acquireLock n
        | None => []
        end
  end.

End Locks.

(* ===================================================================== *)
(** * The transaction collection and the event loop                        *)
(* ===================================================================== *)

Module Loop.

Import JS Locks.
Local Open Scope Z_scope.

(** Modelled from the spec: the transaction collection, which is not
    part of the wrapper.  It stores the lock entries, assigns each new
    entry the next id of a monotonic counter, answers [findAll] with
    all entries and deletes by uuid; each operation takes effect
    atomically. *)
Record collection : Type := Collection {
  entries : list lock;
  next_id : Z
}.

Definition serve (r : request) (c : collection) : reply * collection :=
  match r with
  | Create u n f g =>
      let l := Lock (next_id c) u n f g in
      (Created VNull (Some l), Collection (entries c ++ [l]) (next_id c + 1))
  | FindAll => (Found VNull (entries c), c)
  | Destroy u =>
      (Destroyed VNull,
       Collection (filter (fun e => negb (String.eqb (uuid e) u)) (entries c))
                  (next_id c))
  end.

(** A failed operation reports its error and changes nothing. *)
Definition refuse (r : request) (err : value) : reply :=
  match r with
  | Create _ _ _ _ => Created err None
  | FindAll => Found err []
  | Destroy _ => Destroyed err
  end.

(** A call of [transaction] by the application. *)
Record call : Type := Call {
  c_uuid : string;             (* the identifier the call will draw *)
  c_name : string;
  c_atomicLogic : nat;
  c_afterUnlock : option nat
}.

Inductive event : Type :=
| Called (c : call)
| Served (r : request) (rp : reply)
| Did (a : action)
| Unlocked (l : lock) (args : list value).

(** The state of the event loop: the collection, the calls the
    application has yet to make, the operations issued but not served,
    the replies whose callback has not run yet, the critical sections
    that were entered and have not called [unlock] yet, and what has
    happened so far (oldest first). *)
Record state : Type := State {
  coll : collection;
  calls : list call;
  pending : list (request * waiting);
  ready : list (reply * waiting);
  held : list lock;
  trace : list event
}.

Definition log (e : event) (s : state) : state :=
  State (coll s) (calls s) (pending s) (ready s) (held s) (trace s ++ [e]).

Definition perform1 (a : action) (s : state) : state :=
  match a with
  | Issue r k =>
      State (coll s) (calls s) (pending s ++ [(r, k)]) (ready s)
            (held s) (trace s)
  | CallAtomicLogic f err (Unlock l) =>
      State (coll s) (calls s) (pending s) (ready s)
            (held s ++ [l]) (trace s ++ [Did a])
  | _ => log (Did a) s
  end.

Definition perform (acts : list action) (s : state) : state :=
  fold_left (fun s a => perform1 a s) acts s.

(** One turn of the event loop.  The application makes one of its
    calls; the collection serves, or refuses, one of the operations it
    was sent, in any order; a callback whose reply has arrived runs; a
    critical section calls its [unlock]. *)
Inductive step : state -> state -> Prop :=
| step_call s c cs1 cs2 :
    calls s = cs1 ++ c :: cs2 ->
    step s
      (perform (transaction (c_uuid c) (c_name c) (c_atomicLogic c)
                            (c_afterUnlock c))
         (State (coll s) (cs1 ++ cs2) (pending s) (ready s) (held s)
                (trace s ++ [Called c])))
| step_serve s r k p1 p2 :
    pending s = p1 ++ (r, k) :: p2 ->
    step s
      (State (snd (serve r (coll s))) (calls s) (p1 ++ p2)
             (ready s ++ [(fst (serve r (coll s)), k)]) (held s)
             (trace s ++ [Served r (fst (serve r (coll s)))]))
| step_refuse s r k p1 p2 err :
    pending s = p1 ++ (r, k) :: p2 ->
    truthy err = true ->
    step s
      (State (coll s) (calls s) (p1 ++ p2)
             (ready s ++ [(refuse r err, k)]) (held s)
             (trace s ++ [Served r (refuse r err)]))
| step_resume s rp k r1 r2 :
    ready s = r1 ++ (rp, k) :: r2 ->
    step s
      (perform (resume k rp)
         (State (coll s) (calls s) (pending s) (r1 ++ r2) (held s)
                (trace s)))
| step_unlock s l args h1 h2 :
    held s = h1 ++ l :: h2 ->
    step s
      (perform (unlock l args)
         (State (coll s) (calls s) (pending s) (ready s) (h1 ++ h2)
                (trace s ++ [Unlocked l args]))).

Inductive reachable (s0 : state) : state -> Prop :=
| reach_refl : reachable s0 s0
| reach_step s s' : reachable s0 s -> step s s' -> reachable s0 s'.

(** The application is about to make the given calls; nothing is in
    flight. *)
Definition initial (c : collection) (cs : list call) : state :=
  State c cs [] [] [] [].

(** ** Schedules

    A schedule names the turns of the event loop one by one, each by the
    position of the call, operation, reply or critical section that it
    takes; running it gives the state it leads to, if every turn is
    possible. *)
Inductive turn : Type :=
| Call_ (i : nat)
| Serve (i : nat)
| Refuse (i : nat) (err : value)
| Resume (i : nat)
| Unlock_ (i : nat) (args : list value).

Fixpoint pick {A : Type} (i : nat) (l : list A)
  : option (list A * A * list A) :=
  match l, i with
  | [], _ => None
  | x :: r, O => Some ([], x, r)
  | x :: r, S j =>
      match pick j r with
      | Some (a, y, b) => Some (x :: a, y, b)
      | None => None
      end
  end.

Definition take_turn (t : turn) (s : state) : option state :=
  match t with
  | Call_ i =>
      match pick i (calls s) with
      | Some (cs1, c, cs2) =>
          Some (perform (transaction (c_uuid c) (c_name c) (c_atomicLogic c)
                                     (c_afterUnlock c))
                  (State (coll s) (cs1 ++ cs2) (pending s) (ready s) (held s)
                         (trace s ++ [Called c])))
      | None => None
      end
  | Serve i =>
      match pick i (pending s) with
      | Some (p1, (r, k), p2) =>
          Some (State (snd (serve r (coll s))) (calls s) (p1 ++ p2)
                      (ready s ++ [(fst (serve r (coll s)), k)]) (held s)
                      (trace s ++ [Served r (fst (serve r (coll s)))]))
      | None => None
      end
  | Refuse i err =>
      match pick i (pending s), truthy err with
      | Some (p1, (r, k), p2), true =>
          Some (State (coll s) (calls s) (p1 ++ p2)
                      (ready s ++ [(refuse r err, k)]) (held s)
                      (trace s ++ [Served r (refuse r err)]))
      | _, _ => None
      end
  | Resume i =>
      match pick i (ready s) with
      | Some (r1, (rp, k), r2) =>
          Some (perform (resume k rp)
                  (State (coll s) (calls s) (pending s) (r1 ++ r2) (held s)
                         (trace s)))
      | None => None
      end
  | Unlock_ i args =>
      match pick i (held s) with
      | Some (h1, l, h2) =>
          Some (perform (unlock l args)
                  (State (coll s) (calls s) (pending s) (ready s) (h1 ++ h2)
                         (trace s ++ [Unlocked l args])))
      | None => None
      end
  end.

(** The state after the turns of a schedule; an impossible turn is
    skipped. *)
Fixpoint after (ts : list turn) (s : state) : state :=
  match ts with
  | [] => s
  | t :: r =>
      match take_turn t s with
      | Some s' => after r s'
      | None => after r s
      end
  end.

(** ** A collection that answers at once

    With an in-process collection every operation is served, and its
    callback run, before anything else happens. *)
Fixpoint drain (fuel : nat) (s : state) : state :=
  match fuel with
  | O => s
  | S n =>
      match pending s with
      | [] => s
      | (r, k) :: rest =>
          let rp := fst (serve r (coll s)) in
          drain n
            (perform (resume k rp)
               (State (snd (serve r (coll s))) (calls s) rest (ready s)
                      (held s) (trace s ++ [Served r rp])))
      end
  end.

(** The holder of [l] calls [unlock(args)], and the loop runs until
    nothing is in flight. *)
Definition unlock_now (l : lock) (args : list value) (c : collection)
  : state :=
  drain 4 (perform (unlock l args)
             (State c [] [] [] [] [Unlocked l args])).

End Loop.

(* ===================================================================== *)
(** * The remaining operations of the facade                               *)
(* ===================================================================== *)

Module Wrapper.

Import Num JS Eff Criteria Lib Facade.
Local Open Scope string_scope.
Local Open Scope eff_scope.

(** The operations of an adapter that [Facade.adapter] does not list. *)
Record operations : Type := Operations {
  a_count : option (string -> value -> callback -> M unit);
  a_update : option (string -> value -> value -> callback -> M unit);
  a_destroy : option (string -> value -> callback -> M unit);
  a_findOrCreate :
    option (string -> value -> value -> callback -> M unit);
  a_createEach : option (string -> value -> callback -> M unit);
  a_findOrCreateEach : option (string -> value -> callback -> M unit)
}.

(** The logic that a transaction runs atomically: it receives the error
    of a failed acquisition, or [null], and the function that ends the
    transaction. *)
Definition atomic : Type := value -> callback -> M unit.

(** The elements that [async.forEach] walks through.  Reading the length
    of [undefined] or [null] throws; a string has its characters; what
    is no array and has no length has no elements.  (An object that
    carries a [length] of its own is outside the model.) *)
Definition chars (s : string) : list value :=
  map (fun c => VStr (String c EmptyString)) (list_ascii_of_string s).

Definition elements (arr : value) : M (list value) :=
  _ <- getp arr "length" ;;
  h <- read_heap ;;
  ret (match arr with
       | VRef l =>
           match nth_error h l with
           | Some (CArr items _) => items
           | _ => []
           end
       | VStr s => chars s
       | _ => []
       end).

Section WithAdapter.

Variable A : adapter.
Variable X : operations.

(** [self.transaction], the entry point of the lock manager.  There the
    callbacks of a call are data; here the atomic logic and the function
    to run after unlock are closures, so the operations that start a
    transaction take the lock manager as a parameter. *)
Variable transaction : string -> atomic -> callback -> M unit.

Definition count (collectionName : string) (criteria : value)
           (cb : callback) : M unit :=
  criteria <- normalizeCriteria criteria ;;
  match a_count X with
  | None =>
      findAll A collectionName criteria (fun args =>
        let err := arg 0 args in
        let models := arg 1 args in
        len <- getp models "length" ;;
        cb [err; len])
  | Some f => f collectionName criteria cb
  end.

Definition update (collectionName : string) (criteria values : value)
           (cb : callback) : M unit :=
  match a_update X with
  | None => cb [VStr "No update() method defined in adapter!"]
  | Some f =>
      criteria <- normalizeCriteria criteria ;;
      if isString criteria then cb [criteria]
      else
        (* Automatically change updatedAt (if enabled) *)
        stamp (updatedAt (a_config A)) values "updatedAt" ;;
        f collectionName criteria values cb
  end.

Definition destroy (collectionName : string) (criteria : value)
           (cb : callback) : M unit :=
  match a_destroy X with
  | None => cb [VStr "No destroy() method defined in adapter!"]
  | Some f =>
      criteria <- normalizeCriteria criteria ;;
      if isString criteria then cb [criteria]
      else f collectionName criteria cb
  end.

(** The atomic logic of the default [findOrCreate]. *)
Definition findThenCreate (collectionName : string)
           (criteria values : value) : atomic :=
  fun _ done =>
    find A collectionName criteria (fun args =>
      let err := arg 0 args in
      let result := arg 1 args in
      if truthy err then done [err]
      else if truthy result then done [VNull; result]
      else create A collectionName values done).

Definition findOrCreate (collectionName : string)
           (criteria values : value) (cb : callback) : M unit :=
  criteria <- normalizeCriteria criteria ;;
  if isString criteria then cb [criteria]
  else
    (* If no values were specified, use criteria *)
    values <- (if negb (truthy values) then getp criteria "where"
               else ret values) ;;
    match a_findOrCreate X with
    | Some f => f collectionName criteria values cb
    | None =>
        (* Create transaction name based on collection *)
        let transactionName :=
          collectionName ++ ".waterline.default.create.findOrCreate" in
        transaction transactionName
                    (findThenCreate collectionName criteria values) cb
    end.

Definition createEach (collectionName : string) (valuesList : value)
           (cb : callback) : M unit :=
  match a_createEach X with
  | Some f => f collectionName valuesList cb
  | None =>
      transaction (collectionName ++ "..waterline.default.createEach")
        (fun _ done =>
           items <- elements valuesList ;;
           forEach items
                   (fun values k => create A collectionName values k)
                   done)
        cb
  end.

Definition findOrCreateEach (collectionName : string) (valuesList : value)
           (cb : callback) : M unit :=
  match a_findOrCreateEach X with
  | Some f => f collectionName valuesList cb
  | None =>
      transaction (collectionName ++ ".waterline.default.createEach")
        (fun _ done =>
           items <- elements valuesList ;;
           forEach items
                   (fun values k =>
                      findOrCreate collectionName values VNull k)
                   done)
        cb
  end.

End WithAdapter.

(** A lock manager whose collection answers in process and holds no
    older entry of the name: the atomic logic runs at once, and what it
    passes to [unlock] is passed on to the function to run after
    unlock. *)
Definition uncontended : string -> atomic -> callback -> M unit :=
  fun _ atomicLogic afterUnlock => atomicLogic VNull afterUnlock.

(** A lock manager whose collection fails to create the entry, or to
    scan: the atomic logic runs with the error, and the function it is
    handed throws that error. *)
Definition failing (err : value) : string -> atomic -> callback -> M unit :=
  fun _ atomicLogic _ => atomicLogic err (fun _ => throw (Thrown err)).

End Wrapper.

(* ===================================================================== *)
(** * The lock manager on a collection that answers at once                *)
(* ===================================================================== *)

Module InProcess.

Import JS Locks Loop.
Local Open Scope Z_scope.

(** The application makes the call [c], and the loop runs until nothing
    is in flight. *)
Definition transaction_now (c : call) (col : collection) : state :=
  drain 2 (perform (transaction (c_uuid c) (c_name c) (c_atomicLogic c)
                                (c_afterUnlock c))
             (State col [] [] [] [] [Called c])).

(** The entry that the collection makes for the call [c]. *)
Definition entry_of (c : call) (col : collection) : lock :=
  Lock (next_id col) (c_uuid c) (c_name c) (c_atomicLogic c)
       (c_afterUnlock c).

End InProcess.

(* ===================================================================== *)
(** * The node controller of the content server                            *)
(* ===================================================================== *)

Module NodeController.

Import Num JS Eff.
Local Open Scope string_scope.
Local Open Scope eff_scope.

(** [res.json(body)]: the response records what it is sent. *)
Definition res_json (body : value) : M unit :=
  emit (EvAdapter "res.json" [body]).

(** The bodies that the response has been sent. *)
Definition sent (w : world) : list value :=
  flat_map (fun e =>
              match e with
              | EvAdapter "res.json" [body] => [body]
              | _ => []
              end) (w_log w).

(** The property names that [for (prop in source)] visits. *)
Definition for_in (h : heap) (source : value) : list string :=
  match source with
  | VStr s => map index_name (seq 0 (String.length s))
  | _ => keys (own_props h source)
  end.

(** [_.extend(obj, source)]. *)
Definition extend (obj source : value) : M value :=
  h <- read_heap ;;
  for_each (for_in h source)
           (fun prop => x <- getp source prop ;; setp obj prop x) ;;
  ret obj.

(** The values that [_.each] hands to its iterator: the elements of an
    array, the property values of an object, the characters of a
    string.  (Functions, and objects that carry a numeric [length], are
    outside the model.) *)
Definition each_values (h : heap) (v : value) : list value :=
  match v with
  | VRef l =>
      match nth_error h l with
      | Some (CObj ps) => map snd ps
      | Some (CArr items _) => items
      | None => []
      end
  | VStr s =>
      map (fun c => VStr (String c EmptyString)) (list_ascii_of_string s)
  | _ => []
  end.

(** [===]. *)
Definition strict_equal (a b : value) : bool :=
  match a, b with
  | VUndefined, VUndefined => true
  | VNull, VNull => true
  | VBool x, VBool y => Bool.eqb x y
  | VNum x, VNum y => SFeqb x y
  | VStr s, VStr t => String.eqb s t
  | VFun i, VFun j => Nat.eqb i j
  | VRef l, VRef m => Nat.eqb l m
  | _, _ => false
  end.

(** [_.contains]. *)
Definition contains (list : list value) (target : value) : bool :=
  existsb (fun x => strict_equal x target) list.

Definition success (response : value) : M value :=
  o <- alloc (CObj [("success", VBool true)]) ;;
  extend o response.

Definition error (response : value) : M value :=
  o <- alloc (CObj [("success", VBool false)]) ;;
  e <- (if isString response then alloc (CObj [("message", response)])
        else ret response) ;;
  setp o "error" e ;;
  ret o.

(** Trim model for use in a JSON response.  (The name under which an
    attribute is read and written is its text.) *)
Definition trimModel (model : value) : M value :=
  trimmedModel <- alloc (CObj []) ;;
  attributes <- getp model "attributes" ;;
  h <- read_heap ;;
  for_each (each_values h attributes)
           (fun key =>
              k <- name_of key ;;
              x <- memberp model k ;;
              setp trimmedModel k x) ;;
  ret trimmedModel.

(** Trim parameter map to only those attributes which matter to the
    model. *)
Definition trimParams (params model : value) : M value :=
  trimmedParams <- alloc (CObj []) ;;
  attributes <- getp model "attributes" ;;
  h <- read_heap ;;
  for_each (each_values h attributes)
           (fun key =>
              k <- name_of key ;;
              p <- memberp params k ;;
              if truthy p
              then (x <- memberp params k ;;
                    setp trimmedParams k x)
              else ret tt) ;;
  ret trimmedParams.

Definition validId (id : value) : M value :=
  if truthy id
  then (n <- to_number id ;; ret (VBool (negb (is_nan n))))
  else ret id.

(** Returns true if valid; if invalid, returns false and sends a JSON
    error response.  (The id is a primitive.) *)
Definition validateId (id : value) : M bool :=
  if negb (truthy id)
  then (e <- error (VStr "No node id specified.") ;;
        res_json e ;; ret false)
  else
    v <- validId id ;;
    if negb (truthy v)
    then (e <- error (VStr ("'" ++ ToStringPrim id
                            ++ "' is not a valid node id.")) ;;
          res_json e ;; ret false)
    else ret true.

(** The check is skipped: the function returns before it looks at the
    verb. *)
Definition validateVerb (verb okVerbs : value) : M bool := ret true.

Definition validateType (type : value) : M bool :=
  validTypes <- alloc (CArr [VStr "html"; VStr "text"] []) ;;
  if negb (truthy type)
  then (e <- error (VStr "No content type specified.") ;;
        res_json e ;; ret false)
  else if negb (contains [VStr "html"; VStr "text"] type)
  then (o <- alloc (CObj [("message",
                           VStr ("'" ++ ToStringPrim type
                                 ++ "' is not a valid type."));
                          ("validTypes", validTypes)]) ;;
        e <- error o ;;
        res_json e ;; ret false)
  else ret true.

(** [exports.remove], for a request whose [param('id')], [method] and
    [params] are the given values. *)
Definition remove (id method params : value) : M unit :=
  v <- validateId id ;;
  valid <- (if v
            then (okVerbs <- alloc (CArr [VStr "DELETE"] []) ;;
                  validateVerb method okVerbs)
            else ret false) ;;
  if valid
  then (p <- alloc (CObj [("params", params)]) ;;
        s <- success p ;;
        res_json s)
  else ret tt.

End NodeController.

(* ===================================================================== *)
(** * Properties of the lock queue                                         *)
(* ===================================================================== *)

Module LocksFacts.

Import JS Locks.
Local Open Scope Z_scope.

(** A lock that may follow [cur]: same transaction name, another call. *)
Definition candidate (cur l : lock) : Prop :=
  name l = name cur /\ uuid l <> uuid cur.

(** What is known about the lock chosen after looking at [seen]. *)
Definition chosen (cur : lock) (seen : list lock) (acc : option lock)
  : Prop :=
  match acc with
  | Some n =>
      In n seen /\ candidate cur n /\ id n < MAX_INTEGER /\
      forall l, In l seen -> candidate cur l -> id n <= id l
  | None =>
      forall l, In l seen -> candidate cur l -> MAX_INTEGER <= id l
  end.

Lemma candidate_dec cur l :
  (negb (String.eqb (name l) (name cur)) = false /\
   String.eqb (uuid l) (uuid cur) = false) <-> candidate cur l.
Proof.
  unfold candidate. rewrite negb_false_iff, String.eqb_eq, String.eqb_neq.
  tauto.
Qed.

Lemma pickNext_chosen cur seen acc l :
  chosen cur seen acc -> chosen cur (seen ++ [l]) (pickNext cur acc l).
Proof.
  intros H. unfold pickNext.
  destruct (negb (String.eqb (name l) (name cur))) eqn:En.
  - (* another name *)
    assert (Hn : ~ candidate cur l).
    { intros C. apply candidate_dec in C. destruct C; congruence. }
    destruct acc as [n|]; simpl in *.
    + destruct H as (Hin & Hc & Hm & Hmin). repeat split; auto.
      * apply in_or_app; auto.
      * apply Hc.
      * apply Hc.
      * intros l' Hl' C'. apply in_app_or in Hl'. destruct Hl' as [|[<-|[]]]; auto.
        contradiction.
    + intros l' Hl' C'. apply in_app_or in Hl'. destruct Hl' as [|[<-|[]]]; auto.
      contradiction.
  - destruct (String.eqb (uuid l) (uuid cur)) eqn:Eu.
    + (* the current lock *)
      assert (Hn : ~ candidate cur l).
      { intros C. apply candidate_dec in C. destruct C; congruence. }
      destruct acc as [n|]; simpl in *.
      * destruct H as (Hin & Hc & Hm & Hmin). repeat split; auto.
        -- apply in_or_app; auto.
        -- apply Hc.
        -- apply Hc.
        -- intros l' Hl' C'. apply in_app_or in Hl'.
           destruct Hl' as [|[<-|[]]]; auto. contradiction.
      * intros l' Hl' C'. apply in_app_or in Hl'.
        destruct Hl' as [|[<-|[]]]; auto. contradiction.
    + assert (Hc : candidate cur l) by (apply candidate_dec; auto).
      destruct acc as [n|]; simpl in *.
      * destruct H as (Hin & Hcn & Hm & Hmin).
        destruct (id l <? id n) eqn:El; simpl.
        -- apply Z.ltb_lt in El. repeat split; try apply Hc.
           ++ apply in_or_app; right; left; reflexivity.
           ++ lia.
           ++ intros l' Hl' C'. apply in_app_or in Hl'.
              destruct Hl' as [Hl'|[<-|[]]]; [|lia].
              specialize (Hmin l' Hl' C'). lia.
        -- apply Z.ltb_ge in El. repeat split; try apply Hcn; auto.
           ++ apply in_or_app; auto.
           ++ intros l' Hl' C'. apply in_app_or in Hl'.
              destruct Hl' as [Hl'|[<-|[]]]; auto.
      * destruct (id l <? MAX_INTEGER) eqn:El; simpl.
        -- apply Z.ltb_lt in El. repeat split; try apply Hc; auto.
           ++ apply in_or_app; right; left; reflexivity.
           ++ intros l' Hl' C'. apply in_app_or in Hl'.
              destruct Hl' as [Hl'|[<-|[]]]; [|lia].
              specialize (H l' Hl' C'). lia.
        -- apply Z.ltb_ge in El.
           intros l' Hl' C'. apply in_app_or in Hl'.
           destruct Hl' as [Hl'|[<-|[]]]; auto.
Qed.

Lemma fold_pickNext_chosen cur locks :
  forall seen acc,
    chosen cur seen acc ->
    chosen cur (seen ++ locks) (fold_left (pickNext cur) locks acc).
Proof.
  induction locks as [|l locks IH]; intros seen acc H; simpl.
  - rewrite app_nil_r. exact H.
  - replace (seen ++ l :: locks) with ((seen ++ [l]) ++ locks)
      by (rewrite <- app_assoc; reflexivity).
    apply IH. apply pickNext_chosen. exact H.
Qed.

Lemma getNextLock_chosen locks cur :
  chosen cur locks (getNextLock locks cur).
Proof.
  unfold getNextLock.
  apply (fold_pickNext_chosen cur locks [] None).
  intros l [].
Qed.

(** C10.  [getNextLock] returns, among the entries with the name of the
    current lock and another uuid, one whose id is smallest and below
    [MAX_INTEGER]; it returns nothing exactly when no such entry has an
    id below [MAX_INTEGER], so a candidate whose id is 4294967295 or
    more is never next in line. *)
Theorem getNextLock_smallest_below_max (locks : list lock) (cur : lock) :
  (forall n, getNextLock locks cur = Some n ->
     In n locks /\ name n = name cur /\ uuid n <> uuid cur /\
     id n < 4294967295 /\
     forall l, In l locks -> name l = name cur -> uuid l <> uuid cur ->
               id n <= id l) /\
  ((forall l, In l locks -> name l = name cur -> uuid l <> uuid cur ->
              4294967295 <= id l) ->
   getNextLock locks cur = None) /\
  ((exists l, In l locks /\ name l = name cur /\ uuid l <> uuid cur /\
              id l < 4294967295) ->
   exists n, getNextLock locks cur = Some n).
Proof.
  pose proof (getNextLock_chosen locks cur) as H.
  unfold chosen, candidate, MAX_INTEGER in H.
  repeat split.
  - destruct (getNextLock locks cur) as [m|]; [|discriminate].
    injection H0 as <-. apply H.
  - destruct (getNextLock locks cur) as [m|]; [|discriminate].
    injection H0 as <-. apply H.
  - destruct (getNextLock locks cur) as [m|]; [|discriminate].
    injection H0 as <-. apply H.
  - destruct (getNextLock locks cur) as [m|]; [|discriminate].
    injection H0 as <-. apply H.
  - destruct (getNextLock locks cur) as [m|]; [|discriminate].
    injection H0 as <-. destruct H as (_ & _ & _ & Hmin).
    intros l Hl Hn Hu. apply Hmin; auto.
  - intros Hall. destruct (getNextLock locks cur) as [m|]; [|reflexivity].
    destruct H as (Hin & (Hn & Hu) & Hm & _).
    specialize (Hall m Hin Hn Hu). lia.
  - intros (l & Hl & Hn & Hu & Hid).
    destruct (getNextLock locks cur) as [m|]; [eauto|].
    specialize (H l Hl (conj Hn Hu)). lia.
Qed.

(** A queue whose only other entry has an id that is not below
    [MAX_INTEGER]. *)
Definition held_lock : lock := Lock 1 "a"%string "X"%string 0 None.
Definition other_lock : lock :=
  Lock 4294967295 "b"%string "X"%string 1 None.

Lemma getNextLock_smallest_below_max_witness :
  (forall l, In l [other_lock] ->
             name l = name (held_lock) ->
             uuid l <> uuid (held_lock) -> 4294967295 <= id l)
  /\ getNextLock [other_lock] (held_lock)
     = None.
Proof.
  assert (H : forall l, In l [other_lock] ->
             name l = name (held_lock) ->
             uuid l <> uuid (held_lock) -> 4294967295 <= id l).
  { intros l [<-|[]] _ _. simpl. lia. }
  split; [exact H|].
  exact (proj1 (proj2 (getNextLock_smallest_below_max
                         [other_lock]
                         (held_lock))) H).
Defined.

End LocksFacts.

(* ===================================================================== *)
(** * Release order                                                        *)
(* ===================================================================== *)

Module ReleaseFacts.

Import JS Locks Loop.
Local Open Scope Z_scope.

(** A release on a collection that answers at once, with no operation
    of another call in flight.  When the holder of [cur] calls
    [unlock(args)], the release proceeds in this order: the collection
    is scanned afresh and the next in line is [getNextLock] of that
    scan; the entry of [cur] is deleted by its uuid; [afterUnlock] is
    called with [args]; only then does the release grant the lock to
    the next in line, if any.  Nothing is left in flight, and the
    collection has lost exactly the entries with the uuid of [cur]. *)
Theorem release_order (cur : lock) (args : list value) (c : collection) :
  let s := unlock_now cur args c in
  let nextInLine := getNextLock (entries c) cur in
  trace s =
    [ Unlocked cur args;
      Did (ClearWarningTimer cur);
      Served FindAll (Found VNull (entries c));
      Served (Destroy (uuid cur)) (Destroyed VNull) ]
    ++ match afterUnlock cur with
       | Some g => [Did (CallAfterUnlock g args)]
       | None => []
       end
    ++ match nextInLine with
       | Some n =>
           [ Did (SetWarningTimer n);
             Did (CallAtomicLogic (atomicLogic n) VNull (Unlock n)) ]
       | None => []
       end
  /\ held s = match nextInLine with Some n => [n] | None => [] end
  /\ pending s = [] /\ ready s = []
  /\ entries (coll s) =
       filter (fun e => negb (String.eqb (uuid e) (uuid cur))) (entries c).
Proof.
  unfold unlock_now. simpl.
  destruct (afterUnlock cur) as [g|];
    destruct (getNextLock (entries c) cur) as [n|];
    simpl; repeat split; reflexivity.
Qed.

End ReleaseFacts.

(* ===================================================================== *)
(** * Properties of the criteria normaliser                                *)
(* ===================================================================== *)

Module CriteriaFacts.

Import Num JS Eff Criteria Lib Samples.
Local Open Scope string_scope.
Local Open Scope eff_scope.

Lemma heap_set_same [h : heap] [l : loc] [c : cell] :
  nth_error h l = Some c -> heap_set l c h = h.
Proof.
  revert l. induction h as [|x h IH]; intros [|l] H; simpl in *;
    try discriminate; try reflexivity.
  - injection H as ->. reflexivity.
  - rewrite IH; auto.
Qed.

(** [{ limit: 10 }] at 0, and the object [{ where: null, limit: 10 }]
    to compare with at 1. *)
Definition limit_heap : heap :=
  [ CObj [("limit", VNum (of_Z 10))];
    CObj [("where", VNull); ("limit", VNum (of_Z 10))] ].

(** C7 as stated fails: the mapping [{ limit: 10 }] does not normalise
    to [{ where: null, limit: 10 }].  The result is not deeply equal to
    it, and its [where] field reads [undefined], not [null]. *)
Lemma normalize_limit_is_not_where_null :
  let r := run (normalizeCriteria (VRef 0)) (world_of limit_heap) in
  fst r = Ok (VRef 0)
  /\ eq_values 3 (w_heap (snd r)) (VRef 0) (VRef 1) = false
  /\ get (w_heap (snd r)) (VRef 0) "where" <> Some VNull.
Proof.
  vm_compute. repeat split; try reflexivity. discriminate.
Qed.

Lemma getp_obj [w : world] [l : loc] [ps : props] (k : string) :
  nth_error (w_heap w) l = Some (CObj ps) ->
  getp (VRef l) k w =
    (Ok (match assoc k ps with Some x => x | None => VUndefined end), w).
Proof.
  intros H. unfold getp, bind, read_heap. cbn [get]. rewrite H. reflexivity.
Qed.

Lemma set_heap_same (w : world) : set_heap (w_heap w) w = w.
Proof. destruct w; reflexivity. Qed.

Lemma strip_undefined_obj [w : world] [l : loc] [ps : props] :
  nth_error (w_heap w) l = Some (CObj ps) ->
  stripped ps = ps ->
  endless ps = false ->
  strip_undefined (VRef l) w = (Ok tt, w).
Proof.
  intros H D E. unfold strip_undefined, bind, read_heap, write_heap.
  rewrite H, D, E, (heap_set_same H), set_heap_same. reflexivity.
Qed.

Lemma to_number_obj [w : world] [l : loc] [ps : props] :
  nth_error (w_heap w) l = Some (CObj ps) ->
  to_number (VRef l) w = (Ok NaN, w).
Proof.
  intros H. unfold to_number, bind, read_heap, ret.
  cbn [ToNumber text_number]. rewrite H. reflexivity.
Qed.

(** C7, as the code has it.  [normalizeCriteria] applied to the mapping
    [{ limit: 10 }] returns that very object, unchanged: it is not
    wrapped in a [where] clause, and it has no [where] field (reading it
    gives [undefined]). *)
Theorem normalize_limit_unchanged (w : world) (l : loc) :
  nth_error (w_heap w) l = Some (CObj [("limit", VNum (of_Z 10))]) ->
  run (normalizeCriteria (VRef l)) w = (Ok (VRef l), w)
  /\ get (w_heap w) (VRef l) "where" = Some VUndefined.
Proof.
  intros H. split.
  - unfold run, normalizeCriteria.
    cbn [truthy negb].
    unfold bind at 1. rewrite (strip_undefined_obj H eq_refl eq_refl).
    unfold bind at 1. rewrite (to_number_obj H).
    cbn [isFinite isString orb andb].
    unfold bind at 1. unfold ret at 1.
    cbn [isObject negb].
    unfold bind at 1. rewrite (getp_obj "where" H).
    unfold bind at 1. rewrite (getp_obj "limit" H).
    unfold bind at 1. rewrite (getp_obj "skip" H).
    unfold bind at 1. rewrite (getp_obj "offset" H).
    unfold bind at 1. rewrite (getp_obj "order" H).
    cbn [assoc String.eqb Ascii.eqb Bool.eqb].
    replace (truthy (VNum (of_Z 10))) with true by reflexivity.
    cbn [truthy negb andb].
    unfold bind at 1. unfold ret at 1.
    unfold bind at 1. rewrite (getp_obj "where" H).
    unfold bind at 1. unfold read_heap at 1.
    cbn [assoc String.eqb Ascii.eqb Bool.eqb own_props keys map for_each].
    unfold bind at 1. unfold ret at 1.
    unfold bind at 1. unfold normalize_sort.
    unfold bind at 1. rewrite (getp_obj "sort" H).
    cbn [assoc String.eqb Ascii.eqb Bool.eqb truthy]. reflexivity.
  - cbn [get]. rewrite H. reflexivity.
Qed.

Lemma normalize_limit_unchanged_witness :
  nth_error (w_heap (world_of [CObj [("limit", VNum (of_Z 10))]])) 0
    = Some (CObj [("limit", VNum (of_Z 10))])
  /\ run (normalizeCriteria (VRef 0))
         (world_of [CObj [("limit", VNum (of_Z 10))]])
     = (Ok (VRef 0), world_of [CObj [("limit", VNum (of_Z 10))]]).
Proof.
  split; [reflexivity|].
  apply (normalize_limit_unchanged
           (world_of [CObj [("limit", VNum (of_Z 10))]]) 0).
  reflexivity.
Defined.

(** C4 at [null].  The normal form of [null] is [{ where: null }];
    normalising that wraps it once more, into
    [{ where: { where: null } }], which is a different criterion. *)
Theorem normalize_null_twice :
  let once := run (normalizeCriteria VNull) (world_of []) in
  let twice :=
    run (c <- normalizeCriteria VNull ;; normalizeCriteria c) (world_of []) in
  fst once = Ok (VRef 0)
  /\ w_heap (snd once) = [CObj [("where", VNull)]]
  /\ fst twice = Ok (VRef 1)
  /\ w_heap (snd twice) = [CObj [("where", VNull)]; CObj [("where", VRef 0)]]
  /\ eq_values 3 (w_heap (snd twice)) (VRef 1) (VRef 0) = false.
Proof.
  vm_compute. repeat split; reflexivity.
Qed.

(** [{ where: { a: "Infinity", b: "1e-200", c: "7" } }]. *)
Definition where_heap : heap :=
  [ CObj [("where", VRef 1)];
    CObj [("a", VStr "Infinity"); ("b", VStr "1e-200"); ("c", VStr "7")] ].

(** C8 at ["Infinity"] and ["1e-200"].  The text ["Infinity"] does not
    read as a finite number, yet it is replaced, by the number
    [Infinity]; the text ["1e-200"] reads as a finite number that is not
    zero, yet it is left as it is, because its square rounds to zero.
    (The text ["7"] is replaced by the number 7.) *)
Theorem normalize_where_infinity_and_tiny :
  let r := run (normalizeCriteria (VRef 0)) (world_of where_heap) in
  fst r = Ok (VRef 0)
  /\ w_heap (snd r) =
       [ CObj [("where", VRef 1)];
         CObj [("a", VNum Infinity); ("b", VStr "1e-200");
               ("c", VNum (of_Z 7))] ]
  /\ is_finite (ToNumber where_heap (VStr "Infinity")) = false
  /\ is_finite (ToNumber where_heap (VStr "1e-200")) = true
  /\ is_zero (ToNumber where_heap (VStr "1e-200")) = false.
Proof.
  vm_compute. repeat split; reflexivity.
Qed.

(** The other shapes of criteria. *)
Example normalize_numeric_string :
  let r := run (normalizeCriteria (VStr "42")) (world_of []) in
  fst r = Ok (VRef 1)
  /\ w_heap (snd r)
     = [CObj [("id", VNum (of_Z 42))]; CObj [("where", VRef 0)]].
Proof. vm_compute. split; reflexivity. Qed.

Example normalize_plain_mapping :
  let r := run (normalizeCriteria (VRef 0))
               (world_of [CObj [("name", VStr "a"); ("x", VUndefined)]]) in
  fst r = Ok (VRef 1)
  /\ w_heap (snd r)
     = [CObj [("name", VStr "a")]; CObj [("where", VRef 0)]].
Proof. vm_compute. split; reflexivity. Qed.

Example normalize_invalid :
  fst (run (normalizeCriteria (VStr "abc")) (world_of []))
    = Ok (VStr "Invalid options/criteria :: abc")
  /\ fst (run (normalizeCriteria (VNum (of_decimal true 15 (-1))))
              (world_of []))
     = Ok (VStr "Invalid options/criteria :: -1.5").
Proof. vm_compute. split; reflexivity. Qed.

Example normalize_sort_text :
  let r := run (normalizeCriteria (VRef 0))
               (world_of [CObj [("limit", VNum (of_Z 10));
                                ("sort", VStr "name DESC")]]) in
  fst r = Ok (VRef 0)
  /\ w_heap (snd r)
     = [CObj [("limit", VNum (of_Z 10)); ("sort", VRef 1)];
        CObj [("name", VNum (of_Z (-1)))]].
Proof. vm_compute. split; reflexivity. Qed.

End CriteriaFacts.

Module NumFacts.

Import Num.
Local Open Scope Z_scope.

Lemma digits2_pos_size (p : positive) : digits2_pos p = Pos.size p.
Proof. induction p; simpl; congruence. Qed.

Lemma digits2_pos_shift (p : positive) (k : positive) :
  digits2_pos (Pos.iter xO p k) = (digits2_pos p + k)%positive.
Proof.
  induction k using Pos.peano_ind.
  - simpl. lia.
  - rewrite Pos.iter_succ. simpl. rewrite IHk. lia.
Qed.

(** An integer of fewer than 53 bits is represented exactly, with the
    exponent that its bit length dictates. *)
Lemma of_Z_exact (p : positive) :
  Zpos (digits2_pos p) < 53 ->
  of_Z (Zpos p) =
    S754_finite false
      (Pos.iter xO p (Z.to_pos (53 - Zpos (digits2_pos p))))
      (Zpos (digits2_pos p) - 53).
Proof.
  intros Hd.
  unfold of_Z, binary_normalize, binary_round, prec, emax.
  assert (Hf : fexp 53 1024 (Zpos (digits2_pos p) + 0) = Zpos (digits2_pos p) - 53).
  { unfold fexp, emin. lia. }
  rewrite Hf.
  unfold shl_align.
  destruct (Zpos (digits2_pos p) - 53 - 0) as [|q|q] eqn:E; try lia.
  assert (Hq : q = Z.to_pos (53 - Zpos (digits2_pos p))) by lia.
  rewrite <- Hq.
  unfold binary_round_aux, shr_fexp.
  assert (Hdig : Zdigits2 (Zpos (Pos.iter xO p q)) = 53).
  { simpl. rewrite digits2_pos_shift. lia. }
  rewrite Hdig.
  assert (Hf2 : fexp 53 1024 (53 + (Zpos (digits2_pos p) - 53))
                - (Zpos (digits2_pos p) - 53) = 0).
  { unfold fexp, emin. lia. }
  rewrite Hf2.
  cbn [shr shr_record_of_loc shr_m loc_of_shr_record round_nearest_even].
  rewrite Hdig, Hf2.
  cbn [shr shr_record_of_loc shr_m].
  replace (Zpos (digits2_pos p) - 53 <=? 1024 - 53) with true
    by (symmetry; apply Z.leb_le; lia).
  reflexivity.
Qed.

Lemma of_Z_above_one (n : Z) :
  2 <= n < 2 ^ 32 ->
  ltb (of_Z n) (of_Z 1) = false /\ gtb (of_Z n) (of_Z 1) = true.
Proof.
  intros [Hlo Hhi].
  destruct n as [|p|p]; try lia.
  assert (Hs : Zpos (Pos.size p) <= 32).
  { destruct (Z.le_gt_cases (Zpos (Pos.size p)) 32) as [|Hgt]; auto.
    pose proof (Pos.size_le p) as Hle.
    assert (2 ^ 33 <= Zpos (2 ^ Pos.size p)).
    { rewrite Pos2Z.inj_pow. apply Z.pow_le_mono_r; lia. }
    lia. }
  assert (H2 : 2 <= Zpos (digits2_pos p)).
  { destruct p; simpl; lia. }
  rewrite of_Z_exact by (rewrite digits2_pos_size; lia).
  change (of_Z 1) with (S754_finite false 4503599627370496 (-52)).
  unfold ltb, gtb, SFltb, SFcompare.
  destruct (Z.compare_spec (Zpos (digits2_pos p) - 53) (-52)); try lia.
  destruct (Z.compare_spec (-52) (Zpos (digits2_pos p) - 53)); try lia.
Qed.

(** Reading and printing numbers, on a few texts. *)
Example read_tenth :
  StringToNumber "0.1" = S754_finite false 7205759403792794 (-56).
Proof. reflexivity. Qed.

Example read_hex : StringToNumber " 0x1F " = of_Z 31.
Proof. reflexivity. Qed.

Example read_not_a_number :
  StringToNumber "abc" = NaN /\ StringToNumber "1e" = NaN
  /\ StringToNumber "." = NaN /\ StringToNumber "" = zero.
Proof. repeat split; reflexivity. Qed.

Example read_beyond_range :
  StringToNumber "1e400" = Infinity /\ StringToNumber "2e-324" = zero
  /\ StringToNumber "9007199254740993" = of_Z 9007199254740992.
Proof. repeat split; reflexivity. Qed.

Example print_numbers :
  NumberToString (StringToNumber "0.1") = "0.1"%string
  /\ NumberToString (mul (StringToNumber "0.1") (of_Z 3))
     = "0.30000000000000004"%string
  /\ NumberToString (StringToNumber "1e21") = "1e+21"%string
  /\ NumberToString (StringToNumber "123456789012345680000")
     = "123456789012345680000"%string
  /\ NumberToString (StringToNumber "0.0000015") = "0.0000015"%string
  /\ NumberToString (StringToNumber "1e-7") = "1e-7"%string
  /\ NumberToString (StringToNumber "-1.5") = "-1.5"%string
  /\ NumberToString (StringToNumber "5e-324") = "5e-324"%string.
Proof. vm_compute. repeat split; reflexivity. Qed.

End NumFacts.

(* ===================================================================== *)
(** * Properties of the facade                                             *)
(* ===================================================================== *)

Module FacadeFacts.

Import Num JS Eff Criteria Lib Facade Samples NumFacts.
Local Open Scope string_scope.
Local Open Scope eff_scope.

(** ** Heap updates *)

Lemma nth_error_heap_set [h : heap] [l : loc] [c : cell] (c' : cell) :
  nth_error h l = Some c -> nth_error (heap_set l c' h) l = Some c'.
Proof.
  revert l. induction h as [|x h IH]; intros [|l] H; simpl in *;
    try discriminate; auto.
Qed.

Lemma heap_set_twice (h : heap) (l : loc) (c1 c2 : cell) :
  heap_set l c2 (heap_set l c1 h) = heap_set l c2 h.
Proof.
  revert l. induction h as [|x h IH]; intros [|l]; simpl; auto.
  rewrite IH. reflexivity.
Qed.

Lemma assoc_put_same (k : string) (v x : value) (ps : props) :
  assoc k ps = Some x -> assoc k (assoc_put k v ps) = Some v.
Proof.
  induction ps as [|[k' v'] ps IH]; simpl; [discriminate|].
  destruct (String.eqb k k') eqn:E; simpl; rewrite E; auto.
Qed.

Lemma assoc_put_other (k k' : string) (v : value) (ps : props) :
  k <> k' -> assoc k (assoc_put k' v ps) = assoc k ps.
Proof.
  intros Hne. induction ps as [|[k2 v2] ps IH]; simpl; [reflexivity|].
  destruct (String.eqb k' k2) eqn:E; simpl.
  - destruct (String.eqb k k2) eqn:E2; auto.
    apply String.eqb_eq in E, E2. congruence.
  - destruct (String.eqb k k2); auto.
Qed.

Lemma assoc_place_same (i : N) (k : string) (v : value) (ps : props) :
  assoc k ps = None -> assoc k (place i k v ps) = Some v.
Proof.
  induction ps as [|[k' v'] ps IH]; simpl; intros H.
  - rewrite String.eqb_refl. reflexivity.
  - destruct (String.eqb k k') eqn:E; [discriminate|].
    destruct (element_index k') as [j|];
      [destruct (j <? i)%N|]; simpl;
      rewrite ?E, ?String.eqb_refl; auto.
Qed.

Lemma assoc_place_other (i : N) (k k' : string) (v : value)
      (ps : props) :
  k <> k' -> assoc k (place i k' v ps) = assoc k ps.
Proof.
  intros Hne. apply String.eqb_neq in Hne.
  induction ps as [|[k2 v2] ps IH]; simpl.
  - rewrite Hne. reflexivity.
  - destruct (element_index k2) as [j|];
      [destruct (j <? i)%N|]; simpl; rewrite ?Hne; try reflexivity.
    rewrite IH. reflexivity.
Qed.

Lemma assoc_last_same (k : string) (v : value) (ps : props) :
  assoc k ps = None -> assoc k (ps ++ [(k, v)])%list = Some v.
Proof.
  induction ps as [|[k' v'] ps IH]; simpl; intros H.
  - rewrite String.eqb_refl. reflexivity.
  - destruct (String.eqb k k'); [discriminate|auto].
Qed.

Lemma assoc_last_other (k k' : string) (v : value) (ps : props) :
  k <> k' -> assoc k (ps ++ [(k', v)])%list = assoc k ps.
Proof.
  intros Hne. apply String.eqb_neq in Hne.
  induction ps as [|[k2 v2] ps IH]; simpl.
  - rewrite Hne. reflexivity.
  - destruct (String.eqb k k2); auto.
Qed.

Lemma assoc_set_same (k : string) (v : value) (ps : props) :
  assoc k (assoc_set k v ps) = Some v.
Proof.
  unfold assoc_set. destruct (assoc k ps) as [x|] eqn:E.
  - eapply assoc_put_same. exact E.
  - destruct (element_index k) as [i|].
    + apply assoc_place_same. exact E.
    + apply assoc_last_same. exact E.
Qed.

Lemma assoc_set_other (k k' : string) (v : value) (ps : props) :
  k <> k' -> assoc k (assoc_set k' v ps) = assoc k ps.
Proof.
  intros Hne. unfold assoc_set. destruct (assoc k' ps) as [x|].
  - apply assoc_put_other. exact Hne.
  - destruct (element_index k') as [i|].
    + apply assoc_place_other. exact Hne.
    + apply assoc_last_other. exact Hne.
Qed.

Lemma setp_obj [w : world] [l : loc] [ps : props] (k : string) (x : value) :
  nth_error (w_heap w) l = Some (CObj ps) ->
  setp (VRef l) k x w =
    (Ok tt, set_heap (heap_set l (CObj (assoc_set k x ps)) (w_heap w)) w).
Proof.
  intros H. unfold setp, bind, read_heap, write_heap. cbn [set].
  rewrite H. reflexivity.
Qed.

(** ** [create] *)

(** The properties of the caller's object once [create] has stamped
    it, and the number of clock readings that took. *)
Definition stamped (cfg : config) (clock : nat -> number) (tick : nat)
           (ps : props) : props * nat :=
  let '(ps1, t1) :=
    if truthy (createdAt cfg)
    then (assoc_set "createdAt" (VDate (clock tick)) ps, S tick)
    else (ps, tick) in
  if truthy (updatedAt cfg)
  then (assoc_set "updatedAt" (VDate (clock t1)) ps1, S t1)
  else (ps1, t1).

(** C9.  [create] writes the timestamps that the configuration enables
    into the object the caller passed, in place, and then hands that same
    reference to the adapter: the adapter, and the caller through its own
    reference, see [createdAt] and [updatedAt] on that object, each
    holding the clock reading taken for it. *)
Theorem create_stamps_in_place
        (A : adapter) (f : string -> value -> callback -> M unit)
        (collectionName : string) (l : loc) (ps : props) (cb : callback)
        (w : world) :
  a_create A = Some f ->
  nth_error (w_heap w) l = Some (CObj ps) ->
  let ps' := fst (stamped (a_config A) (w_clock w) (w_tick w) ps) in
  let w' := World (heap_set l (CObj ps') (w_heap w)) (w_clock w)
                  (snd (stamped (a_config A) (w_clock w) (w_tick w) ps))
                  (w_log w) (w_frames w) in
  create A collectionName (VRef l) cb w = f collectionName (VRef l) cb w'
  /\ nth_error (w_heap w') l = Some (CObj ps')
  /\ (truthy (createdAt (a_config A)) = true ->
      get (w_heap w') (VRef l) "createdAt"
        = Some (VDate (w_clock w (w_tick w))))
  /\ (truthy (updatedAt (a_config A)) = true ->
      get (w_heap w') (VRef l) "updatedAt"
        = Some (VDate (w_clock w (if truthy (createdAt (a_config A))
                                  then S (w_tick w) else w_tick w)))).
Proof.
  intros Hf Hl ps' w'. subst ps' w'.
  destruct w as [h clock tick lg frames].
  cbn [w_heap w_clock w_tick w_log w_frames] in *.
  unfold create, stamp, stamped. rewrite Hf.
  destruct (truthy (createdAt (a_config A))) eqn:Ec;
    destruct (truthy (updatedAt (a_config A))) eqn:Eu;
    cbn [fst snd].
  - unfold bind at 1. unfold bind at 1. unfold new_Date at 1.
    cbn [w_heap w_clock w_tick w_log w_frames].
    rewrite (setp_obj (w := World h clock (S tick) lg frames) _ _ Hl).
    unfold bind at 1. unfold bind at 1. unfold new_Date at 1.
    cbn [set_heap w_heap w_clock w_tick w_log w_frames].
    rewrite (setp_obj (w := World _ clock (S (S tick)) lg frames) _ _
                      (nth_error_heap_set _ Hl)).
    cbn [set_heap w_heap w_clock w_tick w_log w_frames].
    rewrite heap_set_twice.
    rewrite (nth_error_heap_set _ Hl).
    repeat split.
    + intros _. cbn [get]. rewrite (nth_error_heap_set _ Hl).
      rewrite assoc_set_other by discriminate.
      rewrite assoc_set_same. reflexivity.
    + intros _. cbn [get]. rewrite (nth_error_heap_set _ Hl).
      rewrite assoc_set_same. reflexivity.
  - unfold bind at 1. unfold bind at 1. unfold new_Date at 1.
    cbn [w_heap w_clock w_tick w_log w_frames].
    rewrite (setp_obj (w := World h clock (S tick) lg frames) _ _ Hl).
    unfold bind at 1. unfold ret at 1.
    cbn [set_heap w_heap w_clock w_tick w_log w_frames].
    rewrite (nth_error_heap_set _ Hl).
    repeat split.
    + intros _. cbn [get]. rewrite (nth_error_heap_set _ Hl).
      rewrite assoc_set_same. reflexivity.
    + discriminate.
  - unfold bind at 1. unfold ret at 1.
    unfold bind at 1. unfold bind at 1. unfold new_Date at 1.
    cbn [w_heap w_clock w_tick w_log w_frames].
    rewrite (setp_obj (w := World h clock (S tick) lg frames) _ _ Hl).
    cbn [set_heap w_heap w_clock w_tick w_log w_frames].
    rewrite (nth_error_heap_set _ Hl).
    repeat split.
    + discriminate.
    + intros _. cbn [get]. rewrite (nth_error_heap_set _ Hl).
      rewrite assoc_set_same. reflexivity.
  - unfold bind at 1. unfold ret at 1.
    unfold bind at 1. unfold ret at 1.
    rewrite (CriteriaFacts.heap_set_same Hl). rewrite Hl.
    repeat split; discriminate.
Qed.

Lemma create_stamps_in_place_witness :
  let A := store_adapter (Config (VBool true) (VBool true) VUndefined) 0 in
  let w := world_of [CObj [("name", VStr "x")]] in
  nth_error (w_heap w) 0 = Some (CObj [("name", VStr "x")])
  /\ exists f w',
       a_create A = Some f
       /\ create A "user" (VRef 0) user_cb w = f "user" (VRef 0) user_cb w'
       /\ get (w_heap w') (VRef 0) "createdAt" = Some (VDate (of_Z 1000)).
Proof.
  intros A w. split; [reflexivity|].
  destruct (create_stamps_in_place A "user" 0 user_cb w
              (f := fun name values k =>
                      emit (EvAdapter "create" [VStr name; values]) ;;
                      k [VNull; values])
              (ps := [("name", VStr "x")]) eq_refl eq_refl)
    as (Hrun & _ & Hc & _).
  eexists; eexists. split; [reflexivity|]. split; [exact Hrun|].
  exact (Hc eq_refl).
Defined.

(** ** [find] *)

Lemma getp_length [w : world] [l : loc] [items : list value] [ps : props] :
  nth_error (w_heap w) l = Some (CArr items ps) ->
  getp (VRef l) "length" w
    = (Ok (VNum (of_Z (Z.of_nat (List.length items)))), w).
Proof.
  intros H. unfold getp, bind, read_heap. cbn [get]. rewrite H.
  reflexivity.
Qed.

Lemma getp_first [w : world] [l : loc] [items : list value] [ps : props] :
  nth_error (w_heap w) l = Some (CArr items ps) ->
  getp (VRef l) "0" w = (Ok (nth 0 items VUndefined), w).
Proof.
  intros H. unfold getp, bind, read_heap. cbn [get]. rewrite H.
  reflexivity.
Qed.

(** What [find] passes to its callback for the given matches. *)
Definition find_answer (collectionName : string) (items : list value)
  : list value :=
  match items with
  | [] => []
  | [m] => [VNull; m]
  | _ => [VStr ("More than one " ++ collectionName ++ " returned!")]
  end.

(** C5.  When the [findAll] that [find] starts succeeds, that is, calls
    back with [(null, models)] for an array of matches (an array has
    fewer than 2^32 elements), [find] invokes its callback once: with no
    value when nothing matched, with [(null, record)] when exactly one
    record matched, and with the error "More than one <name> returned!"
    when several matched; it never hands back one record out of many. *)
Theorem find_cardinality
        (A : adapter) (collectionName : string) (criteria : value)
        (w w2 : world) (lm : loc) (items : list value) (ps : props) :
  (forall k : callback,
      (c <- firstIfNone criteria ;; findAll A collectionName c k) w
      = k [VNull; VRef lm] w2) ->
  nth_error (w_heap w2) lm = Some (CArr items ps) ->
  (Z.of_nat (List.length items) < 2 ^ 32)%Z ->
  find A collectionName criteria user_cb w
    = user_cb (find_answer collectionName items) w2
  /\ callback_count (snd (find A collectionName criteria user_cb w))
     = S (callback_count w2).
Proof.
  intros Hall Hm Hlen.
  assert (E : find A collectionName criteria user_cb w
              = user_cb (find_answer collectionName items) w2).
  { unfold find. rewrite Hall.
    unfold afterFindAll. cbn [arg nth].
    unfold bind at 1. rewrite (getp_length Hm).
    unfold bind at 1. unfold to_number at 1, bind at 1, read_heap at 1, ret at 1.
    cbn [ToNumber].
    destruct items as [|m [|m' rest]].
    - reflexivity.
    - cbn [List.length Z.of_nat Pos.of_succ_nat].
      replace (ltb (of_Z 1) (of_Z 1)) with false by reflexivity.
      unfold bind at 1. rewrite (getp_length Hm).
      unfold bind at 1. unfold to_number at 1, bind at 1, read_heap at 1, ret at 1.
      cbn [ToNumber List.length Z.of_nat Pos.of_succ_nat].
      replace (gtb (of_Z 1) (of_Z 1)) with false by reflexivity.
      unfold bind at 1. rewrite (getp_first Hm). reflexivity.
    - assert (H2 : (2 <= Z.of_nat (List.length (m :: m' :: rest)) < 2 ^ 32)%Z).
      { split; [|exact Hlen]. cbn [List.length]. lia. }
      destruct (of_Z_above_one H2) as [Hlt Hgt].
      rewrite Hlt.
      unfold bind at 1. rewrite (getp_length Hm).
      unfold bind at 1. unfold to_number at 1, bind at 1, read_heap at 1, ret at 1.
      cbn [ToNumber]. rewrite Hgt. reflexivity. }
  split; [exact E|].
  rewrite E. unfold user_cb, emit, callback_count. cbn [snd w_log].
  rewrite filter_app, length_app. cbn. lia.
Qed.

Lemma find_cardinality_witness :
  let A := store_adapter no_config 0 in
  let w := world_of [CArr [VRef 1; VRef 1] []; CObj []] in
  let w2 :=
    World [CArr [VRef 1; VRef 1] []; CObj [];
           CObj [("limit", VNum (of_Z 1))]]
          (w_clock w) 0 [EvAdapter "find" [VStr "user"; VRef 2]] [] in
  nth_error (w_heap w2) 0 = Some (CArr [VRef 1; VRef 1] [])
  /\ find A "user" VNull user_cb w
     = user_cb [VStr "More than one user returned!"] w2.
Proof.
  intros A w w2. split; [reflexivity|].
  refine (proj1 (find_cardinality A "user" VNull w (w2 := w2)
                   (lm := 0) (items := [VRef 1; VRef 1]) (ps := [])
                   _ _ _)).
  - intros k. reflexivity.
  - reflexivity.
  - reflexivity.
Defined.

(** ** [alter] *)

(** C3 at the example of the specification.  With current attributes
    [{ a: string, b: int }] and target attributes [{ a: string, c: bool }]
    the adapter is asked to add [c], and then to add [b] once more with
    its old definition, before it is asked to remove [b]: the removed
    attribute counts as changed, since it differs from the [undefined]
    that the target holds for it.  [addAttribute] is called twice. *)
Theorem alter_adds_removed_attribute_again :
  let r := run (alter (column_adapter 0) "user" (VRef 1) user_cb)
               (world_of schema_heap) in
  fst r = Ok tt
  /\ w_log (snd r) =
       [ EvAdapter "addAttribute" [VStr "user"; VStr "c"; VStr "bool"];
         EvAdapter "addAttribute" [VStr "user"; VStr "b"; VStr "int"];
         EvAdapter "removeAttribute" [VStr "user"; VStr "b"; VStr "int"];
         EvCallback [VNull] ].
Proof.
  vm_compute. split; reflexivity.
Qed.

(** ** Errors that never reach the callback *)

(** C2 where the adapter reports an error.  [find] ignores the error
    and reads the length of the models it did not get: it throws and its
    callback is never invoked.  [alter] calls a [done] that does not
    exist when [describe] fails, and rethrows when [addAttribute] fails:
    its callback is never invoked either. *)
Theorem adapter_errors_never_reach_callback :
  let found := run (find (find_fails (VStr "boom")) "user"
                         (VNum (of_Z 1)) user_cb) (world_of []) in
  let described := run (alter (describe_fails (VStr "boom")) "user"
                              (VRef 1) user_cb) (world_of schema_heap) in
  let added := run (alter (add_fails 0 (VStr "boom")) "user"
                          (VRef 1) user_cb) (world_of schema_heap) in
  (fst found = Throw (TypeError "Cannot read property 'length'")
   /\ callback_count (snd found) = 0)
  /\ (fst described = Throw (ReferenceError "done")
      /\ callback_count (snd described) = 0)
  /\ (fst added = Throw (Thrown (VStr "boom"))
      /\ callback_count (snd added) = 0).
Proof.
  vm_compute. repeat split; reflexivity.
Qed.

End FacadeFacts.

(* ===================================================================== *)
(** * Mutual exclusion of two transactions of the same name                *)
(* ===================================================================== *)

Module MutexFacts.

Import JS Locks Loop LocksFacts.
Local Open Scope Z_scope.

(** ** Counting *)

Definition count {A : Type} (f : A -> bool) (l : list A) : nat :=
  List.length (filter f l).

Lemma count_app {A} (f : A -> bool) (l1 l2 : list A) :
  count f (l1 ++ l2) = (count f l1 + count f l2)%nat.
Proof. unfold count. rewrite filter_app, length_app. reflexivity. Qed.

Lemma count_cons {A} (f : A -> bool) (x : A) (l : list A) :
  count f (x :: l) = ((if f x then 1 else 0) + count f l)%nat.
Proof. unfold count. simpl. destruct (f x); reflexivity. Qed.

Lemma count_mid {A} (f : A -> bool) (x : A) (l1 l2 : list A) :
  count f (l1 ++ x :: l2)
  = ((if f x then 1 else 0) + count f (l1 ++ l2))%nat.
Proof. rewrite !count_app, count_cons. lia. Qed.

Lemma count_single {A} (f : A -> bool) (x : A) :
  count f [x] = if f x then 1%nat else 0%nat.
Proof. unfold count. simpl. destruct (f x); reflexivity. Qed.

Lemma count_nil {A} (f : A -> bool) : count f [] = 0%nat.
Proof. reflexivity. Qed.

Lemma count_none {A} (f : A -> bool) (l : list A) :
  (forall x, In x l -> f x = false) -> count f l = 0%nat.
Proof.
  induction l as [|x l IH]; intros H; [reflexivity|].
  rewrite count_cons, (H x (or_introl eq_refl)), IH; auto.
  intros y Hy. apply H. right. exact Hy.
Qed.

Lemma count_in {A} (f : A -> bool) (x : A) (l : list A) :
  In x l -> f x = true -> (1 <= count f l)%nat.
Proof.
  induction l as [|y l IH]; intros [] Hf.
  - subst. rewrite count_cons, Hf. lia.
  - rewrite count_cons. specialize (IH H Hf). lia.
Qed.

Lemma in_mid {A} (x y : A) (l1 l2 : list A) :
  In x (l1 ++ y :: l2) <-> x = y \/ In x (l1 ++ l2).
Proof.
  rewrite !in_app_iff. simpl. intuition congruence.
Qed.

Lemma in_snoc {A} (x y : A) (l : list A) :
  In x (l ++ [y]) <-> In x l \/ x = y.
Proof. rewrite in_app_iff. simpl. intuition congruence. Qed.

(** ** Equality of locks *)

Definition lock_eq_dec (a b : lock) : {a = b} + {a <> b}.
Proof.
  decide equality.
  - decide equality. apply Nat.eq_dec.
  - apply Nat.eq_dec.
  - apply string_dec.
  - apply string_dec.
  - apply Z.eq_dec.
Defined.

Definition lock_eqb (a b : lock) : bool :=
  if lock_eq_dec a b then true else false.

Lemma lock_eqb_eq (a b : lock) : lock_eqb a b = true <-> a = b.
Proof. unfold lock_eqb. destruct (lock_eq_dec a b); intuition congruence. Qed.

Lemma lock_eqb_refl (a : lock) : lock_eqb a a = true.
Proof. apply lock_eqb_eq. reflexivity. Qed.

Lemma lock_eqb_neq (a b : lock) : a <> b -> lock_eqb a b = false.
Proof. unfold lock_eqb. destruct (lock_eq_dec a b); intuition congruence. Qed.

(** ** What a list of actions adds to the state *)

Definition issued (acts : list action) : list (request * waiting) :=
  flat_map (fun a => match a with Issue r k => [(r, k)] | _ => [] end) acts.

Definition entered (acts : list action) : list lock :=
  flat_map (fun a => match a with
                     | CallAtomicLogic _ _ (Unlock l) => [l]
                     | _ => []
                     end) acts.

(** The locks that the collection has created so far. *)
Definition created_in (t : list event) : list lock :=
  flat_map (fun e => match e with
                     | Served _ (Created _ (Some l)) => [l]
                     | _ => []
                     end) t.

Lemma created_in_app (t1 t2 : list event) :
  created_in (t1 ++ t2) = created_in t1 ++ created_in t2.
Proof. unfold created_in. apply flat_map_app. Qed.

Lemma perform_spec (acts : list action) (s : state) :
  coll (perform acts s) = coll s
  /\ calls (perform acts s) = calls s
  /\ pending (perform acts s) = pending s ++ issued acts
  /\ ready (perform acts s) = ready s
  /\ held (perform acts s) = held s ++ entered acts
  /\ created_in (trace (perform acts s)) = created_in (trace s).
Proof.
  revert s. induction acts as [|a acts IH]; intros s.
  - simpl. rewrite !app_nil_r. repeat split; reflexivity.
  - change (perform (a :: acts) s) with (perform acts (perform1 a s)).
    destruct (IH (perform1 a s)) as (H1 & H2 & H3 & H4 & H5 & H6).
    rewrite H1, H2, H3, H4, H5, H6.
    destruct a as [r k|l|l|f e [l|e']|g args]; simpl;
      rewrite ?created_in_app, ?app_nil_r, <- ?app_assoc;
      repeat split; reflexivity.
Qed.


Lemma findConflict_some (ls : list lock) (l e : lock) :
  In e ls -> name e = name l -> uuid e <> uuid l -> id e < id l ->
  findConflict ls l <> None.
Proof.
  unfold findConflict. intros Hin Hn Hu Hid.
  assert (Hkeep : forall ls acc, acc <> None ->
                    fold_left (eachLock l) ls acc <> None).
  { induction ls0 as [|x xs IH]; intros acc Hacc; simpl; auto.
    apply IH. unfold eachLock.
    destruct (_ && _ && _); [discriminate|exact Hacc]. }
  assert (Hall : forall acc, fold_left (eachLock l) ls acc <> None).
  { induction ls as [|x xs IH]; intros acc; [destruct Hin|].
    destruct Hin as [Hx|Hx]; simpl.
    - subst x. apply Hkeep. unfold eachLock.
      apply String.eqb_eq in Hn. apply String.eqb_neq in Hu.
      apply Z.ltb_lt in Hid. rewrite Hn, Hu, Hid. discriminate.
    - apply IH. exact Hx. }
  apply Hall.
Qed.

Lemma getNextLock_some (ls : list lock) (cur n : lock) :
  getNextLock ls cur = Some n ->
  In n ls /\ name n = name cur /\ uuid n <> uuid cur.
Proof.
  intros H. pose proof (getNextLock_chosen ls cur) as C.
  rewrite H in C. destruct C as (Hin & (Hn & Hu) & _). auto.
Qed.

(** ** The invariant *)

Section TwoCalls.

Variable c0 : collection.
Variables cA cB : call.
Hypothesis same_name : c_name cA = c_name cB.
Hypothesis other_uuid : c_uuid cA <> c_uuid cB.
Hypothesis name_free : forall e, In e (entries c0) -> name e <> c_name cA.

Definition known (u : string) : Prop := u = c_uuid cA \/ u = c_uuid cB.

(** Every operation in flight carries the callback of its own kind. *)
Definition paired (it : request * waiting) : Prop :=
  match it with
  | (Create u n _ _, afterCreatingTransaction _) => n = c_name cA /\ known u
  | (FindAll, afterLookingUpTransactions _ _) => True
  | (FindAll, afterLookingUpForRelease _ _) => True
  | (Destroy u, afterLockReleased cur _ _) => u = uuid cur
  | _ => False
  end.

Definition typed (it : reply * waiting) : Prop :=
  match it with
  | (Created e ol, afterCreatingTransaction _) =>
      truthy e = false -> ol <> None
  | (Found _ _, afterLookingUpTransactions _ _) => True
  | (Found _ _, afterLookingUpForRelease _ _) => True
  | (Destroyed _, afterLockReleased _ _ _) => True
  | _ => False
  end.

(** The locks a waiting callback has captured. *)
Definition mentions (k : waiting) : list lock :=
  match k with
  | afterCreatingTransaction _ => []
  | afterLookingUpTransactions _ l => [l]
  | afterLookingUpForRelease l _ => [l]
  | afterLockReleased l _ None => [l]
  | afterLockReleased l _ (Some n) => [l; n]
  end.

Definition kont_ok (k : waiting) : Prop :=
  match k with
  | afterLockReleased cur _ (Some n) => uuid n <> uuid cur
  | _ => True
  end.

(** The locks of the transaction name that a reply carries. *)
Definition reply_mentions (rp : reply) : list lock :=
  match rp with
  | Created _ (Some l) => [l]
  | Found _ ls => filter (fun x => String.eqb (name x) (c_name cA)) ls
  | _ => []
  end.

Definition ok_pending (cr : list lock) (it : request * waiting) : Prop :=
  paired it /\ kont_ok (snd it) /\ incl (mentions (snd it)) cr.

Definition ok_ready (cr : list lock) (it : reply * waiting) : Prop :=
  typed it /\ kont_ok (snd it) /\ incl (mentions (snd it)) cr
  /\ incl (reply_mentions (fst it)) cr.

Definition is_create (u : string) (it : request * waiting) : bool :=
  match fst it with
  | Create u' _ _ _ => String.eqb u' u
  | _ => false
  end.

Definition is_call (u : string) (c : call) : bool := String.eqb (c_uuid c) u.

(** Calls of the identifier [u] that have not reached the collection. *)
Definition upcoming (u : string) (s : state) : nat :=
  (count (is_call u) (calls s) + count (is_create u) (pending s))%nat.

Definition Cr (s : state) : list lock := created_in (trace s).

Record Genuine (s : state) : Prop := {
  g_calls : forall c, In c (calls s) ->
                      c_name c = c_name cA /\ known (c_uuid c);
  g_once : forall u, (upcoming u s <= 1)%nat;
  g_fresh : forall l, In l (Cr s) -> upcoming (uuid l) s = 0%nat;
  g_cr : forall l, In l (Cr s) ->
                   name l = c_name cA /\ known (uuid l)
                   /\ id l < next_id (coll s);
  g_uuid : forall l1 l2, In l1 (Cr s) -> In l2 (Cr s) ->
                         uuid l1 = uuid l2 -> l1 = l2;
  g_id : forall l1 l2, In l1 (Cr s) -> In l2 (Cr s) ->
                       id l1 = id l2 -> l1 = l2;
  g_store : forall e, In e (entries (coll s)) ->
                      name e = c_name cA -> In e (Cr s);
  g_pending : forall it, In it (pending s) -> ok_pending (Cr s) it;
  g_ready : forall it, In it (ready s) -> ok_ready (Cr s) it;
  g_held : forall l, In l (held s) -> In l (Cr s)
}.

Lemma only_two (s : state) (l1 l2 : lock) :
  Genuine s -> In l1 (Cr s) -> In l2 (Cr s) -> uuid l1 <> uuid l2 ->
  forall l, In l (Cr s) -> l = l1 \/ l = l2.
Proof.
  intros G H1 H2 Hne l Hl.
  destruct (g_cr G _ H1) as (_ & K1 & _).
  destruct (g_cr G _ H2) as (_ & K2 & _).
  destruct (g_cr G _ Hl) as (_ & K & _).
  unfold known in *.
  destruct K as [K|K], K1 as [K1|K1], K2 as [K2|K2];
    try (left; apply (g_uuid G); auto; congruence);
    try (right; apply (g_uuid G); auto; congruence);
    congruence.
Qed.

Lemma initial_genuine : Genuine (initial c0 [cA; cB]).
Proof.
  split; simpl; try (intros; contradiction).
  - intros c [<-|[<-|[]]]; unfold known; auto.
  - intros u. unfold upcoming, is_call. simpl. rewrite !count_cons.
    unfold count. simpl.
    destruct (String.eqb (c_uuid cA) u) eqn:EA;
      destruct (String.eqb (c_uuid cB) u) eqn:EB; try lia.
    apply String.eqb_eq in EA, EB. congruence.
  - intros e He Hn. apply name_free in He. contradiction.
Qed.


(** ** The invariant is kept: origin of locks *)

Lemma ok_pending_mono (cr cr' : list lock) (it : request * waiting) :
  incl cr cr' -> ok_pending cr it -> ok_pending cr' it.
Proof.
  intros Hi (H1 & H2 & H3). repeat split; auto.
  eapply incl_tran; eauto.
Qed.

Lemma ok_ready_mono (cr cr' : list lock) (it : reply * waiting) :
  incl cr cr' -> ok_ready cr it -> ok_ready cr' it.
Proof.
  intros Hi (H1 & H2 & H3 & H4). repeat split; auto;
    eapply incl_tran; eauto.
Qed.

(** What a callback issues and whom it lets in is well formed. *)
Lemma resume_ok (cr : list lock) (rp : reply) (k : waiting) :
  (forall l, In l cr -> name l = c_name cA) ->
  ok_ready cr (rp, k) ->
  (forall it, In it (issued (resume k rp)) ->
              ok_pending cr it /\ forall u, is_create u it = false)
  /\ incl (entered (resume k rp)) cr.
Proof.
  intros Hname (Ht & Hk & Hm & Hr). simpl in *.
  destruct k as [f|f l|cur args|cur args next]; simpl.
  - (* afterCreatingTransaction *)
    destruct (truthy (reply_err rp)) eqn:E; simpl.
    + split; [intros it []|intros l []].
    + destruct rp as [e [l|]|e ls|e]; simpl;
        try (split; [intros it []|intros l []]).
      split; [|intros x []].
      intros it [<-|[]]. split; [|reflexivity].
      repeat split; simpl; auto.
  - (* afterLookingUpTransactions *)
    destruct (truthy (reply_err rp)) eqn:E; simpl.
    + split; [intros it []|intros x []].
    + destruct (findConflict (reply_locks rp) l); simpl.
      * split; [intros it []|intros x []].
      * split; [intros it []|]. intros x [<-|[]]. apply Hm. left. reflexivity.
  - (* afterLookingUpForRelease *)
    destruct (truthy (reply_err rp)) eqn:E; simpl.
    + destruct (afterUnlock cur); simpl; split;
        try (intros it []); intros x [].
    + split; [|intros x []].
      intros it [<-|[]]. split; [|reflexivity].
      assert (Hcur : In cur cr) by (apply Hm; left; reflexivity).
      destruct (getNextLock (reply_locks rp) cur) as [n|] eqn:En.
      * apply getNextLock_some in En. destruct En as (Hin & Hn & Hu).
        repeat split; simpl; auto.
        intros x [<-|[<-|[]]]; auto.
        apply Hr. destruct rp as [e ol|e ls|e]; simpl in *; try contradiction.
        apply filter_In. split; auto.
        apply String.eqb_eq. rewrite Hn. apply Hname. exact Hcur.
      * repeat split; simpl; auto.
  - (* afterLockReleased *)
    destruct (truthy (reply_err rp)) eqn:E; simpl.
    + destruct (afterUnlock cur); simpl; split;
        try (intros it []); intros x [].
    + assert (Hi : issued (call_if_given (afterUnlock cur) args) = []
                   /\ entered (call_if_given (afterUnlock cur) args) = []).
      { destruct (afterUnlock cur); split; reflexivity. }
      unfold issued, entered in *. rewrite !flat_map_app.
      destruct Hi as [-> ->]. simpl.
      destruct next as [n|]; simpl; (split; [intros it Hit; destruct Hit|]);
        intros x Hx; simpl in Hx.
      * destruct Hx as [<-|Hx]; [|destruct Hx].
        apply Hm. right. left. reflexivity.
      * destruct Hx.
Qed.


Lemma Cr_log (s : state) (e : event) :
  (forall r l err, e <> Served r (Created err (Some l))) ->
  created_in (trace s ++ [e]) = Cr s.
Proof.
  intros H. rewrite created_in_app. unfold Cr. simpl.
  destruct e as [c|r [err [l|]|err ls|err]|a|l args]; simpl;
    rewrite ?app_nil_r; auto.
  exfalso. eapply H. reflexivity.
Qed.

Lemma genuine_call (s : state) (c : call) (cs1 cs2 : list call) :
  Genuine s ->
  calls s = cs1 ++ c :: cs2 ->
  Genuine
    (perform (transaction (c_uuid c) (c_name c) (c_atomicLogic c)
                          (c_afterUnlock c))
       (State (coll s) (cs1 ++ cs2) (pending s) (ready s) (held s)
              (trace s ++ [Called c]))).
Proof.
  intros G Hc. cbn [perform transaction fold_left perform1].
  cbn [coll calls pending ready held trace].
  set (s' := State _ _ _ _ _ _).
  assert (Et : Cr s' = Cr s).
  { unfold Cr, s'; cbn [trace]. apply Cr_log. discriminate. }
  assert (Hup : forall u, upcoming u s' = upcoming u s).
  { intros u. unfold upcoming, s'. cbn [calls pending]. rewrite Hc.
    rewrite count_mid, !count_app, count_cons.
    change (is_create u (Create (c_uuid c) (c_name c) (c_atomicLogic c)
                                (c_afterUnlock c),
                         afterCreatingTransaction (c_atomicLogic c)))
      with (is_call u c).
    change (count (is_create u) []) with 0%nat. lia. }
  split; rewrite ?Et, ?Hup; unfold s'; cbn [coll calls pending ready held].
  - intros c' Hc'. apply (g_calls G). rewrite Hc.
    apply in_mid. right. exact Hc'.
  - intros u. rewrite Hup. apply (g_once G).
  - intros l Hl. rewrite Hup. apply (g_fresh G). exact Hl.
  - apply (g_cr G).
  - apply (g_uuid G).
  - apply (g_id G).
  - apply (g_store G).
  - intros it Hit. apply in_snoc in Hit. destruct Hit as [Hit| ->].
    + apply (g_pending G). exact Hit.
    + assert (Hin : In c (calls s)).
      { rewrite Hc. apply in_mid. left. reflexivity. }
      destruct (g_calls G _ Hin) as [Hn Hk].
      repeat split; simpl; auto. intros x [].
  - apply (g_ready G).
  - apply (g_held G).
Qed.


Lemma upcoming_taken (s s' : state) (it : request * waiting)
      (p1 p2 : list (request * waiting)) (u : string) :
  pending s = p1 ++ it :: p2 ->
  calls s' = calls s -> pending s' = p1 ++ p2 ->
  (upcoming u s' + (if is_create u it then 1 else 0) = upcoming u s)%nat.
Proof.
  intros Hp Hc Hp'. unfold upcoming. rewrite Hc, Hp', Hp, count_mid. lia.
Qed.

Lemma in_rest {A} (x y : A) (l1 l2 : list A) :
  In x (l1 ++ l2) -> In x (l1 ++ y :: l2).
Proof. intros H. apply in_mid. right. exact H. Qed.

Lemma genuine_serve (s : state) (r : request) (k : waiting)
      (p1 p2 : list (request * waiting)) :
  Genuine s ->
  pending s = p1 ++ (r, k) :: p2 ->
  Genuine
    (State (snd (serve r (coll s))) (calls s) (p1 ++ p2)
           (ready s ++ [(fst (serve r (coll s)), k)]) (held s)
           (trace s ++ [Served r (fst (serve r (coll s)))])).
Proof.
  intros G Hp.
  assert (Hin : In (r, k) (pending s)).
  { rewrite Hp. apply in_mid. left. reflexivity. }
  destruct (g_pending G _ Hin) as (Hpair & Hk & Hm).
  set (s' := State _ _ _ _ _ _).
  assert (Hup : forall u,
             (upcoming u s' + (if is_create u (r, k) then 1 else 0)
              = upcoming u s)%nat).
  { intros u. apply (upcoming_taken s s' _ _ _ u Hp); reflexivity. }
  assert (Hrest : forall it, In it (pending s') -> In it (pending s)).
  { intros it Hit. rewrite Hp. apply in_rest. exact Hit. }
  destruct r as [u n f g| |u]; destruct k as [f'|f' l|cur args|cur args next];
    simpl in Hpair; try contradiction.
  - (* create *)
    destruct Hpair as [Hn Hknown].
    set (l := Lock (next_id (coll s)) u n f g) in *.
    assert (Et : Cr s' = Cr s ++ [l]).
    { unfold Cr, s'; cbn [trace]. rewrite created_in_app. reflexivity. }
    assert (Hold : forall x, In x (Cr s) -> uuid x <> u).
    { intros x Hx Hu. pose proof (g_fresh G _ Hx) as F.
      unfold upcoming in F.
      pose proof (count_in (is_create (uuid x)) _ _ Hin) as C.
      unfold is_create in C at 1. simpl in C.
      rewrite Hu, String.eqb_refl in C. specialize (C eq_refl).
      rewrite Hu in F. lia. }
    split; rewrite ?Et.
    + apply (g_calls G).
    + intros u'. specialize (Hup u'). pose proof (g_once G u'). lia.
    + intros x Hx. apply in_snoc in Hx. destruct Hx as [Hx| ->].
      * specialize (Hup (uuid x)). pose proof (g_fresh G _ Hx). lia.
      * specialize (Hup u). pose proof (g_once G u).
        unfold is_create in Hup at 1. simpl in Hup.
        rewrite String.eqb_refl in Hup. simpl. lia.
    + intros x Hx. apply in_snoc in Hx. unfold s'; cbn [coll next_id snd serve].
      destruct Hx as [Hx| ->].
      * destruct (g_cr G _ Hx) as (H1 & H2 & H3). repeat split; auto. lia.
      * simpl. repeat split; auto. lia.
    + intros x y Hx Hy Hu. apply in_snoc in Hx, Hy.
      destruct Hx as [Hx| ->], Hy as [Hy| ->]; auto.
      * apply (g_uuid G); auto.
      * exfalso. apply (Hold x Hx). exact Hu.
      * exfalso. apply (Hold y Hy). symmetry. exact Hu.
    + intros x y Hx Hy Hi. apply in_snoc in Hx, Hy.
      destruct Hx as [Hx| ->], Hy as [Hy| ->]; auto.
      * apply (g_id G); auto.
      * exfalso. destruct (g_cr G _ Hx) as (_ & _ & H3). simpl in Hi. lia.
      * exfalso. destruct (g_cr G _ Hy) as (_ & _ & H3). simpl in Hi. lia.
    + unfold s'; cbn [coll entries snd serve]. intros e He Hne.
      apply in_snoc in He. apply in_snoc. destruct He as [He| ->]; auto.
      left. apply (g_store G); auto.
    + intros it Hit. apply ok_pending_mono with (cr := Cr s).
      * apply incl_appl, incl_refl.
      * apply (g_pending G). apply Hrest. exact Hit.
    + unfold s'; cbn [ready]. intros it Hit. apply in_snoc in Hit.
      destruct Hit as [Hit| ->].
      * apply ok_ready_mono with (cr := Cr s).
        -- apply incl_appl, incl_refl.
        -- apply (g_ready G). exact Hit.
      * repeat split; simpl; try discriminate.
        -- intros x [].
        -- intros x [<-|[]]. apply in_snoc. right. reflexivity.
    + intros x Hx. apply in_snoc. left. apply (g_held G). exact Hx.
  - (* findAll, for the scan of [transaction] *)
    assert (Et : Cr s' = Cr s).
    { unfold Cr, s'; cbn [trace]. apply Cr_log. discriminate. }
    split; rewrite ?Et.
    + apply (g_calls G).
    + intros u'. specialize (Hup u'). pose proof (g_once G u'). lia.
    + intros x Hx. specialize (Hup (uuid x)). pose proof (g_fresh G _ Hx). lia.
    + apply (g_cr G).
    + apply (g_uuid G).
    + apply (g_id G).
    + apply (g_store G).
    + intros it Hit. apply (g_pending G). apply Hrest. exact Hit.
    + unfold s'; cbn [ready fst serve]. intros it Hit.
      apply in_snoc in Hit. destruct Hit as [Hit| ->].
      * apply (g_ready G). exact Hit.
      * repeat split; simpl; auto.
        intros x Hx. apply filter_In in Hx. destruct Hx as [Hx Hnx].
        apply (g_store G); auto. apply String.eqb_eq. exact Hnx.
    + apply (g_held G).
  - (* findAll, for the release *)
    assert (Et : Cr s' = Cr s).
    { unfold Cr, s'; cbn [trace]. apply Cr_log. discriminate. }
    split; rewrite ?Et.
    + apply (g_calls G).
    + intros u'. specialize (Hup u'). pose proof (g_once G u'). lia.
    + intros x Hx. specialize (Hup (uuid x)). pose proof (g_fresh G _ Hx). lia.
    + apply (g_cr G).
    + apply (g_uuid G).
    + apply (g_id G).
    + apply (g_store G).
    + intros it Hit. apply (g_pending G). apply Hrest. exact Hit.
    + unfold s'; cbn [ready fst serve]. intros it Hit.
      apply in_snoc in Hit. destruct Hit as [Hit| ->].
      * apply (g_ready G). exact Hit.
      * repeat split; simpl; auto.
        intros x Hx. apply filter_In in Hx. destruct Hx as [Hx Hnx].
        apply (g_store G); auto. apply String.eqb_eq. exact Hnx.
    + apply (g_held G).
  - (* destroy *)
    assert (Et : Cr s' = Cr s).
    { unfold Cr, s'; cbn [trace]. apply Cr_log. discriminate. }
    split; rewrite ?Et.
    + apply (g_calls G).
    + intros u'. specialize (Hup u'). pose proof (g_once G u'). lia.
    + intros x Hx. specialize (Hup (uuid x)). pose proof (g_fresh G _ Hx). lia.
    + apply (g_cr G).
    + apply (g_uuid G).
    + apply (g_id G).
    + unfold s'; cbn [coll snd serve entries]. intros e He.
      apply filter_In in He. apply (g_store G). apply He.
    + intros it Hit. apply (g_pending G). apply Hrest. exact Hit.
    + unfold s'; cbn [ready fst serve]. intros it Hit.
      apply in_snoc in Hit. destruct Hit as [Hit| ->].
      * apply (g_ready G). exact Hit.
      * repeat split; simpl; auto. intros x [].
    + apply (g_held G).
Qed.


Lemma genuine_refuse (s : state) (r : request) (k : waiting)
      (p1 p2 : list (request * waiting)) (err : value) :
  Genuine s ->
  pending s = p1 ++ (r, k) :: p2 ->
  truthy err = true ->
  Genuine
    (State (coll s) (calls s) (p1 ++ p2)
           (ready s ++ [(refuse r err, k)]) (held s)
           (trace s ++ [Served r (refuse r err)])).
Proof.
  intros G Hp He.
  assert (Hin : In (r, k) (pending s)).
  { rewrite Hp. apply in_mid. left. reflexivity. }
  destruct (g_pending G _ Hin) as (Hpair & Hk & Hm).
  set (s' := State _ _ _ _ _ _).
  assert (Hup : forall u,
             (upcoming u s' + (if is_create u (r, k) then 1 else 0)
              = upcoming u s)%nat).
  { intros u. apply (upcoming_taken s s' _ _ _ u Hp); reflexivity. }
  assert (Et : Cr s' = Cr s).
  { unfold Cr, s'; cbn [trace]. apply Cr_log.
    destruct r; discriminate. }
  split; rewrite ?Et.
  - apply (g_calls G).
  - intros u'. specialize (Hup u'). pose proof (g_once G u'). lia.
  - intros x Hx. specialize (Hup (uuid x)). pose proof (g_fresh G _ Hx). lia.
  - apply (g_cr G).
  - apply (g_uuid G).
  - apply (g_id G).
  - apply (g_store G).
  - intros it Hit. apply (g_pending G). rewrite Hp. apply in_rest. exact Hit.
  - unfold s'; cbn [ready]. intros it Hit.
    apply in_snoc in Hit. destruct Hit as [Hit| ->].
    + apply (g_ready G). exact Hit.
    + destruct r as [u n f g| |u];
        destruct k as [f'|f' l|cur args|cur args next];
        simpl in Hpair; try contradiction;
        repeat split; simpl; auto; try (intros x []).
      congruence.
  - apply (g_held G).
Qed.

Lemma genuine_resume (s : state) (rp : reply) (k : waiting)
      (r1 r2 : list (reply * waiting)) :
  Genuine s ->
  ready s = r1 ++ (rp, k) :: r2 ->
  Genuine
    (perform (resume k rp)
       (State (coll s) (calls s) (pending s) (r1 ++ r2) (held s) (trace s))).
Proof.
  intros G Hr.
  assert (Hin : In (rp, k) (ready s)).
  { rewrite Hr. apply in_mid. left. reflexivity. }
  assert (Hname : forall l, In l (Cr s) -> name l = c_name cA).
  { intros l Hl. apply (g_cr G _ Hl). }
  destruct (resume_ok Hname (g_ready G _ Hin)) as [Hiss Hent].
  match goal with |- Genuine (perform ?a ?s1) =>
    destruct (perform_spec a s1) as (Ec & Ecalls & Ep & Er & Eh & Et);
    set (s' := perform a s1) in *
  end.
  cbn [coll calls pending ready held trace] in Ec, Ecalls, Ep, Er, Eh, Et.
  fold (Cr s') in Et. fold (Cr s) in Et.
  assert (Hup : forall u, upcoming u s' = upcoming u s).
  { intros u. unfold upcoming. rewrite Ecalls, Ep, count_app.
    rewrite (count_none (is_create u) (issued (resume k rp))); [lia|].
    intros it Hit. apply Hiss. exact Hit. }
  split; rewrite ?Et, ?Ec, ?Ecalls, ?Ep, ?Er, ?Eh.
  - apply (g_calls G).
  - intros u. rewrite Hup. apply (g_once G).
  - intros l Hl. rewrite Hup. apply (g_fresh G). exact Hl.
  - apply (g_cr G).
  - apply (g_uuid G).
  - apply (g_id G).
  - apply (g_store G).
  - intros it Hit. apply in_app_iff in Hit. destruct Hit as [Hit|Hit].
    + apply (g_pending G). exact Hit.
    + apply Hiss. exact Hit.
  - intros it Hit. apply (g_ready G). rewrite Hr. apply in_rest. exact Hit.
  - intros l Hl. apply in_app_iff in Hl. destruct Hl as [Hl|Hl].
    + apply (g_held G). exact Hl.
    + apply Hent. exact Hl.
Qed.

Lemma genuine_unlock (s : state) (l : lock) (args : list value)
      (h1 h2 : list lock) :
  Genuine s ->
  held s = h1 ++ l :: h2 ->
  Genuine
    (perform (unlock l args)
       (State (coll s) (calls s) (pending s) (ready s) (h1 ++ h2)
              (trace s ++ [Unlocked l args]))).
Proof.
  intros G Hh.
  unfold perform, unlock, releaseLock, log. simpl.
  set (s' := State _ _ _ _ _ _).
  assert (Et : Cr s' = Cr s).
  { unfold Cr, s'; cbn [trace]. rewrite created_in_app.
    rewrite Cr_log by discriminate. simpl. apply app_nil_r. }
  assert (Hup : forall u, upcoming u s' = upcoming u s).
  { intros u. unfold upcoming, s'. cbn [calls pending].
    rewrite count_app, count_cons. simpl.
    change (count (is_create u) []) with 0%nat. lia. }
  assert (Hl : In l (held s)).
  { rewrite Hh. apply in_mid. left. reflexivity. }
  split; rewrite ?Et.
  - apply (g_calls G).
  - intros u. rewrite Hup. apply (g_once G).
  - intros x Hx. rewrite Hup. apply (g_fresh G). exact Hx.
  - apply (g_cr G).
  - apply (g_uuid G).
  - apply (g_id G).
  - apply (g_store G).
  - unfold s'; cbn [pending]. intros it Hit.
    apply in_snoc in Hit. destruct Hit as [Hit| ->].
    + apply (g_pending G). exact Hit.
    + repeat split; simpl; auto.
      intros x [<-|[]]. apply (g_held G). exact Hl.
  - apply (g_ready G).
  - unfold s'; cbn [held]. intros x Hx. apply (g_held G).
    rewrite Hh. apply in_rest. exact Hx.
Qed.

Lemma genuine_step (s s' : state) : Genuine s -> step s s' -> Genuine s'.
Proof.
  intros G St. destruct St.
  - apply genuine_call; assumption.
  - apply genuine_serve; assumption.
  - apply genuine_refuse; assumption.
  - apply genuine_resume; assumption.
  - apply genuine_unlock; assumption.
Qed.


(** ** The invariant: who may enter *)

Definition is_lock (a : lock) (l : lock) : bool := lock_eqb l a.

(** The callbacks in flight that continue the own course of the lock
    [a]: from its creation to its scan, its critical section, its release
    scan and the deletion of its entry. *)
Definition own_pending (a : lock) (it : request * waiting) : bool :=
  match snd it with
  | afterCreatingTransaction _ => false
  | afterLookingUpTransactions _ l => lock_eqb l a
  | afterLookingUpForRelease l _ => lock_eqb l a
  | afterLockReleased l _ _ => lock_eqb l a
  end.

Definition own_ready (a : lock) (it : reply * waiting) : bool :=
  match snd it with
  | afterCreatingTransaction _ =>
      match fst it with
      | Created _ (Some l) => lock_eqb l a
      | _ => false
      end
  | afterLookingUpTransactions _ l => lock_eqb l a
  | afterLookingUpForRelease l _ => lock_eqb l a
  | afterLockReleased _ _ _ => false
  end.

Definition live (a : lock) (s : state) : nat :=
  (count (own_pending a) (pending s) + count (own_ready a) (ready s)
   + count (is_lock a) (held s))%nat.

(** The lock [b] is inside its critical section or bound to get in or
    about to release. *)
Definition Active (b : lock) (s : state) : Prop :=
  (exists e ls f,
      In (Found e ls, afterLookingUpTransactions f b) (ready s)
      /\ truthy e = false /\ findConflict ls b = None)
  \/ In b (held s)
  \/ (exists r args, In (r, afterLookingUpForRelease b args) (pending s))
  \/ (exists e cur args,
         In (Destroyed e, afterLockReleased cur args (Some b)) (ready s)
         /\ truthy e = false).

(** The oldest lock of the name. *)
Definition low (a : lock) (s : state) : Prop :=
  In a (Cr s) /\ forall b, In b (Cr s) -> id a <= id b.

Record Flow (s : state) : Prop := {
  f_one : forall a, low a s -> (live a s <= 1)%nat;
  f_store : forall a, low a s -> (1 <= live a s)%nat ->
                      In a (entries (coll s));
  f_promo_p : forall a, low a s -> forall r cur args,
        ~ In (r, afterLockReleased cur args (Some a)) (pending s);
  f_promo_r : forall a, low a s -> forall rp cur args,
        ~ In (rp, afterLockReleased cur args (Some a)) (ready s);
  f_scan : forall a, low a s -> forall e ls cur args,
        In (Found e ls, afterLookingUpForRelease cur args) (ready s) ->
        In a ls -> uuid cur = uuid a;
  f_high : forall a b, In a (Cr s) -> In b (Cr s) -> id a < id b ->
                       Active b s -> ~ In a (entries (coll s))
}.

Arguments f_one [s] _ a _.
Arguments f_store [s] _ a _ _.
Arguments f_promo_p [s] _ a _ r cur args _.
Arguments f_promo_r [s] _ a _ rp cur args _.
Arguments f_scan [s] _ a _ e ls cur args _ _.
Arguments f_high [s] _ a b _ _ _ _ _.

Lemma initial_flow : Flow (initial c0 [cA; cB]).
Proof.
  split; unfold low, Cr; simpl; intros; intuition.
Qed.

Lemma own_pending_mentions (a : lock) (it : request * waiting) :
  own_pending a it = true -> In a (mentions (snd it)).
Proof.
  unfold own_pending. destruct (snd it) as [f|f l|l args|l args [n|]];
    simpl; try discriminate; intros H; apply lock_eqb_eq in H; auto.
Qed.

Lemma own_ready_mentions (a : lock) (it : reply * waiting) :
  own_ready a it = true ->
  In a (mentions (snd it)) \/ In a (reply_mentions (fst it)).
Proof.
  unfold own_ready. destruct (snd it) as [f|f l|l args|l args [n|]];
    simpl; try discriminate.
  - destruct (fst it) as [e [l|]|e ls|e]; try discriminate.
    intros H; apply lock_eqb_eq in H. right. simpl. auto.
  - intros H; apply lock_eqb_eq in H; auto.
  - intros H; apply lock_eqb_eq in H; auto.
Qed.

Lemma live_uncreated (s : state) (a : lock) :
  Genuine s -> ~ In a (Cr s) -> live a s = 0%nat.
Proof.
  intros G Ha. unfold live.
  rewrite (count_none (own_pending a)), (count_none (own_ready a)),
    (count_none (is_lock a)); auto.
  - intros x Hx. destruct (is_lock a x) eqn:E; auto.
    apply lock_eqb_eq in E. subst x. exfalso. apply Ha.
    apply (g_held G). exact Hx.
  - intros it Hit. destruct (own_ready a it) eqn:E; auto.
    exfalso. apply Ha. destruct (g_ready G _ Hit) as (_ & _ & Hm & Hr).
    apply own_ready_mentions in E. destruct E; auto.
  - intros it Hit. destruct (own_pending a it) eqn:E; auto.
    exfalso. apply Ha. destruct (g_pending G _ Hit) as (_ & _ & Hm).
    apply own_pending_mentions in E. auto.
Qed.

Lemma active_created (s : state) (b : lock) :
  Genuine s -> Active b s -> In b (Cr s).
Proof.
  intros G [(e & ls & f & Hin & _)|[Hin|[(r & args & Hin)|
                                         (e & cur & args & Hin & _)]]].
  - destruct (g_ready G _ Hin) as (_ & _ & Hm & _). apply Hm. left. auto.
  - apply (g_held G). exact Hin.
  - destruct (g_pending G _ Hin) as (_ & _ & Hm). apply Hm. left. auto.
  - destruct (g_ready G _ Hin) as (_ & _ & Hm & _).
    apply Hm. right. left. auto.
Qed.

(** A step that creates no lock and leaves the entries alone. *)
Lemma flow_keep (s s' : state) :
  Genuine s -> Flow s ->
  Cr s' = Cr s -> entries (coll s') = entries (coll s) ->
  (forall a, low a s -> (live a s' <= live a s)%nat) ->
  (forall a, low a s -> forall r cur args,
        ~ In (r, afterLockReleased cur args (Some a)) (pending s')) ->
  (forall a, low a s -> forall rp cur args,
        ~ In (rp, afterLockReleased cur args (Some a)) (ready s')) ->
  (forall a, low a s -> forall e ls cur args,
        In (Found e ls, afterLookingUpForRelease cur args) (ready s') ->
        In a ls -> uuid cur = uuid a) ->
  (forall a b, In a (Cr s) -> In b (Cr s) -> id a < id b ->
               Active b s' ->
               Active b s \/ ~ In a (entries (coll s))) ->
  Flow s'.
Proof.
  intros G F Et Ee Hlive Hpp Hpr Hscan Hact.
  assert (Hlow : forall a, low a s' -> low a s).
  { intros a. unfold low. rewrite Et. auto. }
  split.
  - intros a La. apply Hlow in La. pose proof (f_one F a La).
    specialize (Hlive a La). lia.
  - intros a La Hl. apply Hlow in La. rewrite Ee.
    apply (f_store F a La). specialize (Hlive a La). lia.
  - intros a La. apply Hpp. auto.
  - intros a La. apply Hpr. auto.
  - intros a La. apply Hscan. auto.
  - intros a b Ha Hb Hid Hab. rewrite Et in Ha, Hb. rewrite Ee.
    destruct (Hact a b Ha Hb Hid Hab) as [H|H]; auto.
    apply (f_high F a b Ha Hb Hid H).
Qed.


(** [Active] only looks at the replies, at the holders and at the release
    scans that are pending. *)
Lemma active_back (s s' : state) (b : lock) :
  (forall it, In it (ready s') -> In it (ready s)) ->
  (forall l, In l (held s') -> In l (held s)) ->
  (forall r args, In (r, afterLookingUpForRelease b args) (pending s') ->
                  In (r, afterLookingUpForRelease b args) (pending s)) ->
  Active b s' -> Active b s.
Proof.
  intros Hr Hh Hp [(e & ls & f & Hin & H)|[Hin|[(r & args & Hin)|
                                         (e & cur & args & Hin & H)]]].
  - left. exists e, ls, f. auto.
  - right. left. auto.
  - right. right. left. exists r, args. auto.
  - right. right. right. exists e, cur, args. auto.
Qed.

Lemma flow_call (s : state) (c : call) (cs1 cs2 : list call) :
  Genuine s -> Flow s ->
  calls s = cs1 ++ c :: cs2 ->
  Flow
    (perform (transaction (c_uuid c) (c_name c) (c_atomicLogic c)
                          (c_afterUnlock c))
       (State (coll s) (cs1 ++ cs2) (pending s) (ready s) (held s)
              (trace s ++ [Called c]))).
Proof.
  intros G F Hc. cbn [perform transaction fold_left perform1].
  cbn [coll calls pending ready held trace].
  set (s' := State _ _ _ _ _ _).
  assert (Et : Cr s' = Cr s).
  { unfold Cr, s'; cbn [trace]. apply Cr_log. discriminate. }
  apply (flow_keep G F Et eq_refl).
  - intros a _. unfold live, s'. cbn [pending ready held].
    rewrite (count_app (own_pending a)), (count_cons (own_pending a)).
    change (count (own_pending a) []) with 0%nat. simpl. lia.
  - intros a La r cur args Hin. unfold s' in Hin. cbn [pending] in Hin.
    apply in_snoc in Hin. destruct Hin as [Hin|Hin]; [|discriminate].
    apply (f_promo_p F a La _ _ _ Hin).
  - intros a La. apply (f_promo_r F a La).
  - intros a La. apply (f_scan F a La).
  - intros a b Ha Hb Hid Hab. left. revert Hab. apply active_back; auto.
    intros r args Hin. unfold s' in Hin. cbn [pending] in Hin.
    apply in_snoc in Hin. destruct Hin as [Hin|Hin]; [auto|discriminate].
Qed.

Lemma flow_unlock (s : state) (l : lock) (args : list value)
      (h1 h2 : list lock) :
  Genuine s -> Flow s ->
  held s = h1 ++ l :: h2 ->
  Flow
    (perform (unlock l args)
       (State (coll s) (calls s) (pending s) (ready s) (h1 ++ h2)
              (trace s ++ [Unlocked l args]))).
Proof.
  intros G F Hh.
  unfold perform, unlock, releaseLock, log. simpl.
  set (s' := State _ _ _ _ _ _).
  assert (Et : Cr s' = Cr s).
  { unfold Cr, s'; cbn [trace]. rewrite created_in_app.
    rewrite Cr_log by discriminate. simpl. apply app_nil_r. }
  assert (Hl : In l (held s)).
  { rewrite Hh. apply in_mid. left. reflexivity. }
  apply (flow_keep G F Et eq_refl).
  - intros a _. unfold live, s'. cbn [pending ready held].
    rewrite Hh, (count_mid (is_lock a)), (count_app (own_pending a)).
    rewrite (count_app (is_lock a)), (count_cons (own_pending a)).
    change (own_pending a (FindAll, afterLookingUpForRelease l args))
      with (is_lock a l).
    change (count (own_pending a) []) with 0%nat. lia.
  - intros a La r cur args' Hin. unfold s' in Hin. cbn [pending] in Hin.
    apply in_snoc in Hin. destruct Hin as [Hin|Hin]; [|discriminate].
    apply (f_promo_p F a La _ _ _ Hin).
  - intros a La. apply (f_promo_r F a La).
  - intros a La. apply (f_scan F a La).
  - intros a b Ha Hb Hid Hab. left.
    destruct Hab as [H|[Hin|[(r & args' & Hin)|H]]].
    + left. exact H.
    + right. left. rewrite Hh. apply in_rest. exact Hin.
    + unfold s' in Hin. cbn [pending] in Hin. apply in_snoc in Hin.
      destruct Hin as [Hin|Hin].
      * right. right. left. exists r, args'. exact Hin.
      * injection Hin as _ <- _. right. left. exact Hl.
    + right. right. right. exact H.
Qed.


Lemma refuse_err (r : request) (err : value) :
  reply_err (refuse r err) = err.
Proof. destruct r; reflexivity. Qed.

Lemma flow_refuse (s : state) (r : request) (k : waiting)
      (p1 p2 : list (request * waiting)) (err : value) :
  Genuine s -> Flow s ->
  pending s = p1 ++ (r, k) :: p2 ->
  truthy err = true ->
  Flow
    (State (coll s) (calls s) (p1 ++ p2)
           (ready s ++ [(refuse r err, k)]) (held s)
           (trace s ++ [Served r (refuse r err)])).
Proof.
  intros G F Hp He.
  assert (Hin : In (r, k) (pending s)).
  { rewrite Hp. apply in_mid. left. reflexivity. }
  destruct (g_pending G _ Hin) as (Hpair & Hk & Hm).
  set (s' := State _ _ _ _ _ _).
  assert (Et : Cr s' = Cr s).
  { unfold Cr, s'; cbn [trace]. apply Cr_log. destruct r; discriminate. }
  apply (flow_keep G F Et eq_refl).
  - intros a _. unfold live, s'. cbn [pending ready held].
    rewrite Hp, (count_mid (own_pending a)), (count_app (own_ready a)),
      (count_cons (own_ready a)).
    change (count (own_ready a) []) with 0%nat.
    assert (Hle : ((if own_ready a (refuse r err, k) then 1 else 0)
                   <= (if own_pending a (r, k) then 1 else 0))%nat).
    { destruct r as [u n f g| |u];
        destruct k as [f'|f' l|cur args|cur args next];
        simpl in Hpair; try contradiction;
        unfold own_ready, own_pending; simpl;
        try destruct (lock_eqb _ a); lia. }
    lia.
  - intros a La r' cur args Hin'. unfold s' in Hin'. cbn [pending] in Hin'.
    apply (f_promo_p F a La r' cur args). rewrite Hp. apply in_rest.
    exact Hin'.
  - intros a La rp cur args Hin'. unfold s' in Hin'. cbn [ready] in Hin'.
    apply in_snoc in Hin'. destruct Hin' as [Hin'|Hin'].
    + apply (f_promo_r F a La _ _ _ Hin').
    + injection Hin' as _ <-. apply (f_promo_p F a La _ _ _ Hin).
  - intros a La e ls cur args Hin' Ha. unfold s' in Hin'. cbn [ready] in Hin'.
    apply in_snoc in Hin'. destruct Hin' as [Hin'|Hin'].
    + apply (f_scan F a La _ _ _ _ Hin' Ha).
    + injection Hin' as Hr _. destruct r; try discriminate.
      injection Hr as _ Hls. rewrite Hls in Ha. destruct Ha.
  - intros a b Ha Hb Hid Hab. left.
    destruct Hab as [(e & ls & f & Hin' & Hf & Hc)|[Hin'|[(r' & args & Hin')|
                                         (e & cur & args & Hin' & Hf)]]].
    + unfold s' in Hin'. cbn [ready] in Hin'. apply in_snoc in Hin'.
      destruct Hin' as [Hin'|Hin'].
      * left. exists e, ls, f. auto.
      * injection Hin' as Hr _. exfalso.
        pose proof (refuse_err r err) as R. rewrite <- Hr in R. simpl in R.
        congruence.
    + right. left. exact Hin'.
    + right. right. left. exists r', args. rewrite Hp. apply in_rest.
      exact Hin'.
    + unfold s' in Hin'. cbn [ready] in Hin'. apply in_snoc in Hin'.
      destruct Hin' as [Hin'|Hin'].
      * right. right. right. exists e, cur, args. auto.
      * injection Hin' as Hr _. exfalso.
        pose proof (refuse_err r err) as R. rewrite <- Hr in R. simpl in R.
        congruence.
Qed.


(** What a callback issues, and whom it lets in. *)
Ltac absurd_in :=
  let H := fresh "Habs" in intros H; simpl in H; contradiction.

Lemma resume_issued (rp : reply) (k : waiting) (r : request) (k' : waiting) :
  In (r, k') (issued (resume k rp)) ->
  (exists f l, k' = afterLookingUpTransactions f l)
  \/ (exists cur args,
         k = afterLookingUpForRelease cur args
         /\ k' = afterLockReleased cur args
                   (getNextLock (reply_locks rp) cur)).
Proof.
  destruct k as [f|f l|cur args|cur args next]; simpl.
  - destruct (truthy (reply_err rp)); simpl; [absurd_in|].
    destruct rp as [e [l|]|e ls|e]; simpl; try absurd_in.
    intros [H|H]; [|contradiction]. injection H as _ <-. left. eauto.
  - destruct (truthy (reply_err rp)); simpl; [absurd_in|].
    destruct (findConflict (reply_locks rp) l); simpl; absurd_in.
  - destruct (truthy (reply_err rp)); simpl.
    + destruct (afterUnlock cur); simpl; absurd_in.
    + intros [H|H]; [|contradiction]. injection H as _ <-. right. eauto.
  - destruct (truthy (reply_err rp)); simpl.
    + destruct (afterUnlock cur); simpl; absurd_in.
    + destruct (afterUnlock cur) as [g|]; destruct next as [m|]; simpl;
        absurd_in.
Qed.

Lemma resume_entered (rp : reply) (k : waiting) (b : lock) :
  In b (entered (resume k rp)) ->
  truthy (reply_err rp) = false
  /\ ((exists f, k = afterLookingUpTransactions f b
                 /\ findConflict (reply_locks rp) b = None)
      \/ (exists cur args, k = afterLockReleased cur args (Some b))).
Proof.
  destruct k as [f|f l|cur args|cur args next]; simpl.
  - destruct (truthy (reply_err rp)); simpl; [absurd_in|].
    destruct rp as [e [l|]|e ls|e]; simpl; absurd_in.
  - destruct (truthy (reply_err rp)); simpl; [absurd_in|].
    destruct (findConflict (reply_locks rp) l) eqn:E; simpl; [absurd_in|].
    intros [<-|H]; [|contradiction]. split; auto. left. eauto.
  - destruct (truthy (reply_err rp)); simpl.
    + destruct (afterUnlock cur); simpl; absurd_in.
    + absurd_in.
  - destruct (truthy (reply_err rp)); simpl.
    + destruct (afterUnlock cur); simpl; absurd_in.
    + destruct (afterUnlock cur) as [g|]; destruct next as [m|]; simpl;
        try absurd_in;
        (intros [<-|H]; [|contradiction]); split; auto; right; eauto.
Qed.

Lemma resume_live (a : lock) (rp : reply) (k : waiting) :
  typed (rp, k) ->
  (forall cur args, k <> afterLockReleased cur args (Some a)) ->
  (count (own_pending a) (issued (resume k rp))
   + count (is_lock a) (entered (resume k rp))
   <= if own_ready a (rp, k) then 1 else 0)%nat.
Proof.
  intros Ht Hk.
  destruct k as [f|f l|cur args|cur args next];
    destruct rp as [e ol|e ls|e]; simpl in Ht; try contradiction;
    unfold own_ready; simpl.
  - destruct (truthy e) eqn:E; simpl.
    + unfold count; simpl. lia.
    + destruct ol as [l|]; [|exfalso; apply (Ht eq_refl); reflexivity].
      simpl. unfold count, own_pending; simpl.
      destruct (lock_eqb l a); simpl; lia.
  - destruct (truthy e) eqn:E; simpl.
    + unfold count; simpl. lia.
    + destruct (findConflict ls l); simpl; unfold count, is_lock; simpl;
        destruct (lock_eqb l a); simpl; lia.
  - destruct (truthy e) eqn:E; simpl.
    + destruct (afterUnlock cur); unfold count; simpl; lia.
    + unfold count, own_pending; simpl.
      destruct (lock_eqb cur a); simpl; lia.
  - destruct (truthy e) eqn:E; simpl.
    + destruct (afterUnlock cur); unfold count; simpl; lia.
    + destruct next as [n|].
      * assert (Hn : lock_eqb n a = false).
        { apply lock_eqb_neq. intros ->. apply (Hk cur args). reflexivity. }
        destruct (afterUnlock cur); unfold count, is_lock; simpl;
          rewrite Hn; simpl; lia.
      * destruct (afterUnlock cur); unfold count; simpl; lia.
Qed.

Lemma flow_resume (s : state) (rp : reply) (k : waiting)
      (r1 r2 : list (reply * waiting)) :
  Genuine s -> Flow s ->
  ready s = r1 ++ (rp, k) :: r2 ->
  Flow
    (perform (resume k rp)
       (State (coll s) (calls s) (pending s) (r1 ++ r2) (held s) (trace s))).
Proof.
  intros G F Hr.
  assert (Hin : In (rp, k) (ready s)).
  { rewrite Hr. apply in_mid. left. reflexivity. }
  destruct (g_ready G _ Hin) as (Ht & Hk & Hm & Hrm).
  match goal with |- Flow (perform ?a ?s1) =>
    destruct (perform_spec a s1) as (Ec & Ecalls & Ep & Er & Eh & Et);
    set (s' := perform a s1) in *
  end.
  cbn [coll calls pending ready held trace] in Ec, Ecalls, Ep, Er, Eh, Et.
  fold (Cr s') in Et. fold (Cr s) in Et.
  assert (Ee : entries (coll s') = entries (coll s)) by (rewrite Ec; auto).
  assert (Hsub : forall it, In it (ready s') -> In it (ready s)).
  { intros it Hit. rewrite Er in Hit. rewrite Hr. apply in_rest. exact Hit. }
  apply (flow_keep G F Et Ee).
  - intros a La. unfold live. rewrite Ep, Er, Eh, Hr.
    rewrite (count_app (own_pending a)), (count_app (is_lock a)),
      (count_mid (own_ready a)).
    assert (Hne : forall cur args, k <> afterLockReleased cur args (Some a)).
    { intros cur args ->. apply (f_promo_r F a La _ _ _ Hin). }
    pose proof (@resume_live a rp k Ht Hne). lia.
  - intros a La r cur args Hin'. rewrite Ep in Hin'.
    apply in_app_iff in Hin'. destruct Hin' as [Hin'|Hin'].
    + apply (f_promo_p F a La _ _ _ Hin').
    + apply resume_issued in Hin'.
      destruct Hin' as [(f & l & H)|(cur' & args' & -> & H)];
        [discriminate|].
      injection H as <- <- Hn.
      destruct rp as [e ol|e ls|e]; simpl in Ht; try contradiction.
      simpl in Hn. symmetry in Hn. apply getNextLock_some in Hn.
      destruct Hn as (Hal & _ & Hu).
      apply Hu. symmetry. apply (f_scan F a La _ _ _ _ Hin Hal).
  - intros a La rp' cur args Hin'. apply Hsub in Hin'.
    apply (f_promo_r F a La _ _ _ Hin').
  - intros a La e ls cur args Hin' Ha. apply Hsub in Hin'.
    apply (f_scan F a La _ _ _ _ Hin' Ha).
  - intros a b Ha Hb Hid Hab. left.
    destruct Hab as [(e & ls & f & Hin' & H)|[Hin'|[(r & args & Hin')|
                                         (e & cur & args & Hin' & H)]]].
    + left. exists e, ls, f. auto.
    + rewrite Eh in Hin'. apply in_app_iff in Hin'.
      destruct Hin' as [Hin'|Hin']; [right; left; exact Hin'|].
      apply resume_entered in Hin'.
      destruct Hin' as (He & [(f & -> & Hc)|(cur & args & ->)]).
      * destruct rp as [e ol|e ls|e]; simpl in Ht; try contradiction.
        left. exists e, ls, f. auto.
      * destruct rp as [e ol|e ls|e]; simpl in Ht; try contradiction.
        right. right. right. exists e, cur, args. auto.
    + rewrite Ep in Hin'. apply in_app_iff in Hin'.
      destruct Hin' as [Hin'|Hin'].
      * right. right. left. exists r, args. exact Hin'.
      * apply resume_issued in Hin'.
        destruct Hin' as [(f & l & H)|(cur' & args' & _ & H)]; discriminate.
    + right. right. right. exists e, cur, args. auto.
Qed.


Lemma low_older (s : state) (a b : lock) :
  Genuine s -> low a s -> In b (Cr s) -> uuid b <> uuid a -> id a < id b.
Proof.
  intros G [Ha Hmin] Hb Hu.
  specialize (Hmin b Hb).
  destruct (Z.eq_dec (id a) (id b)) as [E|E]; [|lia].
  exfalso. apply Hu. f_equal. symmetry. apply (g_id G); auto.
Qed.

Lemma flow_serve_find (s : state) (k : waiting)
      (p1 p2 : list (request * waiting)) :
  Genuine s -> Flow s ->
  pending s = p1 ++ (FindAll, k) :: p2 ->
  Flow
    (State (coll s) (calls s) (p1 ++ p2)
           (ready s ++ [(Found VNull (entries (coll s)), k)]) (held s)
           (trace s ++ [Served FindAll (Found VNull (entries (coll s)))])).
Proof.
  intros G F Hp.
  assert (Hin : In (FindAll, k) (pending s)).
  { rewrite Hp. apply in_mid. left. reflexivity. }
  destruct (g_pending G _ Hin) as (Hpair & Hk & Hm).
  set (s' := State _ _ _ _ _ _).
  assert (Et : Cr s' = Cr s).
  { unfold Cr, s'; cbn [trace]. apply Cr_log. discriminate. }
  assert (Hsub : forall it, In it (pending s') -> In it (pending s)).
  { intros it Hit. rewrite Hp. apply in_rest. exact Hit. }
  apply (flow_keep G F Et eq_refl).
  - intros a _. unfold live, s'. cbn [pending ready held].
    rewrite Hp, (count_mid (own_pending a)), (count_app (own_ready a)),
      (count_cons (own_ready a)).
    change (count (own_ready a) []) with 0%nat.
    destruct k as [f'|f' l|cur args|cur args next];
      simpl in Hpair; try contradiction;
      unfold own_ready, own_pending; simpl; lia.
  - intros a La r cur args Hin'. apply Hsub in Hin'.
    apply (f_promo_p F a La _ _ _ Hin').
  - intros a La rp cur args Hin'. unfold s' in Hin'. cbn [ready] in Hin'.
    apply in_snoc in Hin'. destruct Hin' as [Hin'|Hin'].
    + apply (f_promo_r F a La _ _ _ Hin').
    + injection Hin' as _ <-. simpl in Hpair. contradiction.
  - intros a La e ls cur args Hin' Ha. unfold s' in Hin'. cbn [ready] in Hin'.
    apply in_snoc in Hin'. destruct Hin' as [Hin'|Hin'].
    + apply (f_scan F a La _ _ _ _ Hin' Ha).
    + injection Hin' as _ -> <-.
      destruct (string_dec (uuid cur) (uuid a)) as [E|E]; auto.
      exfalso.
      assert (Hc : In cur (Cr s)) by (apply Hm; left; reflexivity).
      pose proof (@low_older s a cur G La Hc E) as Hid.
      apply (f_high F a cur (proj1 La) Hc Hid); auto.
      right. right. left. exists FindAll, args. exact Hin.
  - intros a b Ha Hb Hid Hab.
    destruct Hab as [(e & ls & f & Hin' & Hf & Hc)|[Hin'|[(r & args & Hin')|
                                         (e & cur & args & Hin' & Hf)]]].
    + unfold s' in Hin'. cbn [ready] in Hin'. apply in_snoc in Hin'.
      destruct Hin' as [Hin'|Hin'].
      * left. left. exists e, ls, f. auto.
      * injection Hin' as _ -> _. right. intros Hae.
        apply (findConflict_some _ b a Hae); auto.
        -- destruct (g_cr G _ Ha) as (-> & _). symmetry.
           apply (g_cr G _ Hb).
        -- intros Hu. assert (a = b) by (apply (g_uuid G); auto).
           subst b. lia.
    + left. right. left. exact Hin'.
    + left. right. right. left. exists r, args. apply Hsub. exact Hin'.
    + unfold s' in Hin'. cbn [ready] in Hin'. apply in_snoc in Hin'.
      destruct Hin' as [Hin'|Hin']; [|discriminate].
      left. right. right. right. exists e, cur, args. auto.
Qed.


Lemma flow_serve_destroy (s : state) (u : string) (k : waiting)
      (p1 p2 : list (request * waiting)) :
  Genuine s -> Flow s ->
  pending s = p1 ++ (Destroy u, k) :: p2 ->
  Flow
    (State (snd (serve (Destroy u) (coll s))) (calls s) (p1 ++ p2)
           (ready s ++ [(Destroyed VNull, k)]) (held s)
           (trace s ++ [Served (Destroy u) (Destroyed VNull)])).
Proof.
  intros G F Hp.
  assert (Hin : In (Destroy u, k) (pending s)).
  { rewrite Hp. apply in_mid. left. reflexivity. }
  destruct (g_pending G _ Hin) as (Hpair & Hk & Hm).
  destruct k as [f'|f' l|cur args|cur args next];
    simpl in Hpair; try contradiction. subst u.
  set (s' := State _ _ _ _ _ _).
  assert (Et : Cr s' = Cr s).
  { unfold Cr, s'; cbn [trace]. apply Cr_log. discriminate. }
  assert (Hsub : forall it, In it (pending s') -> In it (pending s)).
  { intros it Hit. rewrite Hp. apply in_rest. exact Hit. }
  assert (Hcur : In cur (Cr s)) by (apply Hm; destruct next; left; auto).
  assert (Hlive : forall a,
             (live a s' + (if lock_eqb cur a then 1 else 0) = live a s)%nat).
  { intros a. unfold live, s'. cbn [pending ready held].
    rewrite Hp, (count_mid (own_pending a)), (count_app (own_ready a)),
      (count_cons (own_ready a)).
    change (count (own_ready a) []) with 0%nat.
    unfold own_ready, own_pending; simpl. lia. }
  assert (Hlow : forall a, low a s' -> low a s).
  { intros a. unfold low. rewrite Et. auto. }
  assert (Hent : forall a, In a (entries (coll s')) <->
                           In a (entries (coll s)) /\ uuid a <> uuid cur).
  { intros a. unfold s'. cbn [coll snd serve entries].
    rewrite filter_In, negb_true_iff, String.eqb_neq. tauto. }
  split.
  - intros a La. apply Hlow in La. pose proof (f_one F a La).
    specialize (Hlive a). lia.
  - intros a La Hl. apply Hlow in La. apply Hent.
    specialize (Hlive a). split.
    + apply (f_store F a La). lia.
    + intros Hu. assert (a = cur) by (apply (g_uuid G); auto; apply La).
      subst a. rewrite lock_eqb_refl in Hlive.
      pose proof (f_one F cur La). lia.
  - intros a La r cur' args' Hin'. apply Hlow in La. apply Hsub in Hin'.
    apply (f_promo_p F a La _ _ _ Hin').
  - intros a La rp cur' args' Hin'. apply Hlow in La.
    unfold s' in Hin'. cbn [ready] in Hin'.
    apply in_snoc in Hin'. destruct Hin' as [Hin'|Hin'].
    + apply (f_promo_r F a La _ _ _ Hin').
    + injection Hin' as _ <- <- <-. apply (f_promo_p F a La _ _ _ Hin).
  - intros a La e ls cur' args' Hin' Ha. apply Hlow in La.
    unfold s' in Hin'. cbn [ready] in Hin'.
    apply in_snoc in Hin'. destruct Hin' as [Hin'|Hin']; [|discriminate].
    apply (f_scan F a La _ _ _ _ Hin' Ha).
  - intros a b Ha Hb Hid Hab Hae. rewrite Et in Ha, Hb.
    apply Hent in Hae. destruct Hae as [Hae Hu].
    destruct Hab as [(e & ls & f & Hin' & Hf & Hc)|[Hin'|[(r & args' & Hin')|
                                         (e & cur' & args' & Hin' & Hf)]]].
    + unfold s' in Hin'. cbn [ready] in Hin'. apply in_snoc in Hin'.
      destruct Hin' as [Hin'|Hin']; [|discriminate].
      apply (f_high F a b Ha Hb Hid); auto. left. exists e, ls, f. auto.
    + apply (f_high F a b Ha Hb Hid); auto. right. left. exact Hin'.
    + apply (f_high F a b Ha Hb Hid); auto.
      right. right. left. exists r, args'. apply Hsub. exact Hin'.
    + unfold s' in Hin'. cbn [ready] in Hin'. apply in_snoc in Hin'.
      destruct Hin' as [Hin'|Hin'].
      * apply (f_high F a b Ha Hb Hid); auto.
        right. right. right. exists e, cur', args'. auto.
      * injection Hin' as _ <- <- <-. simpl in Hk.
        assert (Hab : uuid a <> uuid b).
        { intros E. assert (a = b) by (apply (g_uuid G); auto).
          subst b. lia. }
        destruct (@only_two s a b G Ha Hb Hab _ Hcur) as [E|E];
          rewrite E in *; congruence.
Qed.

Lemma flow_serve_create (s : state) (u n : string) (f : nat)
      (g : option nat) (k : waiting) (p1 p2 : list (request * waiting)) :
  Genuine s -> Flow s ->
  pending s = p1 ++ (Create u n f g, k) :: p2 ->
  Flow
    (State (snd (serve (Create u n f g) (coll s))) (calls s) (p1 ++ p2)
           (ready s ++ [(fst (serve (Create u n f g) (coll s)), k)])
           (held s)
           (trace s ++ [Served (Create u n f g)
                               (fst (serve (Create u n f g) (coll s)))])).
Proof.
  intros G F Hp.
  assert (Hin : In (Create u n f g, k) (pending s)).
  { rewrite Hp. apply in_mid. left. reflexivity. }
  destruct (g_pending G _ Hin) as (Hpair & Hk & Hm).
  destruct k as [f'|f' l0|cur args|cur args next];
    simpl in Hpair; try contradiction.
  cbn [serve fst snd].
  set (l := Lock (next_id (coll s)) u n f g).
  set (s' := State _ _ _ _ _ _).
  assert (Et : Cr s' = Cr s ++ [l]).
  { unfold Cr, s'; cbn [trace]. rewrite created_in_app. reflexivity. }
  assert (Hnew : ~ In l (Cr s)).
  { intros Hl. destruct (g_cr G _ Hl) as (_ & _ & Hid). simpl in Hid. lia. }
  assert (Hsub : forall it, In it (pending s') -> In it (pending s)).
  { intros it Hit. rewrite Hp. apply in_rest. exact Hit. }
  assert (Hlive : forall a,
             (live a s' = live a s + (if lock_eqb l a then 1 else 0))%nat).
  { intros a. unfold live, s'. cbn [pending ready held].
    rewrite Hp, (count_mid (own_pending a)), (count_app (own_ready a)),
      (count_cons (own_ready a)).
    change (count (own_ready a) []) with 0%nat.
    unfold own_ready, own_pending; simpl. lia. }
  assert (Hlow : forall a, low a s' -> In a (Cr s) -> low a s).
  { intros a [_ Hmin] Ha. split; auto. intros b Hb. apply Hmin.
    rewrite Et. apply in_snoc. left. exact Hb. }
  assert (Hfirst : forall b, low l s' -> ~ In b (Cr s)).
  { intros b [_ Hmin] Hb. destruct (g_cr G _ Hb) as (_ & _ & Hid).
    assert (Hb' : In b (Cr s')) by (rewrite Et; apply in_snoc; auto).
    specialize (Hmin b Hb'). simpl in Hmin. lia. }
  assert (Hcase : forall a, low a s' ->
                            (In a (Cr s) /\ a <> l) \/ a = l).
  { intros a [Ha _]. rewrite Et in Ha. apply in_snoc in Ha.
    destruct Ha as [Ha|Ha]; auto. left. split; auto. congruence. }
  split.
  - intros a La. specialize (Hlive a).
    destruct (Hcase a La) as [[Ha Hne]| ->].
    + rewrite (lock_eqb_neq (not_eq_sym Hne)) in Hlive.
      pose proof (f_one F a (Hlow a La Ha)). lia.
    + rewrite lock_eqb_refl, (@live_uncreated s l G Hnew) in Hlive. lia.
  - intros a La Hl. unfold s'. cbn [coll entries]. apply in_snoc.
    specialize (Hlive a).
    destruct (Hcase a La) as [[Ha Hne]| ->]; auto.
    left. rewrite (lock_eqb_neq (not_eq_sym Hne)) in Hlive.
    apply (f_store F a (Hlow a La Ha)). lia.
  - intros a La r cur args Hin'. apply Hsub in Hin'.
    destruct (Hcase a La) as [[Ha Hne]| ->].
    + apply (f_promo_p F a (Hlow a La Ha) _ _ _ Hin').
    + apply Hnew. destruct (g_pending G _ Hin') as (_ & _ & Hm').
      apply Hm'. simpl. auto.
  - intros a La rp cur args Hin'. unfold s' in Hin'. cbn [ready] in Hin'.
    apply in_snoc in Hin'. destruct Hin' as [Hin'|Hin']; [|discriminate].
    destruct (Hcase a La) as [[Ha Hne]| ->].
    + apply (f_promo_r F a (Hlow a La Ha) _ _ _ Hin').
    + apply Hnew. destruct (g_ready G _ Hin') as (_ & _ & Hm' & _).
      apply Hm'. simpl. auto.
  - intros a La e ls cur args Hin' Hal. unfold s' in Hin'.
    cbn [ready] in Hin'.
    apply in_snoc in Hin'. destruct Hin' as [Hin'|Hin']; [|discriminate].
    destruct (Hcase a La) as [[Ha Hne]| ->].
    + apply (f_scan F a (Hlow a La Ha) _ _ _ _ Hin' Hal).
    + exfalso. apply (Hfirst cur La).
      destruct (g_ready G _ Hin') as (_ & _ & Hm' & _).
      apply Hm'. simpl. auto.
  - intros a b Ha Hb Hid Hab Hae. rewrite Et in Ha, Hb.
    assert (Hab' : Active b s).
    { destruct Hab as [(e & ls & f0 & Hin' & H)|[Hin'|[(r & args & Hin')|
                                         (e & cur & args & Hin' & H)]]].
      - unfold s' in Hin'. cbn [ready] in Hin'. apply in_snoc in Hin'.
        destruct Hin' as [Hin'|Hin']; [|discriminate].
        left. exists e, ls, f0. auto.
      - right. left. exact Hin'.
      - right. right. left. exists r, args. apply Hsub. exact Hin'.
      - unfold s' in Hin'. cbn [ready] in Hin'. apply in_snoc in Hin'.
        destruct Hin' as [Hin'|Hin']; [|discriminate].
        right. right. right. exists e, cur, args. auto. }
    pose proof (@active_created s b G Hab') as Hb'.
    destruct (g_cr G _ Hb') as (_ & _ & Hidb).
    apply in_snoc in Ha. destruct Ha as [Ha| ->]; [|simpl in Hid; lia].
    unfold s' in Hae. cbn [coll entries] in Hae. apply in_snoc in Hae.
    destruct Hae as [Hae| ->]; [|contradiction].
    apply (f_high F a b Ha Hb' Hid Hab' Hae).
Qed.

Lemma flow_step (s s' : state) :
  Genuine s -> Flow s -> step s s' -> Flow s'.
Proof.
  intros G F St. destruct St.
  - apply flow_call; assumption.
  - destruct r as [u n f g| |u].
    + apply flow_serve_create; assumption.
    + apply flow_serve_find; assumption.
    + apply flow_serve_destroy; assumption.
  - apply flow_refuse; assumption.
  - apply flow_resume; assumption.
  - apply flow_unlock; assumption.
Qed.

Lemma reachable_invariant (s : state) :
  reachable (initial c0 [cA; cB]) s -> Genuine s /\ Flow s.
Proof.
  induction 1 as [|s s' _ [G F] St].
  - split; [apply initial_genuine|apply initial_flow].
  - split; [eapply genuine_step|eapply flow_step]; eauto.
Qed.

(** Two locks of different calls are never held together. *)
Lemma held_exclusive (s : state) (l1 l2 : lock) :
  Genuine s -> Flow s ->
  In l1 (held s) -> In l2 (held s) -> uuid l1 = uuid l2.
Proof.
  intros G F H1 H2.
  destruct (string_dec (uuid l1) (uuid l2)) as [E|E]; auto. exfalso.
  pose proof (g_held G _ H1) as C1. pose proof (g_held G _ H2) as C2.
  assert (Hgo : forall a b, In a (held s) -> In b (held s) ->
                  In a (Cr s) -> In b (Cr s) -> uuid a <> uuid b ->
                  id a < id b -> False).
  { intros a b Ha Hb Ca Cb Hu Hid.
    assert (La : low a s).
    { split; auto. intros x Hx.
      destruct (@only_two s a b G Ca Cb Hu x Hx) as [->| ->]; lia. }
    apply (f_high F a b Ca Cb Hid).
    - right. left. exact Hb.
    - apply (f_store F a La). unfold live.
      pose proof (count_in (is_lock a) a (held s) Ha (lock_eqb_refl a)).
      lia. }
  destruct (Z.lt_trichotomy (id l1) (id l2)) as [Hlt|[Heq|Hgt]].
  - apply (Hgo l1 l2); auto.
  - apply E. f_equal. apply (g_id G); auto.
  - apply (Hgo l2 l1); auto.
Qed.

End TwoCalls.


(** ** Critical sections, read off the record of what happened *)

(** The atomic logic of the call that owns [l] is started with the
    unlock of [l]. *)
Definition enters (l : lock) (e : event) : bool :=
  match e with
  | Did (CallAtomicLogic _ _ (Unlock l')) => lock_eqb l' l
  | _ => false
  end.

(** The unlock of [l] is called. *)
Definition leaves (l : lock) (e : event) : bool :=
  match e with
  | Unlocked l' _ => lock_eqb l' l
  | _ => false
  end.

(** A critical section of [l] is open: it was entered more often than
    it was left. *)
Definition inside (l : lock) (t : list event) : Prop :=
  (count (leaves l) t < count (enters l) t)%nat.

Lemma perform_counts (l : lock) (acts : list action) (s : state) :
  count (enters l) (trace (perform acts s))
  = (count (enters l) (trace s) + count (is_lock l) (entered acts))%nat
  /\ count (leaves l) (trace (perform acts s)) = count (leaves l) (trace s).
Proof.
  revert s. induction acts as [|a acts IH]; intros s.
  - simpl. unfold count at 3. simpl. lia.
  - change (perform (a :: acts) s) with (perform acts (perform1 a s)).
    destruct (IH (perform1 a s)) as [H1 H2]. rewrite H1, H2.
    destruct a as [r k|l'|l'|f e [l'|e']|g args];
      cbn [perform1 log trace entered flat_map app];
      rewrite ?(count_app (enters l)), ?(count_app (leaves l)),
        ?(count_cons (is_lock l)), ?count_single;
      cbn [enters leaves]; unfold is_lock; fold (entered acts); lia.
Qed.

Lemma held_is_open (s0 s : state) (l : lock) :
  held s0 = [] -> trace s0 = [] ->
  reachable s0 s ->
  (count (is_lock l) (held s) + count (leaves l) (trace s)
   = count (enters l) (trace s))%nat.
Proof.
  intros Hh Ht R. induction R as [|s s' _ IH St].
  - rewrite Hh, Ht. reflexivity.
  - destruct St.
    + match goal with |- context [perform ?a ?s1] =>
        destruct (perform_counts l a s1) as [E1 E2];
        destruct (perform_spec a s1) as (_ & _ & _ & _ & Eh & _)
      end.
      rewrite E1, E2, Eh. cbn [held trace transaction entered flat_map app].
      rewrite (count_app (is_lock l)), (count_app (enters l)),
        (count_app (leaves l)), !count_single, count_nil.
      cbn [enters leaves]. lia.
    + cbn [held trace].
      rewrite (count_app (enters l)), (count_app (leaves l)), !count_single.
      cbn [enters leaves]. lia.
    + cbn [held trace].
      rewrite (count_app (enters l)), (count_app (leaves l)), !count_single.
      cbn [enters leaves]. lia.
    + match goal with |- context [perform ?a ?s1] =>
        destruct (perform_counts l a s1) as [E1 E2];
        destruct (perform_spec a s1) as (_ & _ & _ & _ & Eh & _)
      end.
      rewrite E1, E2, Eh. cbn [held trace].
      rewrite (count_app (is_lock l)). lia.
    + match goal with |- context [perform ?a ?s1] =>
        destruct (perform_counts l a s1) as [E1 E2];
        destruct (perform_spec a s1) as (_ & _ & _ & _ & Eh & _)
      end.
      rewrite E1, E2, Eh.
      cbn [held trace unlock releaseLock entered flat_map app].
      rewrite H in IH. rewrite (count_mid (is_lock l)) in IH.
      rewrite !(count_app (is_lock l)), (count_app (enters l)),
        (count_app (leaves l)), !count_single, count_nil.
      rewrite (count_app (is_lock l)) in IH.
      cbn [enters leaves]. unfold is_lock in *. lia.
Qed.

Lemma count_some {A} (f : A -> bool) (l : list A) :
  (1 <= count f l)%nat -> exists x, In x l /\ f x = true.
Proof.
  induction l as [|x l IH]; unfold count; simpl; [lia|].
  destruct (f x) eqn:E.
  - intros _. exists x. auto.
  - intros H. destruct (IH H) as (y & Hy & Hf). exists y. auto.
Qed.



(** ** Schedules are executions *)

Lemma pick_split {A} (i : nat) (l a b : list A) (x : A) :
  pick i l = Some (a, x, b) -> l = a ++ x :: b.
Proof.
  revert i a. induction l as [|y l IH]; intros [|i] a H; simpl in H;
    try discriminate.
  - injection H as <- <- <-. reflexivity.
  - destruct (pick i l) as [[[a' y'] b']|] eqn:E; [|discriminate].
    injection H as <- <- <-. simpl. f_equal. apply IH with (i := i).
    exact E.
Qed.

Lemma take_turn_step (t : turn) (s s' : state) :
  take_turn t s = Some s' -> step s s'.
Proof.
  destruct t as [i|i|i err|i|i args]; simpl.
  - destruct (pick i (calls s)) as [[[cs1 c] cs2]|] eqn:E; [|discriminate].
    intros H. injection H as <-. apply step_call.
    apply pick_split with (i := i). exact E.
  - destruct (pick i (pending s)) as [[[p1 [r k]] p2]|] eqn:E;
      [|discriminate].
    intros H. injection H as <-. apply step_serve.
    apply pick_split with (i := i). exact E.
  - destruct (pick i (pending s)) as [[[p1 [r k]] p2]|] eqn:E;
      [|discriminate].
    destruct (truthy err) eqn:Et; [|discriminate].
    intros H. injection H as <-. apply step_refuse; auto.
    apply pick_split with (i := i). exact E.
  - destruct (pick i (ready s)) as [[[r1 [rp k]] r2]|] eqn:E;
      [|discriminate].
    intros H. injection H as <-. apply step_resume.
    apply pick_split with (i := i). exact E.
  - destruct (pick i (held s)) as [[[h1 l] h2]|] eqn:E; [|discriminate].
    intros H. injection H as <-. apply step_unlock.
    apply pick_split with (i := i). exact E.
Qed.

Lemma after_reachable (ts : list turn) (s0 s : state) :
  reachable s0 s -> reachable s0 (after ts s).
Proof.
  revert s. induction ts as [|t ts IH]; intros s R; simpl; auto.
  destruct (take_turn t s) as [s'|] eqn:E; apply IH; auto.
  apply reach_step with (s := s); auto.
  apply take_turn_step with (t := t). exact E.
Qed.

(** ** A run of two calls *)

Definition callA : call := Call "uuid-a"%string "X"%string 0 (Some 10%nat).
Definition callB : call := Call "uuid-b"%string "X"%string 1 (Some 11%nat).
Definition no_locks : collection := Collection [] 1.

Definition lockA : lock := Lock 1 "uuid-a"%string "X"%string 0 (Some 10%nat).
Definition lockB : lock := Lock 2 "uuid-b"%string "X"%string 1 (Some 11%nat).

(** Both calls are made and both entries are created; the first call
    scans the collection and enters its critical section; the second
    call scans, finds the older entry and waits. *)
Definition first_inside : list turn :=
  [ Call_ 0; Call_ 0; Serve 0; Serve 0;
    Resume 0; Serve 0; Resume 1;
    Resume 0; Serve 0; Resume 0 ].

(** Then the first call unlocks, and its release lets the second in. *)
Definition second_inside : list turn :=
  first_inside ++ [ Unlock_ 0 []; Serve 0; Resume 0; Serve 0; Resume 0 ].

Lemma first_call_inside :
  let s := after first_inside (initial no_locks [callA; callB]) in
  held s = [lockA] /\ pending s = [] /\ ready s = []
  /\ entries (coll s) = [lockA; lockB].
Proof. vm_compute. repeat split; reflexivity. Qed.

Lemma second_call_inside_after_unlock :
  let s := after second_inside (initial no_locks [callA; callB]) in
  held s = [lockB] /\ entries (coll s) = [lockB]
  /\ filter (fun e => enters lockA e || leaves lockA e || enters lockB e)
            (trace s)
     = [ Did (CallAtomicLogic 0 VNull (Unlock lockA));
         Unlocked lockA [];
         Did (CallAtomicLogic 1 VNull (Unlock lockB)) ].
Proof. vm_compute. repeat split; reflexivity. Qed.


End MutexFacts.

(* ===================================================================== *)
(** * Further properties, read off the code                              *)
(* ===================================================================== *)

Unset Implicit Arguments.

(* ===================================================================== *)
(** * Stepping through effectful code                                      *)
(* ===================================================================== *)

Module Steps.

Import Num JS Eff Criteria CriteriaFacts FacadeFacts.
Local Open Scope string_scope.
Local Open Scope eff_scope.

Lemma bind_ok {A B} (m : M A) (k : A -> M B) (w w' : world) (a : A) :
  m w = (Ok a, w') -> bind m k w = k a w'.
Proof. intros H. unfold bind. rewrite H. reflexivity. Qed.

Lemma bind_throw {A B} (m : M A) (k : A -> M B) (w w' : world) (e : exn) :
  m w = (Throw e, w') -> bind m k w = (Throw e, w').
Proof. intros H. unfold bind. rewrite H. reflexivity. Qed.

Lemma bind_assoc {A B C} (m : M A) (f : A -> M B) (g : B -> M C)
      (w : world) :
  bind (bind m f) g w = bind m (fun x => bind (f x) g) w.
Proof. unfold bind. destruct (m w) as [[a|e] w']; reflexivity. Qed.

Lemma set_heap_twice (h1 h2 : heap) (w : world) :
  set_heap h2 (set_heap h1 w) = set_heap h2 w.
Proof. reflexivity. Qed.

Lemma nth_error_heap_set_other (h : heap) (l l' : loc) (c : cell) :
  l <> l' -> nth_error (heap_set l' c h) l = nth_error h l.
Proof.
  revert l l'. induction h as [|x h IH]; intros [|l] [|l'] Hne; simpl;
    try reflexivity; try congruence.
  apply IH. congruence.
Qed.

Lemma nth_error_fresh (h : heap) (c : cell) :
  nth_error (h ++ [c])%list (List.length h) = Some c.
Proof.
  rewrite nth_error_app2 by lia. rewrite Nat.sub_diag. reflexivity.
Qed.

Lemma nth_error_old (h : heap) (l : loc) (c c' : cell) :
  nth_error h l = Some c -> nth_error (h ++ [c'])%list l = Some c.
Proof.
  intros H. rewrite nth_error_app1; auto.
  apply nth_error_Some. congruence.
Qed.

Lemma heap_set_app (h : heap) (l : loc) (c c0 c' : cell) :
  nth_error h l = Some c0 ->
  heap_set l c (h ++ [c'])%list = (heap_set l c h ++ [c'])%list.
Proof.
  revert l. induction h as [|x h IH]; intros [|l] H; simpl in *;
    try discriminate; try reflexivity.
  rewrite (IH l H). reflexivity.
Qed.

Lemma heap_set_fresh (h : heap) (c c' : cell) (n : nat) :
  n = List.length h ->
  heap_set n c' (h ++ [c])%list = (h ++ [c'])%list.
Proof.
  intros ->. induction h as [|x h IH]; simpl; [reflexivity|].
  rewrite IH. reflexivity.
Qed.

Lemma nth_error_at (h r : heap) (c : cell) :
  nth_error (h ++ c :: r)%list (List.length h) = Some c.
Proof.
  rewrite nth_error_app2 by lia. rewrite Nat.sub_diag. reflexivity.
Qed.

Lemma heap_set_at (h r : heap) (c c' : cell) :
  heap_set (List.length h) c' (h ++ c :: r)%list = (h ++ c' :: r)%list.
Proof. induction h as [|x h IH]; simpl; [reflexivity|]. rewrite IH. reflexivity. Qed.

Lemma length_heap_set (h : heap) (l : loc) (c : cell) :
  List.length (heap_set l c h) = List.length h.
Proof.
  revert l. induction h as [|x h IH]; intros [|l]; simpl; auto.
Qed.

Lemma alloc_at (c : cell) (w : world) :
  alloc c w = (Ok (VRef (List.length (w_heap w))),
               set_heap (w_heap w ++ [c])%list w).
Proof. reflexivity. Qed.

Lemma strip_undefined_at [w : world] [l : loc] [ps : props] :
  nth_error (w_heap w) l = Some (CObj ps) ->
  endless ps = false ->
  strip_undefined (VRef l) w
  = (Ok tt, set_heap (heap_set l (CObj (stripped ps)) (w_heap w)) w).
Proof.
  intros H E. unfold strip_undefined, bind, read_heap, write_heap.
  rewrite H, E. reflexivity.
Qed.

Lemma strip_undefined_endless [w : world] [l : loc] [ps : props] :
  nth_error (w_heap w) l = Some (CObj ps) ->
  endless ps = true ->
  strip_undefined (VRef l) w
  = (Throw Endless,
     set_heap (heap_set l (CObj (stripped ps)) (w_heap w)) w).
Proof.
  intros H E. unfold strip_undefined, bind, read_heap, write_heap.
  rewrite H, E. reflexivity.
Qed.

(** A value that is no reference: its number does not depend on the
    heap. *)
Definition plain (v : value) : bool :=
  match v with VRef _ => false | _ => true end.

Lemma ToNumber_plain (h : heap) (v : value) :
  plain v = true -> ToNumber h v = ToNumber [] v.
Proof. destruct v; simpl; intros; try reflexivity; discriminate. Qed.

Lemma to_number_plain (v : value) (w : world) :
  plain v = true -> to_number v w = (Ok (ToNumber [] v), w).
Proof.
  intros H. unfold to_number, bind, read_heap, ret.
  rewrite (ToNumber_plain _ _ H). reflexivity.
Qed.

Lemma assoc_mid (k : string) (v : value) (done rest : props) :
  ~ In k (keys done) -> assoc k (done ++ (k, v) :: rest)%list = Some v.
Proof.
  induction done as [|[k' v'] done IH]; simpl; intros H.
  - rewrite String.eqb_refl. reflexivity.
  - destruct (String.eqb k k') eqn:E.
    + apply String.eqb_eq in E. intuition congruence.
    + apply IH. intuition congruence.
Qed.

Lemma assoc_put_mid (k : string) (v x : value) (done rest : props) :
  ~ In k (keys done) ->
  assoc_put k x (done ++ (k, v) :: rest)%list = (done ++ (k, x) :: rest)%list.
Proof.
  induction done as [|[k' v'] done IH]; simpl; intros H.
  - rewrite String.eqb_refl. reflexivity.
  - destruct (String.eqb k k') eqn:E.
    + apply String.eqb_eq in E. intuition congruence.
    + rewrite IH by intuition congruence. reflexivity.
Qed.

Lemma assoc_set_mid (k : string) (v x : value) (done rest : props) :
  ~ In k (keys done) ->
  assoc_set k x (done ++ (k, v) :: rest)%list = (done ++ (k, x) :: rest)%list.
Proof.
  intros H. unfold assoc_set. rewrite (assoc_mid k v done rest H).
  apply assoc_put_mid. exact H.
Qed.

Lemma assoc_set_nil (k : string) (v : value) : assoc_set k v [] = [(k, v)].
Proof.
  unfold assoc_set. cbn [assoc]. destruct (element_index k); reflexivity.
Qed.

Lemma assoc_none (k : string) (ps : props) :
  ~ In k (keys ps) -> assoc k ps = None.
Proof.
  induction ps as [|[k' v'] ps IH]; simpl; intros H; auto.
  destruct (String.eqb k k') eqn:E.
  - apply String.eqb_eq in E. intuition congruence.
  - apply IH. intuition congruence.
Qed.

Lemma assoc_in (k : string) (v : value) (ps : props) :
  assoc k ps = Some v -> In (k, v) ps.
Proof.
  induction ps as [|[k' v'] ps IH]; simpl; intros H; [discriminate|].
  destruct (String.eqb k k') eqn:E.
  - apply String.eqb_eq in E. injection H as <-. left. congruence.
  - right. auto.
Qed.

Lemma getp_ref (l : loc) (k : string) (w : world) :
  exists x, getp (VRef l) k w = (Ok x, w).
Proof.
  unfold getp, bind, read_heap. cbn [get].
  destruct (nth_error (w_heap w) l) as [[ps|items ps]|];
    try (eexists; reflexivity).
  destruct (String.eqb k "length"); [eexists; reflexivity|].
  destruct (array_index k); eexists; reflexivity.
Qed.

Lemma assoc_set_new (k : string) (v : value) (ps : props) :
  assoc k ps = None -> element_index k = None ->
  assoc_set k v ps = (ps ++ [(k, v)])%list.
Proof. intros H E. unfold assoc_set. rewrite H, E. reflexivity. Qed.

Lemma memberp_obj (w : world) (l : loc) (ps : props) (k : string) :
  nth_error (w_heap w) l = Some (CObj ps) ->
  memberp (VRef l) k w = (Ok (held_under ps k), w).
Proof.
  intros H. unfold memberp, bind, read_heap. cbn [member]. rewrite H.
  reflexivity.
Qed.

Lemma in_assoc (k : string) (v : value) (ps : props) :
  NoDup (keys ps) -> In (k, v) ps -> assoc k ps = Some v.
Proof.
  induction ps as [|[k' v'] ps IH]; simpl; intros N H; [contradiction|].
  inversion N as [|? ? Hn N']; subst.
  destruct H as [H|H].
  - injection H as -> ->. rewrite String.eqb_refl. reflexivity.
  - destruct (String.eqb k k') eqn:E.
    + apply String.eqb_eq in E. subst k'. exfalso. apply Hn.
      apply in_map_iff. exists (k, v). auto.
    + auto.
Qed.

Lemma held_under_in (ps : props) (k : string) (v : value) :
  NoDup (keys ps) -> In (k, v) ps -> held_under ps k = v.
Proof.
  intros N H. unfold held_under. rewrite (in_assoc k v ps N H). reflexivity.
Qed.

End Steps.

(* ===================================================================== *)
(** * More on the criteria normaliser                                      *)
(* ===================================================================== *)

Module CriteriaMore.

Import Num JS Eff Criteria CriteriaFacts FacadeFacts Steps.
Local Open Scope string_scope.
Local Open Scope eff_scope.

(** What the loop over [criteria.where] makes of a value: the number it
    reads as, when the square of that number is above zero. *)
Definition coerce (v : value) : value :=
  let n := ToNumber [] v in
  if gtb (pow2 n) zero then VNum n else v.

Definition coerced (ps : props) : props :=
  map (fun kv => (fst kv, coerce (snd kv))) ps.

Definition all_plain (ps : props) : Prop :=
  forall kv, In kv ps -> plain (snd kv) = true.

Lemma coerce_twice (v : value) : coerce (coerce v) = coerce v.
Proof.
  unfold coerce. destruct (gtb (pow2 (ToNumber [] v)) zero) eqn:E.
  - cbn [ToNumber]. rewrite E. reflexivity.
  - rewrite E. reflexivity.
Qed.

Lemma coerced_twice (ps : props) : coerced (coerced ps) = coerced ps.
Proof.
  unfold coerced. rewrite map_map. apply map_ext. intros [k v]. simpl.
  rewrite coerce_twice. reflexivity.
Qed.

Lemma keys_coerced (ps : props) : keys (coerced ps) = keys ps.
Proof.
  unfold keys, coerced. rewrite map_map. reflexivity.
Qed.

Lemma coerce_plain (v : value) : plain v = true -> plain (coerce v) = true.
Proof.
  unfold coerce. destruct (gtb _ _); auto.
Qed.

Lemma all_plain_coerced (ps : props) : all_plain ps -> all_plain (coerced ps).
Proof.
  intros H kv Hin. unfold coerced in Hin. apply in_map_iff in Hin.
  destruct Hin as ([k v] & <- & Hin). simpl. apply coerce_plain.
  apply (H _ Hin).
Qed.

Lemma coerce_attr_at (c lw : loc) (cps done rest : props) (k : string)
      (v : value) (w : world) :
  c <> lw ->
  nth_error (w_heap w) c = Some (CObj cps) ->
  assoc "where" cps = Some (VRef lw) ->
  nth_error (w_heap w) lw = Some (CObj (done ++ (k, v) :: rest)%list) ->
  ~ In k (keys done) ->
  plain v = true ->
  coerce_attr (VRef c) k w
  = (Ok tt,
     set_heap (heap_set lw (CObj (done ++ (k, coerce v) :: rest)%list)
                        (w_heap w)) w).
Proof.
  intros Hne Hc Hw Hlw Hk Hp. unfold coerce_attr.
  erewrite bind_ok by (exact (getp_obj "where" Hc)). rewrite Hw.
  erewrite bind_ok by (exact (getp_obj k Hlw)). rewrite assoc_mid by exact Hk.
  erewrite bind_ok by (exact (to_number_plain v w Hp)).
  unfold coerce.
  destruct (gtb (pow2 (ToNumber [] v)) zero) eqn:E.
  - erewrite bind_ok by (exact (getp_obj "where" Hc)). rewrite Hw.
    erewrite bind_ok by (exact (getp_obj k Hlw)). rewrite assoc_mid by exact Hk.
    erewrite bind_ok by (exact (to_number_plain v w Hp)).
    rewrite (setp_obj k _ Hlw). rewrite assoc_set_mid by exact Hk.
    reflexivity.
  - unfold ret. rewrite (heap_set_same Hlw), set_heap_same. reflexivity.
Qed.

(** The loop over the properties of [criteria.where]. *)
Lemma where_loop (c lw : loc) (cps : props) :
  c <> lw ->
  assoc "where" cps = Some (VRef lw) ->
  forall (rest done : props) (w : world),
    nth_error (w_heap w) c = Some (CObj cps) ->
    nth_error (w_heap w) lw = Some (CObj (done ++ rest)%list) ->
    NoDup (keys (done ++ rest)%list) ->
    all_plain rest ->
    for_each (keys rest) (coerce_attr (VRef c)) w
    = (Ok tt,
       set_heap (heap_set lw (CObj (done ++ coerced rest)%list) (w_heap w))
                w).
Proof.
  intros Hne Hw. induction rest as [|[k v] rest IH]; intros done w Hc Hlw N P.
  - simpl. unfold ret. rewrite (heap_set_same Hlw), set_heap_same.
    reflexivity.
  - assert (Hk : ~ In k (keys done)).
    { unfold keys in N. rewrite map_app in N. simpl in N.
      apply NoDup_remove_2 in N. intros Hin. apply N.
      apply in_or_app. left. exact Hin. }
    cbn [keys map fst for_each].
    erewrite bind_ok
      by (apply (@coerce_attr_at c lw cps done rest k v w); auto;
          apply (P (k, v)); left; reflexivity).
    fold (keys rest).
    rewrite (IH (done ++ [(k, coerce v)])%list).
    + cbn [set_heap w_heap w_clock w_tick w_log w_frames].
      rewrite heap_set_twice. rewrite <- app_assoc. reflexivity.
    + cbn [set_heap w_heap]. rewrite nth_error_heap_set_other; auto.
    + cbn [set_heap w_heap]. rewrite (nth_error_heap_set _ Hlw).
      rewrite <- app_assoc. reflexivity.
    + rewrite <- app_assoc. simpl.
      unfold keys in *. rewrite map_app in *. simpl in *. exact N.
    + intros kv Hin. apply P. right. exact Hin.
Qed.


(** Deleting undefined properties does not change what reading a
    property gives. *)
Definition only_undefined (f : string * value -> bool) : Prop :=
  forall kv, f kv = false -> snd kv = VUndefined.

Lemma lookup_filter (f : string * value -> bool) (ps : props) (k : string) :
  only_undefined f ->
  NoDup (keys ps) ->
  Facade.lookup (filter f ps) k = Facade.lookup ps k.
Proof.
  intros F. unfold Facade.lookup.
  induction ps as [|[k' v'] ps IH]; intros N; [reflexivity|].
  cbn [keys map fst] in N. inversion N as [|? ? Hn N']; subst.
  cbn [filter].
  destruct (f (k', v')) eqn:Ef; cbn [assoc].
  - destruct (String.eqb k k'); [reflexivity|]. apply IH. exact N'.
  - apply F in Ef. cbn [snd] in Ef. subst v'.
    destruct (String.eqb k k') eqn:E.
    + apply String.eqb_eq in E. subst k'.
      rewrite (IH N'). rewrite (assoc_none _ _ Hn). reflexivity.
    + apply IH. exact N'.
Qed.

Lemma keys_filter_NoDup (f : string * value -> bool) (ps : props) :
  NoDup (keys ps) -> NoDup (keys (filter f ps)).
Proof.
  induction ps as [|[k v] ps IH]; intros N; [exact N|].
  cbn [keys map fst] in N. inversion N as [|? ? Hn N']; subst.
  cbn [filter].
  destruct (f (k, v)).
  - cbn [keys map fst]. constructor; [|apply IH; exact N'].
    intros Hin. apply Hn. unfold keys in *.
    apply in_map_iff in Hin. destruct Hin as (kv & <- & Hin).
    apply in_map. apply filter_In in Hin. apply Hin.
  - apply IH. exact N'.
Qed.

Lemma stripped_filter (ps : props) :
  exists f, stripped ps = filter f ps /\ only_undefined f.
Proof.
  unfold stripped. destruct (array_like ps) as [x|].
  - eexists. split; [reflexivity|].
    intros [k v] H. cbn [fst snd] in *.
    destruct v; try discriminate. reflexivity.
  - eexists. split; [reflexivity|].
    intros [k v] H. cbn [fst snd] in *.
    destruct v; try discriminate. reflexivity.
Qed.

Lemma lookup_stripped (ps : props) (k : string) :
  NoDup (keys ps) ->
  Facade.lookup (stripped ps) k = Facade.lookup ps k.
Proof.
  intros N. destruct (stripped_filter ps) as (f & -> & F).
  apply lookup_filter; assumption.
Qed.

Lemma keys_stripped (ps : props) :
  NoDup (keys ps) -> NoDup (keys (stripped ps)).
Proof.
  intros N. destruct (stripped_filter ps) as (f & -> & F).
  apply keys_filter_NoDup. exact N.
Qed.

Lemma all_plain_stripped (ps : props) :
  all_plain ps -> all_plain (stripped ps).
Proof.
  intros P kv Hin. apply P.
  destruct (stripped_filter ps) as (f & E & F). rewrite E in Hin.
  apply filter_In in Hin. apply Hin.
Qed.

(** The walk looks at the length only, which stays. *)
Lemma array_like_stripped (ps : props) :
  NoDup (keys ps) -> array_like (stripped ps) = array_like ps.
Proof.
  intros N. pose proof (lookup_stripped ps "length" N) as E.
  unfold Facade.lookup in E. unfold array_like.
  destruct (assoc "length" (stripped ps)) as [a|] eqn:Ea;
    destruct (assoc "length" ps) as [b|] eqn:Eb; subst; reflexivity.
Qed.

Lemma endless_stripped (ps : props) :
  NoDup (keys ps) -> endless (stripped ps) = endless ps.
Proof.
  intros N. unfold endless. rewrite (array_like_stripped ps N). reflexivity.
Qed.

Lemma filter_twice {A} (f : A -> bool) (l : list A) :
  filter f (filter f l) = filter f l.
Proof.
  induction l as [|x l IH]; [reflexivity|].
  cbn [filter]. destruct (f x) eqn:E; [|exact IH].
  cbn [filter]. rewrite E, IH. reflexivity.
Qed.

Lemma stripped_twice (ps : props) :
  NoDup (keys ps) -> stripped (stripped ps) = stripped ps.
Proof.
  intros N. unfold stripped at 1. rewrite (array_like_stripped ps N).
  unfold stripped. destruct (array_like ps) as [x|].
  - apply filter_twice.
  - apply filter_twice.
Qed.

(** The operational keys, whose absence makes a mapping a [where]
    clause. *)
Definition operational (ps : props) : bool :=
  truthy (Facade.lookup ps "where") || truthy (Facade.lookup ps "limit")
  || truthy (Facade.lookup ps "skip") || truthy (Facade.lookup ps "offset")
  || truthy (Facade.lookup ps "order").

Lemma operational_stripped (ps : props) :
  NoDup (keys ps) -> operational (stripped ps) = operational ps.
Proof.
  intros N. unfold operational.
  rewrite !lookup_stripped by exact N. reflexivity.
Qed.

(** The start of [normalizeCriteria] on an object: the undefined
    properties are deleted, and the object is wrapped when it has no
    operational key. *)
Lemma normalize_object_start (w : world) (l : loc) (ps : props)
      (B : Type) (k : value -> M B) :
  nth_error (w_heap w) l = Some (CObj ps) ->
  endless ps = false ->
  let w1 := set_heap (heap_set l (CObj (stripped ps)) (w_heap w)) w in
  (criteria <- normalizeCriteria (VRef l) ;; k criteria) w
  = (criteria <-
       (if negb (operational (stripped ps))
        then alloc (CObj [("where", VRef l)])
        else ret (VRef l)) ;;
     wv <- getp criteria "where" ;;
     h <- read_heap ;;
     for_each (keys (own_props h wv)) (coerce_attr criteria) ;;
     normalize_sort criteria ;;
     k criteria) w1.
Proof.
  intros H He w1.
  assert (H1 : nth_error (w_heap w1) l = Some (CObj (stripped ps))).
  { unfold w1. cbn [set_heap w_heap]. apply (nth_error_heap_set _ H). }
  unfold normalizeCriteria. cbn [truthy negb].
  rewrite bind_assoc.
  erewrite bind_ok by (exact (strip_undefined_at H He)). fold w1.
  rewrite bind_assoc.
  erewrite bind_ok by (exact (to_number_obj H1)).
  cbn [isFinite isString orb andb].
  rewrite bind_assoc. unfold ret at 1. unfold bind at 1.
  cbn [isObject negb].
  rewrite bind_assoc.
  erewrite bind_ok by (exact (getp_obj "where" H1)).
  rewrite bind_assoc.
  erewrite bind_ok by (exact (getp_obj "limit" H1)).
  rewrite bind_assoc.
  erewrite bind_ok by (exact (getp_obj "skip" H1)).
  rewrite bind_assoc.
  erewrite bind_ok by (exact (getp_obj "offset" H1)).
  rewrite bind_assoc.
  erewrite bind_ok by (exact (getp_obj "order" H1)).
  fold (Facade.lookup (stripped ps) "where").
  fold (Facade.lookup (stripped ps) "limit").
  fold (Facade.lookup (stripped ps) "skip").
  fold (Facade.lookup (stripped ps) "offset").
  fold (Facade.lookup (stripped ps) "order").
  replace (negb (truthy (Facade.lookup (stripped ps) "where"))
           && negb (truthy (Facade.lookup (stripped ps) "limit"))
           && negb (truthy (Facade.lookup (stripped ps) "skip"))
           && negb (truthy (Facade.lookup (stripped ps) "offset"))
           && negb (truthy (Facade.lookup (stripped ps) "order")))
    with (negb (operational (stripped ps))).
  2:{ unfold operational. rewrite !negb_orb. reflexivity. }
  rewrite bind_assoc.
  unfold bind.
  destruct ((if negb (operational (stripped ps))
             then alloc (CObj [("where", VRef l)]) else ret (VRef l)) w1)
    as [[c|e] w2]; [|reflexivity].
  destruct (getp c "where" w2) as [[wv|e] w3]; [|reflexivity].
  unfold read_heap.
  destruct (for_each (keys (own_props (w_heap w3) wv)) (coerce_attr c) w3)
    as [[[]|e] w4]; [|reflexivity].
  destruct (normalize_sort c w4) as [[[]|e] w5]; reflexivity.
Qed.


(** An object whose numeric [length] is beyond what the walk can count
    to: the normaliser does not return. *)
Lemma normalize_object_endless (w : world) (l : loc) (ps : props)
      (B : Type) (k : value -> M B) :
  nth_error (w_heap w) l = Some (CObj ps) ->
  endless ps = true ->
  (criteria <- normalizeCriteria (VRef l) ;; k criteria) w
  = (Throw Endless,
     set_heap (heap_set l (CObj (stripped ps)) (w_heap w)) w).
Proof.
  intros H He. unfold normalizeCriteria. cbn [truthy negb].
  rewrite bind_assoc.
  erewrite bind_throw by (exact (strip_undefined_endless H He)).
  reflexivity.
Qed.

Lemma normalize_sort_none (w : world) (c : loc) (cps : props) :
  nth_error (w_heap w) c = Some (CObj cps) ->
  truthy (Facade.lookup cps "sort") = false ->
  normalize_sort (VRef c) w = (Ok tt, w).
Proof.
  intros Hc Hs. unfold normalize_sort.
  erewrite bind_ok by (exact (getp_obj "sort" Hc)).
  fold (Facade.lookup cps "sort"). rewrite Hs. reflexivity.
Qed.

(** A mapping without operational keys, in continuation form. *)
Lemma normalize_mapping_then (w : world) (l : loc) (ps : props)
      (B : Type) (k : value -> M B) :
  nth_error (w_heap w) l = Some (CObj ps) ->
  NoDup (keys ps) ->
  all_plain ps ->
  operational ps = false ->
  endless ps = false ->
  (criteria <- normalizeCriteria (VRef l) ;; k criteria) w
  = k (VRef (List.length (w_heap w)))
      (set_heap
         (heap_set l (CObj (coerced (stripped ps))) (w_heap w)
          ++ [CObj [("where", VRef l)]])%list w).
Proof.
  intros H N P Hop He.
  rewrite (@normalize_object_start w l ps B k H He).
  rewrite (operational_stripped ps N), Hop. cbn [negb].
  set (h1 := heap_set l (CObj (stripped ps)) (w_heap w)).
  assert (Hl1 : nth_error h1 l = Some (CObj (stripped ps))).
  { apply (nth_error_heap_set _ H). }
  assert (Hlen : List.length h1 = List.length (w_heap w)).
  { apply length_heap_set. }
  erewrite bind_ok by (apply alloc_at).
  cbn [set_heap w_heap]. rewrite set_heap_twice.
  set (w2 := set_heap (h1 ++ _)%list w).
  assert (Hc2 : nth_error (w_heap w2) (List.length h1)
                = Some (CObj [("where", VRef l)])).
  { apply nth_error_fresh. }
  assert (Hl2 : nth_error (w_heap w2) l
                = Some (CObj ([] ++ stripped ps)%list)).
  { apply nth_error_old. exact Hl1. }
  assert (Hne : List.length h1 <> l).
  { intros E. assert (l < List.length h1) by
        (apply nth_error_Some; congruence). lia. }
  erewrite bind_ok by (exact (getp_obj "where" Hc2)).
  cbn [assoc String.eqb Ascii.eqb Bool.eqb].
  unfold read_heap at 1. unfold bind at 1.
  cbn [own_props]. rewrite Hl2. cbn [app].
  erewrite bind_ok.
  2:{ apply (@where_loop (List.length h1) l [("where", VRef l)] Hne eq_refl
               (stripped ps) [] w2 Hc2 Hl2).
      - apply keys_stripped. exact N.
      - apply all_plain_stripped. exact P. }
  erewrite bind_ok.
  2:{ apply normalize_sort_none with (cps := [("where", VRef l)]).
      - cbn [set_heap w_heap]. rewrite nth_error_heap_set_other by exact Hne.
        exact Hc2.
      - reflexivity. }
  rewrite Hlen. f_equal.
  unfold w2. cbn [w_heap set_heap app]. rewrite set_heap_twice.
  rewrite (heap_set_app _ _ _ _ _ Hl1). unfold h1. rewrite heap_set_twice.
  reflexivity.
Qed.


Lemma bind_ret {A} (m : M A) (w : world) : (x <- m ;; ret x) w = m w.
Proof. unfold bind, ret. destruct (m w) as [[a|e] w']; reflexivity. Qed.

(** A criterion with a [where] object of its own, in continuation
    form: up to the sort criteria. *)
Lemma normalize_where_then (w : world) (c lw : loc) (cps qs : props)
      (B : Type) (k : value -> M B) :
  nth_error (w_heap w) c = Some (CObj cps) ->
  NoDup (keys cps) ->
  Facade.lookup cps "where" = VRef lw ->
  c <> lw ->
  nth_error (w_heap w) lw = Some (CObj qs) ->
  NoDup (keys qs) ->
  all_plain qs ->
  endless cps = false ->
  (criteria <- normalizeCriteria (VRef c) ;; k criteria) w
  = (normalize_sort (VRef c) ;; k (VRef c))
      (set_heap
         (heap_set lw (CObj (coerced qs))
                   (heap_set c (CObj (stripped cps)) (w_heap w))) w).
Proof.
  intros Hc N Hw Hne Hlw Nq Pq He.
  rewrite (normalize_object_start w c cps B k Hc He).
  assert (Hop : operational (stripped cps) = true).
  { rewrite (operational_stripped cps N). unfold operational.
    rewrite Hw. reflexivity. }
  rewrite Hop. cbn [negb].
  set (h1 := heap_set c (CObj (stripped cps)) (w_heap w)).
  set (w1 := set_heap h1 w).
  assert (Hc1 : nth_error (w_heap w1) c = Some (CObj (stripped cps))).
  { apply (nth_error_heap_set _ Hc). }
  assert (Hlw1 : nth_error (w_heap w1) lw = Some (CObj ([] ++ qs)%list)).
  { unfold w1, h1. cbn [set_heap w_heap app].
    rewrite nth_error_heap_set_other by congruence. exact Hlw. }
  assert (Hw1 : assoc "where" (stripped cps) = Some (VRef lw)).
  { pose proof (lookup_stripped cps "where" N) as E.
    rewrite Hw in E. unfold Facade.lookup in E.
    destruct (assoc "where" (stripped cps)); congruence. }
  unfold ret at 1. unfold bind at 1.
  erewrite bind_ok by (exact (getp_obj "where" Hc1)). rewrite Hw1.
  unfold read_heap at 1. unfold bind at 1.
  cbn [own_props]. rewrite Hlw1. cbn [app].
  erewrite bind_ok.
  2:{ apply (where_loop c lw (stripped cps) Hne Hw1 qs [] w1 Hc1 Hlw1
               Nq Pq). }
  cbn [app]. unfold w1. rewrite set_heap_twice. cbn [set_heap w_heap].
  reflexivity.
Qed.

(** A criterion whose [where] is no object, and which has an
    operational key, in continuation form: up to the sort criteria. *)
Lemma normalize_nowhere_then (w : world) (c : loc) (cps : props)
      (B : Type) (k : value -> M B) :
  nth_error (w_heap w) c = Some (CObj cps) ->
  NoDup (keys cps) ->
  plain (Facade.lookup cps "where") = true ->
  operational cps = true ->
  endless cps = false ->
  (criteria <- normalizeCriteria (VRef c) ;; k criteria) w
  = (normalize_sort (VRef c) ;; k (VRef c))
      (set_heap (heap_set c (CObj (stripped cps)) (w_heap w)) w).
Proof.
  intros Hc N Hw Hop He.
  rewrite (normalize_object_start w c cps B k Hc He).
  rewrite (operational_stripped cps N), Hop. cbn [negb].
  set (w1 := set_heap _ w).
  assert (Hc1 : nth_error (w_heap w1) c = Some (CObj (stripped cps))).
  { apply (nth_error_heap_set _ Hc). }
  unfold ret at 1. unfold bind at 1.
  erewrite bind_ok by (exact (getp_obj "where" Hc1)).
  fold (Facade.lookup (stripped cps) "where").
  rewrite (lookup_stripped cps "where" N).
  unfold read_heap at 1. unfold bind at 1.
  destruct (Facade.lookup cps "where"); try discriminate;
    cbn [own_props keys map for_each]; reflexivity.
Qed.

Lemma normalize_mapping_run (w : world) (l : loc) (ps : props) :
  nth_error (w_heap w) l = Some (CObj ps) ->
  NoDup (keys ps) ->
  all_plain ps ->
  operational ps = false ->
  endless ps = false ->
  run (normalizeCriteria (VRef l)) w
  = (Ok (VRef (List.length (w_heap w))),
     set_heap
       (heap_set l (CObj (coerced (stripped ps))) (w_heap w)
        ++ [CObj [("where", VRef l)]])%list w).
Proof.
  intros H N P Hop He. unfold run.
  rewrite <- bind_ret.
  apply (normalize_mapping_then w l ps value (fun c => ret c) H N P Hop He).
Qed.

(** X1.  Normalising a mapping that has none of the keys [where], [limit],
    [skip], [offset], [order] rewrites the caller's object in place and
    wraps it.  The properties that are [undefined] are deleted from it;
    when the mapping carries a [length] that is a number, only those
    are deleted that are named by an index below that length, and the
    others stay.  Every value whose number has a square above zero is
    replaced by that number (a numeric text, [true], a date), the other
    values and the order of the keys are kept; the result is a new
    object whose only property, [where], is the caller's object itself.
    (A length above 2^53 is excluded: walking up to it never ends.) *)
Theorem normalize_mapping_in_place (w : world) (l : loc) (ps : props) :
  nth_error (w_heap w) l = Some (CObj ps) ->
  NoDup (keys ps) ->
  all_plain ps ->
  operational ps = false ->
  endless ps = false ->
  run (normalizeCriteria (VRef l)) w
  = (Ok (VRef (List.length (w_heap w))),
     set_heap
       (heap_set l (CObj (coerced (stripped ps))) (w_heap w)
        ++ [CObj [("where", VRef l)]])%list w).
Proof. exact (normalize_mapping_run w l ps). Qed.

Lemma normalize_mapping_in_place_witness :
  let w := Samples.world_of
             [CObj [("name", VStr "x"); ("age", VStr "30");
                    ("active", VBool true); ("nick", VUndefined)];
              CObj [("0", VUndefined); ("length", VNum (of_Z 1));
                    ("nick", VUndefined)]] in
  run (normalizeCriteria (VRef 0)) w
  = (Ok (VRef 2),
     set_heap [CObj [("name", VStr "x"); ("age", VNum (of_Z 30));
                     ("active", VNum (of_Z 1))];
               CObj [("0", VUndefined); ("length", VNum (of_Z 1));
                     ("nick", VUndefined)];
               CObj [("where", VRef 0)]] w)
  /\ run (normalizeCriteria (VRef 1)) w
     = (Ok (VRef 2),
        set_heap [CObj [("name", VStr "x"); ("age", VStr "30");
                        ("active", VBool true); ("nick", VUndefined)];
                  CObj [("length", VNum (of_Z 1)); ("nick", VUndefined)];
                  CObj [("where", VRef 1)]] w).
Proof.
  intros w. split.
  - refine (normalize_mapping_in_place w 0
              [("name", VStr "x"); ("age", VStr "30");
               ("active", VBool true); ("nick", VUndefined)]
              eq_refl _ _ eq_refl eq_refl).
    + repeat constructor; simpl; intuition discriminate.
    + intros kv Hin. simpl in Hin.
      repeat (destruct Hin as [<-|Hin]; [reflexivity|]). destruct Hin.
  - refine (normalize_mapping_in_place w 1
              [("0", VUndefined); ("length", VNum (of_Z 1));
               ("nick", VUndefined)]
              eq_refl _ _ eq_refl eq_refl).
    + repeat constructor; simpl; intuition discriminate.
    + intros kv Hin. simpl in Hin.
      repeat (destruct Hin as [<-|Hin]; [reflexivity|]). destruct Hin.
Defined.


Lemma normalize_where_run (w : world) (c lw : loc)
        (cps qs : props) :
  nth_error (w_heap w) c = Some (CObj cps) ->
  NoDup (keys cps) ->
  Facade.lookup cps "where" = VRef lw ->
  truthy (Facade.lookup cps "sort") = false ->
  c <> lw ->
  nth_error (w_heap w) lw = Some (CObj qs) ->
  NoDup (keys qs) ->
  all_plain qs ->
  endless cps = false ->
  run (normalizeCriteria (VRef c)) w
  = (Ok (VRef c),
     set_heap
       (heap_set lw (CObj (coerced qs))
                 (heap_set c (CObj (stripped cps)) (w_heap w))) w).
Proof.
  intros Hc N Hw Hs Hne Hlw Nq Pq He. unfold run.
  rewrite <- bind_ret.
  rewrite (normalize_where_then w c lw cps qs value (fun x => ret x)
             Hc N Hw Hne Hlw Nq Pq He).
  erewrite bind_ok; [reflexivity|].
  apply normalize_sort_none with (cps := stripped cps).
  - cbn [set_heap w_heap].
    rewrite nth_error_heap_set_other by exact Hne.
    apply (nth_error_heap_set _ Hc).
  - rewrite (lookup_stripped cps "sort" N). exact Hs.
Qed.

(** X2.  Normalising a criterion that carries its own [where] object (and no
    sort criteria) returns the criterion itself; the [where] object is
    rewritten in place, every value whose number has a square above
    zero being replaced by that number, and the criterion loses its
    properties that are [undefined] (when it carries a [length] that is
    a number: those of them that are named by an index below that
    length; a length above 2^53 is excluded, walking up to it never
    ends). *)
Theorem normalize_where_in_place (w : world) (c lw : loc)
        (cps qs : props) :
  nth_error (w_heap w) c = Some (CObj cps) ->
  NoDup (keys cps) ->
  Facade.lookup cps "where" = VRef lw ->
  truthy (Facade.lookup cps "sort") = false ->
  c <> lw ->
  nth_error (w_heap w) lw = Some (CObj qs) ->
  NoDup (keys qs) ->
  all_plain qs ->
  endless cps = false ->
  run (normalizeCriteria (VRef c)) w
  = (Ok (VRef c),
     set_heap
       (heap_set lw (CObj (coerced qs))
                 (heap_set c (CObj (stripped cps)) (w_heap w))) w).
Proof. exact (normalize_where_run w c lw cps qs). Qed.

Lemma normalize_where_in_place_witness :
  let w := Samples.world_of
             [CObj [("where", VRef 1); ("limit", VNum (of_Z 5))];
              CObj [("age", VStr "30"); ("name", VStr "x")]] in
  run (normalizeCriteria (VRef 0)) w
  = (Ok (VRef 0),
     set_heap [CObj [("where", VRef 1); ("limit", VNum (of_Z 5))];
               CObj [("age", VNum (of_Z 30)); ("name", VStr "x")]] w).
Proof.
  intros w.
  refine (normalize_where_in_place w 0 1
            [("where", VRef 1); ("limit", VNum (of_Z 5))]
            [("age", VStr "30"); ("name", VStr "x")]
            eq_refl _ eq_refl eq_refl _ eq_refl _ _ eq_refl).
  - repeat constructor; simpl; intuition discriminate.
  - discriminate.
  - repeat constructor; simpl; intuition discriminate.
  - intros kv Hin. simpl in Hin.
    repeat (destruct Hin as [<-|Hin]; [reflexivity|]). destruct Hin.
Defined.

(** X3.  On a mapping without operational keys [normalizeCriteria] is
    idempotent: normalising its result once more returns that result
    and changes nothing. *)
Theorem normalize_mapping_twice (w : world) (l : loc) (ps : props) :
  nth_error (w_heap w) l = Some (CObj ps) ->
  NoDup (keys ps) ->
  all_plain ps ->
  operational ps = false ->
  run (c <- normalizeCriteria (VRef l) ;; normalizeCriteria c) w
  = run (normalizeCriteria (VRef l)) w.
Proof.
  intros H N P Hop.
  destruct (endless ps) eqn:He.
  { unfold run.
    rewrite (normalize_object_endless w l ps value normalizeCriteria H He).
    rewrite <- (bind_ret (normalizeCriteria (VRef l)) w).
    rewrite (normalize_object_endless w l ps value (fun c => ret c) H He).
    reflexivity. }
  rewrite (normalize_mapping_run w l ps H N P Hop He). unfold run.
  rewrite (normalize_mapping_then w l ps value normalizeCriteria H N P Hop
             He).
  set (n := List.length (w_heap w)).
  set (h1 := heap_set l (CObj (coerced (stripped ps))) (w_heap w)).
  assert (Hl1 : nth_error h1 l = Some (CObj (coerced (stripped ps)))).
  { apply (nth_error_heap_set _ H). }
  assert (Hn : n = List.length h1).
  { unfold h1. rewrite length_heap_set. reflexivity. }
  assert (Hne : n <> l).
  { intros E. assert (l < List.length h1) by
        (apply nth_error_Some; congruence). lia. }
  set (w2 := set_heap (h1 ++ _)%list w).
  assert (Hc2 : nth_error (w_heap w2) n = Some (CObj [("where", VRef l)])).
  { rewrite Hn. apply nth_error_fresh. }
  assert (Hl2 : nth_error (w_heap w2) l
                = Some (CObj (coerced (stripped ps)))).
  { apply nth_error_old. exact Hl1. }
  change (normalizeCriteria (VRef n) w2)
    with (run (normalizeCriteria (VRef n)) w2).
  rewrite (normalize_where_run w2 n l [("where", VRef l)]
             (coerced (stripped ps)) Hc2).
  - f_equal. rewrite coerced_twice.
    change (stripped [("where", VRef l)]) with [("where", VRef l)].
    rewrite (heap_set_same Hc2). rewrite (heap_set_same Hl2).
    unfold w2. reflexivity.
  - repeat constructor. simpl. tauto.
  - reflexivity.
  - reflexivity.
  - exact Hne.
  - exact Hl2.
  - rewrite keys_coerced. apply keys_stripped. exact N.
  - apply all_plain_coerced. apply all_plain_stripped. exact P.
  - reflexivity.
Qed.

Lemma normalize_mapping_twice_witness :
  let w := Samples.world_of [CObj [("name", VStr "x"); ("age", VStr "30")]] in
  run (c <- normalizeCriteria (VRef 0) ;; normalizeCriteria c) w
  = run (normalizeCriteria (VRef 0)) w.
Proof.
  intros w.
  refine (normalize_mapping_twice w 0 [("name", VStr "x"); ("age", VStr "30")]
            eq_refl _ _ eq_refl).
  - repeat constructor; simpl; intuition discriminate.
  - intros kv Hin. simpl in Hin.
    repeat (destruct Hin as [<-|Hin]; [reflexivity|]). destruct Hin.
Defined.


Lemma positive_is_truthy (x : number) :
  gtb x zero = true -> is_zero x = false /\ is_nan x = false.
Proof.
  destruct x as [b|b| |b m e]; simpl; intros H; try discriminate; auto.
Qed.

Lemma coerce_number (x : number) : coerce (VNum x) = VNum x.
Proof. unfold coerce. cbn [ToNumber]. destruct (gtb _ _); reflexivity. Qed.

(** X4.  A positive finite number, or a text that reads as a number above
    zero (finite or not), is taken as an id: the result is a new
    criterion [{ where: { id: n } }] with [n] the number read.
    Normalising that result once more changes nothing. *)
Theorem normalize_id (v : value) (w : world) :
  (isFinite v || isString v) = true ->
  gtb (ToNumber [] v) zero = true ->
  let n := List.length (w_heap w) in
  let w' := set_heap (w_heap w ++ [CObj [("id", VNum (ToNumber [] v))];
                                   CObj [("where", VRef n)]])%list w in
  run (normalizeCriteria v) w = (Ok (VRef (S n)), w')
  /\ run (normalizeCriteria (VRef (S n))) w' = (Ok (VRef (S n)), w').
Proof.
  intros Hk Hpos n w'.
  assert (Hp : plain v = true) by (destruct v; try discriminate; reflexivity).
  assert (Ht : truthy v = true).
  { destruct v as [| | |x|s| | |]; try discriminate.
    - cbn [ToNumber] in Hpos. destruct (positive_is_truthy x Hpos) as [Z N].
      cbn [truthy]. rewrite Z, N. reflexivity.
    - cbn [truthy]. destruct (String.eqb s "") eqn:E; [|reflexivity].
      apply String.eqb_eq in E. subst s. discriminate. }
  set (x := ToNumber [] v) in *.
  set (w1 := set_heap (w_heap w ++ [CObj [("id", VNum x)]])%list w).
  assert (H1 : nth_error (w_heap w1) n = Some (CObj [("id", VNum x)])).
  { apply nth_error_fresh. }
  assert (E1 : run (normalizeCriteria v) w
               = run (normalizeCriteria (VRef n)) w1).
  { unfold run, normalizeCriteria. rewrite Ht. cbn [truthy negb].
    assert (Es : strip_undefined v w = (Ok tt, w)).
    { destruct v; try discriminate; reflexivity. }
    erewrite bind_ok by (exact Es).
    erewrite bind_ok by (exact (to_number_plain v w Hp)).
    fold x. rewrite Hk, Hpos. cbn [andb].
    erewrite bind_ok by (apply alloc_at). fold n. fold w1.
    erewrite bind_ok by (exact (strip_undefined_obj H1 eq_refl eq_refl)).
    erewrite bind_ok by (exact (to_number_obj H1)).
    cbn [isFinite isString orb andb]. unfold ret at 3. unfold bind at 6.
    reflexivity. }
  assert (N1 : NoDup (keys [("id", VNum x)])).
  { repeat constructor. simpl. tauto. }
  assert (P1 : all_plain [("id", VNum x)]).
  { intros kv [<-|[]]. reflexivity. }
  assert (E2 : run (normalizeCriteria (VRef n)) w1 = (Ok (VRef (S n)), w')).
  { rewrite (normalize_mapping_run w1 n [("id", VNum x)] H1 N1 P1 eq_refl
               eq_refl).
    unfold w1. cbn [set_heap w_heap]. rewrite length_app. cbn [List.length].
    f_equal.
    - f_equal. f_equal. unfold n. lia.
    - change (coerced (stripped [("id", VNum x)]))
        with [("id", coerce (VNum x))].
      rewrite coerce_number.
      rewrite (heap_set_same (h := (w_heap w ++ [CObj [("id", VNum x)]])%list)
                 (l := n) (c := CObj [("id", VNum x)])) by exact H1.
      unfold w'. rewrite <- app_assoc. reflexivity. }
  split.
  - rewrite E1. exact E2.
  - assert (Hn' : nth_error (w_heap w') n = Some (CObj [("id", VNum x)])).
    { unfold w'. cbn [set_heap w_heap].
      change [CObj [("id", VNum x)]; CObj [("where", VRef n)]]
        with ([CObj [("id", VNum x)]] ++ [CObj [("where", VRef n)]])%list.
      rewrite app_assoc. apply nth_error_old. apply nth_error_fresh. }
    assert (Hs' : nth_error (w_heap w') (S n)
                  = Some (CObj [("where", VRef n)])).
    { unfold w'. cbn [set_heap w_heap].
      change [CObj [("id", VNum x)]; CObj [("where", VRef n)]]
        with ([CObj [("id", VNum x)]] ++ [CObj [("where", VRef n)]])%list.
      rewrite app_assoc.
      replace (S n) with (List.length (w_heap w ++ [CObj [("id", VNum x)]])%list)
        by (rewrite length_app; cbn [List.length]; fold n; lia).
      apply nth_error_fresh. }
    rewrite (normalize_where_run w' (S n) n [("where", VRef n)]
               [("id", VNum x)] Hs').
    + f_equal.
      change (coerced [("id", VNum x)]) with [("id", coerce (VNum x))].
      rewrite coerce_number.
      change (stripped [("where", VRef n)]) with [("where", VRef n)].
      rewrite (heap_set_same Hs'). rewrite (heap_set_same Hn').
      apply set_heap_same.
    + repeat constructor. simpl. tauto.
    + reflexivity.
    + reflexivity.
    + lia.
    + exact Hn'.
    + exact N1.
    + exact P1.
    + reflexivity.
Qed.

Lemma normalize_id_witness :
  run (normalizeCriteria (VStr "42")) (Samples.world_of [])
  = (Ok (VRef 1),
     set_heap [CObj [("id", VNum (of_Z 42))]; CObj [("where", VRef 0)]]
              (Samples.world_of [])).
Proof.
  exact (proj1 (normalize_id (VStr "42") (Samples.world_of [])
                  eq_refl eq_refl)).
Defined.

Lemma normalize_primitive_run (v : value) (w : world) :
  isObject v = false ->
  ((isFinite v || isString v) && gtb (ToNumber [] v) zero) = false ->
  run (normalizeCriteria v) w
  = if truthy v
    then (Ok (VStr ("Invalid options/criteria :: " ++ ToStringPrim v)), w)
    else (Ok (VRef (List.length (w_heap w))),
          set_heap (w_heap w ++ [CObj [("where", VNull)]])%list w).
Proof.
  intros Ho Hk.
  assert (Hp : plain v = true) by (destruct v; try discriminate; reflexivity).
  unfold run, normalizeCriteria.
  destruct (truthy v) eqn:Ht; cbn [negb]; [|reflexivity].
  assert (Es : strip_undefined v w = (Ok tt, w)).
  { destruct v; try discriminate; reflexivity. }
  erewrite bind_ok by (exact Es).
  erewrite bind_ok by (exact (to_number_plain v w Hp)).
  rewrite Hk. unfold ret at 1. unfold bind at 1. rewrite Ho. reflexivity.
Qed.

(** X5.  On any other primitive [normalizeCriteria] neither throws nor
    changes anything that exists: a falsy one ([undefined], [null],
    [false], [0], [NaN], the empty text) gives a new criterion
    [{ where: null }], and a truthy one ([true], a negative or infinite
    number, a text that does not read as a number above zero) gives the
    text "Invalid options/criteria :: " followed by the text of the
    value. *)
Theorem normalize_not_an_id (v : value) (w : world) :
  isObject v = false ->
  ((isFinite v || isString v) && gtb (ToNumber [] v) zero) = false ->
  run (normalizeCriteria v) w
  = if truthy v
    then (Ok (VStr ("Invalid options/criteria :: " ++ ToStringPrim v)), w)
    else (Ok (VRef (List.length (w_heap w))),
          set_heap (w_heap w ++ [CObj [("where", VNull)]])%list w).
Proof. exact (normalize_primitive_run v w). Qed.

Lemma normalize_not_an_id_witness :
  run (normalizeCriteria (VNum Infinity)) (Samples.world_of [])
  = (Ok (VStr "Invalid options/criteria :: Infinity"), Samples.world_of []).
Proof.
  exact (normalize_not_an_id (VNum Infinity) (Samples.world_of [])
           eq_refl eq_refl).
Defined.


(** A criterion [{ where: o }] whose object [o] holds nothing that the
    loop would replace, in continuation form: nothing changes. *)
Lemma normalize_wrapped_then (w : world) (n l : loc) (qs : props)
      (B : Type) (k : value -> M B) :
  nth_error (w_heap w) n = Some (CObj [("where", VRef l)]) ->
  nth_error (w_heap w) l = Some (CObj qs) ->
  n <> l ->
  NoDup (keys qs) ->
  all_plain qs ->
  coerced qs = qs ->
  (criteria <- normalizeCriteria (VRef n) ;; k criteria) w = k (VRef n) w.
Proof.
  intros Hn Hl Hne N P E.
  rewrite (normalize_where_then w n l [("where", VRef l)] qs B k Hn).
  - rewrite E.
    change (stripped [("where", VRef l)]) with [("where", VRef l)].
    rewrite (heap_set_same Hn), (heap_set_same Hl), set_heap_same.
    erewrite bind_ok; [reflexivity|].
    apply (normalize_sort_none w n [("where", VRef l)] Hn). reflexivity.
  - repeat constructor. simpl. tauto.
  - reflexivity.
  - exact Hne.
  - exact Hl.
  - exact N.
  - exact P.
  - reflexivity.
Qed.

(** The world that normalising a mapping without operational keys
    leaves: what it holds at the mapping and at the new criterion. *)
Lemma normalized_mapping_cells (h : heap) (l : loc) (ps : props) :
  nth_error h l = Some (CObj ps) ->
  let h' := (heap_set l (CObj (coerced (stripped ps))) h
             ++ [CObj [("where", VRef l)]])%list in
  nth_error h' (List.length h) = Some (CObj [("where", VRef l)])
  /\ nth_error h' l = Some (CObj (coerced (stripped ps)))
  /\ List.length h <> l.
Proof.
  intros H h'. repeat split.
  - unfold h'.
    rewrite <- (length_heap_set h l (CObj (coerced (stripped ps)))).
    apply nth_error_fresh.
  - unfold h'. apply nth_error_old. apply (nth_error_heap_set _ H).
  - intros E. assert (l < List.length h) by
        (apply nth_error_Some; congruence). lia.
Qed.

End CriteriaMore.

(* ===================================================================== *)
(** * The sort criteria                                                    *)
(* ===================================================================== *)

Module SortFacts.

Import Num JS Eff Criteria CriteriaFacts FacadeFacts Steps CriteriaMore.
Local Open Scope string_scope.
Local Open Scope eff_scope.

(** A word: a text that is not empty and holds no blank. *)
Definition word (s : string) : Prop :=
  s <> "" /\ forall ch, In ch (list_ascii_of_string s) -> is_space ch = false.

Lemma list_ascii_app (s t : string) :
  list_ascii_of_string (s ++ t)
  = (list_ascii_of_string s ++ list_ascii_of_string t)%list.
Proof. induction s as [|ch s IH]; simpl; [reflexivity|]. rewrite IH. reflexivity. Qed.

Lemma word_chars (s : string) :
  word s ->
  exists ch r, list_ascii_of_string s = ch :: r /\ is_space ch = false.
Proof.
  intros [Hne Hb]. destruct s as [|ch s]; [congruence|].
  exists ch, (list_ascii_of_string s). split; [reflexivity|].
  apply Hb. left. reflexivity.
Qed.

Lemma word_last (s : string) :
  word s ->
  exists r ch, list_ascii_of_string s = (r ++ [ch])%list /\ is_space ch = false.
Proof.
  intros [Hne Hb].
  destruct (list_ascii_of_string s) as [|c0 l0] eqn:E.
  - destruct s; [congruence|discriminate].
  - destruct (exists_last (l := c0 :: l0)) as (r & ch & Er); [discriminate|].
    exists r, ch. split; [exact Er|].
    apply Hb. rewrite Er. apply in_or_app. right. left. reflexivity.
Qed.

Lemma trim_keeps (l r : list ascii) (a z : ascii) :
  is_space a = false -> is_space z = false ->
  a :: l = (r ++ [z])%list ->
  trim (a :: l) = a :: l.
Proof.
  intros Ha Hz E. unfold trim. cbn [drop_spaces]. rewrite Ha.
  rewrite E. rewrite rev_app_distr. cbn [rev app drop_spaces]. rewrite Hz.
  change (z :: rev r) with (rev [z] ++ rev r)%list.
  rewrite <- rev_app_distr. apply rev_involutive.
Qed.

Lemma split_blanks_word (la : list ascii) :
  (forall ch, In ch la -> is_space ch = false) ->
  forall cur rest,
    split_blanks cur (la ++ rest) = split_blanks (rev la ++ cur) rest.
Proof.
  induction la as [|ch la IH]; intros Hb cur rest; [reflexivity|].
  cbn [app split_blanks]. rewrite (Hb ch) by (left; reflexivity).
  rewrite IH by (intros c Hc; apply Hb; right; exact Hc).
  cbn [rev]. rewrite <- app_assoc. reflexivity.
Qed.

Lemma words_one (a : string) : word a -> words a = [a].
Proof.
  intros Wa. destruct (word_chars a Wa) as (c0 & r0 & E0 & H0).
  destruct (word_last a Wa) as (r1 & c1 & E1 & H1).
  unfold words. rewrite E0.
  rewrite (trim_keeps r0 r1 c0 c1 H0 H1) by congruence.
  rewrite <- E0.
  rewrite <- (app_nil_r (list_ascii_of_string a)).
  rewrite split_blanks_word by apply Wa.
  cbn [split_blanks map]. rewrite app_nil_r, rev_involutive.
  rewrite string_of_list_ascii_of_string. reflexivity.
Qed.

Lemma words_two (a d : string) :
  word a -> word d -> words (a ++ " " ++ d) = [a; d].
Proof.
  intros Wa Wd. destruct (word_chars a Wa) as (c0 & r0 & E0 & H0).
  destruct (word_last d Wd) as (r1 & c1 & E1 & H1).
  unfold words. rewrite !list_ascii_app. cbn [list_ascii_of_string app].
  assert (E : (list_ascii_of_string a ++ " "%char :: list_ascii_of_string d)%list
              = c0 :: (r0 ++ " "%char :: list_ascii_of_string d)%list).
  { rewrite E0. reflexivity. }
  rewrite E.
  rewrite (trim_keeps _ (c0 :: r0 ++ " "%char :: r1) c0 c1 H0 H1).
  2:{ rewrite E1. cbn [app]. rewrite <- app_assoc. reflexivity. }
  rewrite <- E.
  rewrite split_blanks_word by apply Wa.
  cbn [split_blanks]. replace (is_space " ") with true by reflexivity.
  rewrite app_nil_r.
  destruct (rev (list_ascii_of_string a)) as [|x xs] eqn:Er.
  { apply (f_equal (@rev ascii)) in Er. rewrite rev_involutive, E0 in Er.
    discriminate. }
  rewrite <- Er, rev_involutive.
  rewrite <- (app_nil_r (list_ascii_of_string d)).
  rewrite split_blanks_word by apply Wd.
  cbn [split_blanks map]. rewrite app_nil_r, rev_involutive.
  rewrite !string_of_list_ascii_of_string. reflexivity.
Qed.



(** The direction that a sort text names, as the number that stands for
    it. *)
Definition direction_of (parts : list string) : option number :=
  match parts with
  | [_] => Some (of_Z 1)
  | [_; d] =>
      if String.eqb d "" then Some (of_Z 1)
      else if String.eqb (toLowerCase d) "asc" then Some (of_Z 1)
      else if String.eqb (toLowerCase d) "desc" then Some (of_Z (-1))
      else None
  | _ => None
  end.

Lemma normalize_sort_parsed (w : world) (c : loc) (cps : props)
      (s a : string) (rest : list string) (x : number) :
  nth_error (w_heap w) c = Some (CObj cps) ->
  Facade.lookup cps "sort" = VStr s ->
  s <> "" ->
  words s = a :: rest ->
  direction_of (a :: rest) = Some x ->
  normalize_sort (VRef c) w
  = (Ok tt,
     set_heap
       (heap_set c (CObj (assoc_set "sort" (VRef (List.length (w_heap w))) cps))
                 (w_heap w)
        ++ [CObj [(a, VNum x)]])%list w).
Proof.
  intros Hc Hs Hne Hw Hd. unfold normalize_sort.
  erewrite bind_ok by (exact (getp_obj "sort" Hc)).
  fold (Facade.lookup cps "sort"). rewrite Hs.
  cbn [truthy]. apply String.eqb_neq in Hne. rewrite Hne. cbn [negb].
  rewrite Hw.
  set (n := List.length (w_heap w)).
  set (h1 := (w_heap w ++ [CObj []])%list).
  set (h2 := heap_set c (CObj (assoc_set "sort" (VRef n) cps)) h1).
  assert (Hc1 : nth_error h1 c = Some (CObj cps)).
  { apply nth_error_old. exact Hc. }
  assert (Hc2 : nth_error h2 c
                = Some (CObj (assoc_set "sort" (VRef n) cps))).
  { apply (nth_error_heap_set _ Hc1). }
  assert (Hcn : c <> n).
  { intros E. assert (c < n) by (apply nth_error_Some; congruence). lia. }
  assert (Hn2 : nth_error h2 n = Some (CObj [])).
  { unfold h2. rewrite nth_error_heap_set_other by congruence.
    apply nth_error_fresh. }
  assert (Hfin : forall y : number,
    (o <- alloc (CObj []) ;;
     setp (VRef c) "sort" o ;;
     o' <- getp (VRef c) "sort" ;;
     setp o' a (VNum y)) w
    = (Ok tt,
       set_heap (heap_set c (CObj (assoc_set "sort" (VRef n) cps)) (w_heap w)
                 ++ [CObj [(a, VNum y)]])%list w)).
  { intros y.
    erewrite bind_ok by (apply alloc_at). fold n. fold h1.
    erewrite bind_ok by (apply (setp_obj (w := set_heap h1 w) "sort" (VRef n) Hc1)).
    cbn [set_heap w_heap]. rewrite set_heap_twice. fold h2.
    erewrite bind_ok by (apply (getp_obj (w := set_heap h2 w) "sort" Hc2)).
    rewrite assoc_set_same.
    rewrite (setp_obj (w := set_heap h2 w) a (VNum y) Hn2).
    rewrite assoc_set_nil. cbn [set_heap w_heap]. rewrite set_heap_twice.
    f_equal. f_equal. unfold h2, h1.
    rewrite (heap_set_app _ _ _ _ _ Hc).
    apply heap_set_fresh. rewrite length_heap_set. reflexivity. }
  assert (Hlast : forall y : number,
    (sort' <- getp (VRef c) "sort" ;;
     (if negb (isObject sort') && negb (isFunction sort')
      then throw (ReferenceError "direction") else ret tt))
      (set_heap (heap_set c (CObj (assoc_set "sort" (VRef n) cps)) (w_heap w)
                 ++ [CObj [(a, VNum y)]])%list w)
    = (Ok tt,
       set_heap (heap_set c (CObj (assoc_set "sort" (VRef n) cps)) (w_heap w)
                 ++ [CObj [(a, VNum y)]])%list w)).
  { intros y.
    erewrite bind_ok.
    2:{ apply (@getp_obj _ c (assoc_set "sort" (VRef n) cps) "sort").
        cbn [set_heap w_heap].
        apply nth_error_old. apply (nth_error_heap_set _ Hc). }
    rewrite assoc_set_same. reflexivity. }
  destruct rest as [|d [|e rest]]; cbn [direction_of] in Hd.
  - injection Hd as <-.
    cbn [nth_error List.length Nat.max Nat.eqb negb orb nth].
    cbn [String.eqb Ascii.eqb Bool.eqb andb negb].
    erewrite bind_ok by (apply Hfin). apply Hlast.
  - cbn [nth_error List.length Nat.max Nat.eqb negb orb nth].
    destruct (String.eqb d "") eqn:Ed.
    + injection Hd as <-.
      cbn [String.eqb Ascii.eqb Bool.eqb andb negb].
      erewrite bind_ok by (apply Hfin). apply Hlast.
    + destruct (String.eqb (toLowerCase d) "asc") eqn:Ea.
      * injection Hd as <-. cbn [andb negb].
        erewrite bind_ok by (apply Hfin). apply Hlast.
      * destruct (String.eqb (toLowerCase d) "desc") eqn:Eb; [|discriminate].
        injection Hd as <-. cbn [andb negb].
        erewrite bind_ok by (apply Hfin). apply Hlast.
  - discriminate.
Qed.


Lemma toLowerCase_empty (d : string) : toLowerCase d = "" -> d = "".
Proof. destruct d; [reflexivity|discriminate]. Qed.

(** X6.  A sort text that names an attribute, alone or followed by a blank
    and a direction, is replaced by a new object that maps the
    attribute to 1, or to -1 when the direction is [desc]; the case of
    the direction does not matter, and no direction means ascending.
    (Stated for a criterion that has an operational key and no [where]
    object, and for an attribute other than [__proto__].  What else
    happens to the criterion is what happens to any: it loses the
    undefined properties that [_.each] visits; a numeric [length] above
    2^53, which that walk never reaches, is excluded.) *)
Theorem normalize_sort_direction (w : world) (c : loc) (cps : props)
        (s a d : string) (x : number) :
  nth_error (w_heap w) c = Some (CObj cps) ->
  NoDup (keys cps) ->
  plain (Facade.lookup cps "where") = true ->
  operational cps = true ->
  endless cps = false ->
  Facade.lookup cps "sort" = VStr s ->
  word a ->
  a <> "__proto__" ->
  (s = a /\ x = of_Z 1)
  \/ (word d /\ s = a ++ " " ++ d
      /\ ((toLowerCase d = "asc" /\ x = of_Z 1)
          \/ (toLowerCase d = "desc" /\ x = of_Z (-1)))) ->
  run (normalizeCriteria (VRef c)) w
  = (Ok (VRef c),
     set_heap
       (heap_set c
          (CObj (assoc_set "sort" (VRef (List.length (w_heap w)))
                           (stripped cps)))
          (w_heap w)
        ++ [CObj [(a, VNum x)]])%list w).
Proof.
  intros Hc N Hw Hop He Hs Wa _ Hd. unfold run. rewrite <- bind_ret.
  rewrite (normalize_nowhere_then w c cps value (fun v => ret v) Hc N Hw Hop
             He).
  set (w1 := set_heap _ w).
  assert (Hc1 : nth_error (w_heap w1) c = Some (CObj (stripped cps))).
  { apply (nth_error_heap_set _ Hc). }
  assert (Hs1 : Facade.lookup (stripped cps) "sort" = VStr s).
  { rewrite (lookup_stripped cps "sort" N). exact Hs. }
  assert (Hparse : exists rest,
             s <> "" /\ words s = a :: rest
             /\ direction_of (a :: rest) = Some x).
  { destruct Hd as [[-> ->]|(Wd & -> & Hx)].
    - exists []. split; [apply Wa|]. split; [apply words_one; exact Wa|].
      reflexivity.
    - exists [d]. split.
      { destruct a; [destruct Wa; congruence|discriminate]. }
      split; [apply words_two; assumption|].
      cbn [direction_of].
      assert (Ed : String.eqb d "" = false) by (apply String.eqb_neq; apply Wd).
      rewrite Ed.
      destruct Hx as [[E ->]|[E ->]]; rewrite E; reflexivity. }
  destruct Hparse as (rest & Hne & Hwords & Hdir).
  erewrite bind_ok.
  2:{ apply (normalize_sort_parsed w1 c (stripped cps) s a rest x
               Hc1 Hs1 Hne Hwords Hdir). }
  unfold ret. f_equal. unfold w1. cbn [set_heap w_heap].
  rewrite set_heap_twice, heap_set_twice, length_heap_set. reflexivity.
Qed.

Lemma word_name : word "name".
Proof.
  split; [discriminate|]. intros ch Hin. simpl in Hin.
  repeat (destruct Hin as [<-|Hin]; [reflexivity|]). destruct Hin.
Qed.

Lemma word_DESC : word "DESC".
Proof.
  split; [discriminate|]. intros ch Hin. simpl in Hin.
  repeat (destruct Hin as [<-|Hin]; [reflexivity|]). destruct Hin.
Qed.

Lemma normalize_sort_direction_witness :
  let w := Samples.world_of
             [CObj [("limit", VNum (of_Z 10)); ("sort", VStr "name DESC")]] in
  run (normalizeCriteria (VRef 0)) w
  = (Ok (VRef 0),
     set_heap [CObj [("limit", VNum (of_Z 10)); ("sort", VRef 1)];
               CObj [("name", VNum (of_Z (-1)))]] w).
Proof.
  intros w.
  refine (normalize_sort_direction w 0
            [("limit", VNum (of_Z 10)); ("sort", VStr "name DESC")]
            "name DESC" "name" "DESC" (of_Z (-1))
            eq_refl _ eq_refl eq_refl eq_refl eq_refl word_name _ _).
  - repeat constructor; simpl; intuition discriminate.
  - discriminate.
  - right. split; [exact word_DESC|]. split; [reflexivity|].
    right. split; reflexivity.
Defined.

(** X7.  Sort criteria that are not understood make [normalizeCriteria]
    throw, after [_.each] has deleted the undefined properties that it
    visits (all of them, or, when the criterion carries a [length] that
    is a number, those named by an index below it; a length above 2^53
    is excluded): an [Error] "Invalid sort criteria :: <text>" for an
    attribute followed by a word that is neither [asc] nor [desc], and
    a [ReferenceError] for a number or [true], because the message for
    that case names a variable [direction] that does not exist. *)
Theorem normalize_sort_invalid (w : world) (c : loc) (cps : props) :
  nth_error (w_heap w) c = Some (CObj cps) ->
  NoDup (keys cps) ->
  plain (Facade.lookup cps "where") = true ->
  operational cps = true ->
  endless cps = false ->
  let w1 := set_heap (heap_set c (CObj (stripped cps)) (w_heap w)) w in
  (forall a d : string,
      word a -> word d ->
      toLowerCase d <> "asc" -> toLowerCase d <> "desc" ->
      Facade.lookup cps "sort" = VStr (a ++ " " ++ d) ->
      run (normalizeCriteria (VRef c)) w
      = (Throw (ErrorObject ("Invalid sort criteria :: " ++ a ++ " " ++ d)),
         w1))
  /\ (forall v : value,
         Facade.lookup cps "sort" = v ->
         truthy v = true -> isString v = false -> isObject v = false ->
         run (normalizeCriteria (VRef c)) w
         = (Throw (ReferenceError "direction"), w1)).
Proof.
  intros Hc N Hw Hop He w1.
  assert (Hc1 : nth_error (w_heap w1) c = Some (CObj (stripped cps))).
  { apply (nth_error_heap_set _ Hc). }
  split.
  - intros a d Wa Wd Ha Hd Hs. unfold run. rewrite <- bind_ret.
    rewrite (normalize_nowhere_then w c cps value (fun v => ret v) Hc N Hw Hop
               He).
    fold w1. apply bind_throw. unfold normalize_sort.
    erewrite bind_ok by (exact (getp_obj "sort" Hc1)).
    fold (Facade.lookup (stripped cps) "sort").
    rewrite (lookup_stripped cps "sort" N), Hs.
    assert (Hne : String.eqb (a ++ " " ++ d) "" = false).
    { destruct a; [destruct Wa; congruence|reflexivity]. }
    cbn [truthy]. rewrite Hne. cbn [negb].
    rewrite (words_two a d Wa Wd).
    cbn [nth_error List.length Nat.max Nat.eqb negb orb].
    assert (Ed : String.eqb d "" = false) by (apply String.eqb_neq; apply Wd).
    rewrite Ed.
    apply String.eqb_neq in Ha, Hd. rewrite Ha, Hd. cbn [negb andb].
    reflexivity.
  - intros v Hs Ht Hstr Hobj. unfold run. rewrite <- bind_ret.
    rewrite (normalize_nowhere_then w c cps value (fun v => ret v) Hc N Hw Hop
               He).
    fold w1. apply bind_throw. unfold normalize_sort.
    erewrite bind_ok by (exact (getp_obj "sort" Hc1)).
    fold (Facade.lookup (stripped cps) "sort").
    rewrite (lookup_stripped cps "sort" N), Hs. rewrite Ht.
    destruct v as [| |b|y| | | |]; try discriminate; cbv iota.
    + erewrite bind_ok by reflexivity.
      erewrite bind_ok by (exact (getp_obj "sort" Hc1)).
      fold (Facade.lookup (stripped cps) "sort").
      rewrite (lookup_stripped cps "sort" N), Hs. reflexivity.
    + erewrite bind_ok by reflexivity.
      erewrite bind_ok by (exact (getp_obj "sort" Hc1)).
      fold (Facade.lookup (stripped cps) "sort").
      rewrite (lookup_stripped cps "sort" N), Hs. reflexivity.
Qed.

Lemma word_up : word "up".
Proof.
  split; [discriminate|]. intros ch Hin. simpl in Hin.
  repeat (destruct Hin as [<-|Hin]; [reflexivity|]). destruct Hin.
Qed.

Lemma normalize_sort_invalid_witness :
  let w := Samples.world_of
             [CObj [("limit", VNum (of_Z 10)); ("sort", VStr "name up")]] in
  run (normalizeCriteria (VRef 0)) w
  = (Throw (ErrorObject "Invalid sort criteria :: name up"), w).
Proof.
  intros w.
  refine (proj1 (normalize_sort_invalid w 0
                   [("limit", VNum (of_Z 10)); ("sort", VStr "name up")]
                   eq_refl _ eq_refl eq_refl eq_refl)
                "name" "up" word_name word_up _ _ eq_refl).
  - repeat constructor; simpl; intuition discriminate.
  - discriminate.
  - discriminate.
Defined.

End SortFacts.

(* ===================================================================== *)
(** * Properties of the remaining facade operations                        *)
(* ===================================================================== *)

Module WrapperFacts.

Import Num JS Eff Criteria Lib Facade Wrapper.
Import CriteriaFacts FacadeFacts Steps CriteriaMore.
Local Open Scope string_scope.
Local Open Scope eff_scope.

(** A primitive that [normalizeCriteria] answers with an error text. *)
Definition malformed (v : value) : Prop :=
  isObject v = false /\ truthy v = true
  /\ ((isFinite v || isString v) && gtb (ToNumber [] v) zero) = false.

Definition invalid_criteria (v : value) : value :=
  VStr ("Invalid options/criteria :: " ++ ToStringPrim v).

Lemma normalize_malformed (v : value) (w : world) :
  malformed v -> normalizeCriteria v w = (Ok (invalid_criteria v), w).
Proof.
  intros (Ho & Ht & Hk).
  pose proof (normalize_primitive_run v w Ho Hk) as E. unfold run in E.
  rewrite Ht in E. exact E.
Qed.

(** X8.  [find] throws where [findAll] reports a failure of its own: when
    the adapter has no [find], and when the criteria are malformed.
    [findAll] reports the failure with a single argument, and [find]
    reads the length of the models it was not given.  The callback of
    [find] is never invoked, and neither is the adapter. *)
Theorem find_throws_on_findAll_failure
        (A : adapter) (collectionName : string) (criteria : value)
        (cb : callback) (w : world) :
  (a_find A = None ->
   exists w',
     find A collectionName criteria cb w
     = (Throw (TypeError "Cannot read property 'length'"), w')
     /\ w_log w' = w_log w)
  /\ (malformed criteria ->
      find A collectionName criteria cb w
      = (Throw (TypeError "Cannot read property 'length'"), w)).
Proof.
  split.
  - intros Hf. unfold find, firstIfNone, findAll. rewrite Hf.
    destruct (truthy criteria); cbn [negb].
    + exists w. split; reflexivity.
    + eexists. split; [reflexivity|]. reflexivity.
  - intros Hm. unfold find, firstIfNone, findAll.
    destruct Hm as (Ho & Ht & Hk). rewrite Ht. cbn [negb].
    unfold ret at 1. unfold bind at 1.
    destruct (a_find A) as [f|]; [|reflexivity].
    erewrite bind_ok
      by (exact (normalize_malformed criteria w (conj Ho (conj Ht Hk)))).
    reflexivity.
Qed.

Lemma find_throws_on_findAll_failure_witness :
  find (Samples.store_adapter Samples.no_config 0) "user" (VStr "abc")
       user_cb (Samples.world_of [])
  = (Throw (TypeError "Cannot read property 'length'"), Samples.world_of []).
Proof.
  refine (proj2 (find_throws_on_findAll_failure
                   (Samples.store_adapter Samples.no_config 0) "user"
                   (VStr "abc") user_cb (Samples.world_of [])) _).
  repeat split.
Defined.

(** X9.  Malformed criteria reach the callback of [findAll], [update] and
    [destroy] as an error text, at once: the adapter is not called, and
    [update] does not touch the values. *)
Theorem malformed_criteria_are_reported
        (A : adapter) (X : operations) (collectionName : string)
        (criteria values : value) (cb : callback) (w : world) :
  malformed criteria ->
  (forall f, a_find A = Some f ->
     findAll A collectionName criteria cb w
     = cb [invalid_criteria criteria] w)
  /\ (forall f, a_update X = Some f ->
        update A X collectionName criteria values cb w
        = cb [invalid_criteria criteria] w)
  /\ (forall f, a_destroy X = Some f ->
        destroy X collectionName criteria cb w
        = cb [invalid_criteria criteria] w).
Proof.
  intros Hm. repeat split; intros f Hf.
  - unfold findAll. rewrite Hf.
    erewrite bind_ok by (exact (normalize_malformed criteria w Hm)).
    reflexivity.
  - unfold update. rewrite Hf.
    erewrite bind_ok by (exact (normalize_malformed criteria w Hm)).
    reflexivity.
  - unfold destroy. rewrite Hf.
    erewrite bind_ok by (exact (normalize_malformed criteria w Hm)).
    reflexivity.
Qed.


Lemma malformed_criteria_are_reported_witness :
  let A := Samples.store_adapter Samples.no_config 0 in
  findAll A "user" (VBool true) user_cb (Samples.world_of [])
  = user_cb [VStr "Invalid options/criteria :: true"] (Samples.world_of []).
Proof.
  intros A.
  refine (proj1 (malformed_criteria_are_reported A
                   (Operations None None None None None None)
                   "user" (VBool true) VUndefined user_cb
                   (Samples.world_of []) _) _ eq_refl).
  repeat split.
Defined.

(** The callback that [count] hands to [findAll]. *)
Definition afterCount (cb : callback) : callback :=
  fun args => len <- getp (arg 1 args) "length" ;; cb [arg 0 args; len].

(** X10.  [count] normalises the criteria and, when the adapter has no
    [count], goes through [findAll], which normalises them again.  For
    absent criteria the adapter's [count] receives [{ where: null }],
    but the adapter's [find] receives [{ where: { where: null } }]: the
    second normalisation wraps the first result once more. *)
Theorem count_without_criteria
        (A : adapter) (X : operations) (collectionName : string)
        (criteria : value) (cb : callback) (w : world) :
  truthy criteria = false ->
  let n := List.length (w_heap w) in
  (forall g, a_count X = Some g ->
     count A X collectionName criteria cb w
     = g collectionName (VRef n) cb
         (set_heap (w_heap w ++ [CObj [("where", VNull)]])%list w))
  /\ (forall f, a_count X = None -> a_find A = Some f ->
        count A X collectionName criteria cb w
        = f collectionName (VRef (S n)) (afterCount cb)
            (set_heap (w_heap w ++ [CObj [("where", VNull)];
                                    CObj [("where", VRef n)]])%list w)).
Proof.
  intros Ht n. split.
  - intros g Hg. unfold count, normalizeCriteria. rewrite Ht, Hg.
    reflexivity.
  - intros f Hc Hf. unfold count. rewrite Hc.
    assert (E : normalizeCriteria criteria w
                = (Ok (VRef n),
                   set_heap (w_heap w ++ [CObj [("where", VNull)]])%list w)).
    { unfold normalizeCriteria. rewrite Ht. reflexivity. }
    erewrite bind_ok by (exact E).
    unfold findAll. rewrite Hf.
    set (w1 := set_heap (w_heap w ++ [CObj [("where", VNull)]])%list w).
    assert (H1 : nth_error (w_heap w1) n = Some (CObj [("where", VNull)])).
    { apply nth_error_fresh. }
    rewrite (normalize_mapping_then w1 n [("where", VNull)] unit _ H1).
    + cbn [isString].
      unfold w1. cbn [set_heap w_heap]. rewrite length_app. cbn [List.length].
      replace (List.length (w_heap w) + 1) with (S n) by (unfold n; lia).
      rewrite set_heap_twice.
      change (coerced (stripped [("where", VNull)]))
        with [("where", VNull)].
      rewrite (heap_set_same (h := (w_heap w ++ [CObj [("where", VNull)]])%list)
                 (l := n) (c := CObj [("where", VNull)])) by exact H1.
      rewrite <- app_assoc. reflexivity.
    + repeat constructor. simpl. tauto.
    + intros kv [<-|[]]. reflexivity.
    + reflexivity.
    + reflexivity.
Qed.

Lemma count_without_criteria_witness :
  let A := Samples.store_adapter Samples.no_config 0 in
  let X := Operations None None None None None None in
  let w := Samples.world_of [CArr [] []] in
  w_log (snd (count A X "user" VUndefined user_cb w))
  = [EvAdapter "find" [VStr "user"; VRef 2]; EvCallback [VNull; VNum zero]]
  /\ nth_error (w_heap (snd (count A X "user" VUndefined user_cb w))) 2
     = Some (CObj [("where", VRef 1)])
  /\ nth_error (w_heap (snd (count A X "user" VUndefined user_cb w))) 1
     = Some (CObj [("where", VNull)]).
Proof.
  intros A X w.
  rewrite (proj2 (count_without_criteria A X "user" VUndefined user_cb w
                    eq_refl) _ eq_refl eq_refl).
  repeat split.
Defined.

(** X11.  [count] does not look at what the normaliser answers: with
    malformed criteria the adapter's [count] is called all the same,
    and receives the error text in the place of the criteria. *)
Theorem count_passes_error_text_on
        (A : adapter) (X : operations)
        (g : string -> value -> callback -> M unit)
        (collectionName : string) (criteria : value) (cb : callback)
        (w : world) :
  a_count X = Some g ->
  malformed criteria ->
  count A X collectionName criteria cb w
  = g collectionName (invalid_criteria criteria) cb w.
Proof.
  intros Hg Hm. unfold count. rewrite Hg.
  erewrite bind_ok by (exact (normalize_malformed criteria w Hm)).
  reflexivity.
Qed.

Lemma count_passes_error_text_on_witness :
  let g : string -> value -> callback -> M unit :=
    fun name c k => emit (EvAdapter "count" [VStr name; c]) ;; k [VNull] in
  let X := Operations (Some g) None None None None None in
  w_log (snd (count (Samples.store_adapter Samples.no_config 0) X "user"
                    (VNum (of_Z (-3))) user_cb (Samples.world_of [])))
  = [EvAdapter "count" [VStr "user"; VStr "Invalid options/criteria :: -3"];
     EvCallback [VNull]].
Proof.
  intros g X.
  rewrite (count_passes_error_text_on
             (Samples.store_adapter Samples.no_config 0) X g "user"
             (VNum (of_Z (-3))) user_cb (Samples.world_of []) eq_refl).
  - reflexivity.
  - repeat split.
Defined.


(** X12.  [update], once the criteria are normalised, writes [updatedAt] (and
    nothing else) into the caller's values, in place, when the
    configuration enables it, and then calls the adapter with the
    normalised criteria and those values. *)
Theorem update_stamps_updatedAt
        (A : adapter) (X : operations)
        (f : string -> value -> value -> callback -> M unit)
        (collectionName : string) (criteria c' : value) (lv : loc)
        (vps : props) (cb : callback) (w w1 : world) :
  a_update X = Some f ->
  run (normalizeCriteria criteria) w = (Ok c', w1) ->
  isString c' = false ->
  nth_error (w_heap w1) lv = Some (CObj vps) ->
  update A X collectionName criteria (VRef lv) cb w
  = f collectionName c' (VRef lv) cb
      (if truthy (updatedAt (a_config A))
       then World (heap_set lv
                     (CObj (assoc_set "updatedAt"
                                      (VDate (w_clock w1 (w_tick w1))) vps))
                     (w_heap w1))
                  (w_clock w1) (S (w_tick w1)) (w_log w1) (w_frames w1)
       else w1).
Proof.
  intros Hf Hn Hs Hv. unfold update. rewrite Hf.
  erewrite bind_ok by (exact Hn). rewrite Hs.
  unfold stamp. destruct (truthy (updatedAt (a_config A))).
  - rewrite bind_assoc. unfold new_Date at 1. unfold bind at 1.
    erewrite bind_ok.
    2:{ apply (setp_obj (w := World (w_heap w1) (w_clock w1) (S (w_tick w1))
                                    (w_log w1) (w_frames w1))
                        "updatedAt" _ Hv). }
    reflexivity.
  - reflexivity.
Qed.

Lemma update_stamps_updatedAt_witness :
  let f : string -> value -> value -> callback -> M unit :=
    fun name c v k => emit (EvAdapter "update" [VStr name; c; v]) ;; k [VNull] in
  let X := Operations None (Some f) None None None None in
  let A := Samples.store_adapter (Config (VBool true) (VBool true) VUndefined)
                                 0 in
  let w := Samples.world_of [CObj [("name", VStr "x")]] in
  let r := update A X "user" (VNum (of_Z 7)) (VRef 0) user_cb w in
  nth_error (w_heap (snd r)) 0
  = Some (CObj [("name", VStr "x"); ("updatedAt", VDate (of_Z 1000))])
  /\ w_log (snd r)
     = [EvAdapter "update" [VStr "user"; VRef 2; VRef 0]; EvCallback [VNull]].
Proof.
  intros f X A w r. unfold r.
  rewrite (update_stamps_updatedAt A X f "user" (VNum (of_Z 7)) (VRef 2) 0
             [("name", VStr "x")] user_cb w
             (set_heap [CObj [("name", VStr "x")];
                        CObj [("id", VNum (of_Z 7))];
                        CObj [("where", VRef 1)]] w)
             eq_refl eq_refl eq_refl eq_refl).
  split; reflexivity.
Defined.

(** X13.  [findOrCreate] without values creates from the criteria: for a
    mapping without operational keys, an adapter that has its own
    [findOrCreate] receives the normalised criterion and, as the values,
    the caller's criteria object itself (the one that the criterion
    holds as its [where]); values that are given are passed on as they
    are.  By then the normaliser has rewritten the caller's object in
    place: numeric values are numbers, and the undefined properties
    that [_.each] visits are gone (all of them or, when the object
    carries a [length] that is a number, those named by an index below
    it; a length above 2^53, which that walk never reaches, is
    excluded). *)
Theorem findOrCreate_values_default
        (A : adapter) (X : operations)
        (transaction : string -> atomic -> callback -> M unit)
        (f : string -> value -> value -> callback -> M unit)
        (collectionName : string) (l : loc) (ps : props) (values : value)
        (cb : callback) (w : world) :
  a_findOrCreate X = Some f ->
  nth_error (w_heap w) l = Some (CObj ps) ->
  NoDup (keys ps) ->
  all_plain ps ->
  operational ps = false ->
  endless ps = false ->
  findOrCreate A X transaction collectionName (VRef l) values cb w
  = f collectionName (VRef (List.length (w_heap w)))
      (if truthy values then values else VRef l) cb
      (set_heap
         (heap_set l (CObj (coerced (stripped ps))) (w_heap w)
          ++ [CObj [("where", VRef l)]])%list w).
Proof.
  intros Hf H N P Hop He. unfold findOrCreate.
  rewrite (normalize_mapping_then w l ps unit _ H N P Hop He).
  cbn [isString]. rewrite Hf.
  destruct (truthy values); cbn [negb].
  - reflexivity.
  - erewrite bind_ok; [reflexivity|].
    apply (@getp_obj _ (List.length (w_heap w)) [("where", VRef l)] "where").
    cbn [set_heap w_heap].
    rewrite <- (length_heap_set (w_heap w) l
                  (CObj (coerced (stripped ps)))).
    apply nth_error_fresh.
Qed.

Lemma findOrCreate_values_default_witness :
  let f : string -> value -> value -> callback -> M unit :=
    fun name c v k =>
      emit (EvAdapter "findOrCreate" [VStr name; c; v]) ;; k [VNull; v] in
  let X := Operations None None None (Some f) None None in
  let A := Samples.store_adapter Samples.no_config 0 in
  let w := Samples.world_of
             [CObj [("length", VNum (of_Z 120)); ("title", VUndefined)]] in
  let r := findOrCreate A X uncontended "user" (VRef 0) VUndefined
                        user_cb w in
  w_log (snd r)
  = [EvAdapter "findOrCreate" [VStr "user"; VRef 1; VRef 0];
     EvCallback [VNull; VRef 0]]
  /\ nth_error (w_heap (snd r)) 0
     = Some (CObj [("length", VNum (of_Z 120)); ("title", VUndefined)]).
Proof.
  intros f X A w r. unfold r.
  rewrite (findOrCreate_values_default A X uncontended f "user" 0
             [("length", VNum (of_Z 120)); ("title", VUndefined)]
             VUndefined user_cb w eq_refl eq_refl).
  - split; reflexivity.
  - repeat constructor; simpl; intuition discriminate.
  - intros kv Hin. simpl in Hin.
    repeat (destruct Hin as [<-|Hin]; [reflexivity|]). destruct Hin.
  - reflexivity.
  - reflexivity.
Defined.


(** What the callback of [find] does with the models it is handed. *)
Lemma afterFindAll_answer (collectionName : string) (k : callback)
      (w : world) (lm : loc) (items : list value) (aps : props) :
  nth_error (w_heap w) lm = Some (CArr items aps) ->
  (Z.of_nat (List.length items) < 2 ^ 32)%Z ->
  afterFindAll collectionName k [VNull; VRef lm] w
  = k (find_answer collectionName items) w.
Proof.
  intros Hm Hlen. unfold afterFindAll. cbn [arg nth].
  erewrite bind_ok by (exact (getp_length Hm)).
  erewrite bind_ok by (apply to_number_plain; reflexivity).
  cbn [ToNumber].
  destruct items as [|m [|m' rest]].
  - reflexivity.
  - cbn [List.length Z.of_nat Pos.of_succ_nat].
    replace (ltb (of_Z 1) (of_Z 1)) with false by reflexivity.
    erewrite bind_ok by (exact (getp_length Hm)).
    erewrite bind_ok by (apply to_number_plain; reflexivity).
    cbn [ToNumber List.length Z.of_nat Pos.of_succ_nat].
    replace (gtb (of_Z 1) (of_Z 1)) with false by reflexivity.
    erewrite bind_ok by (exact (getp_first Hm)). reflexivity.
  - assert (H2 : (2 <= Z.of_nat (List.length (m :: m' :: rest)) < 2 ^ 32)%Z).
    { split; [|exact Hlen]. cbn [List.length]. lia. }
    destruct (NumFacts.of_Z_above_one H2) as [Hlt Hgt].
    rewrite Hlt.
    erewrite bind_ok by (exact (getp_length Hm)).
    erewrite bind_ok by (apply to_number_plain; reflexivity).
    cbn [ToNumber]. rewrite Hgt. reflexivity.
Qed.

(** The default [findOrCreate] on a mapping without operational keys,
    for any lock manager that runs the atomic logic at once, handing it
    [done] as the function that ends the transaction. *)
Lemma findOrCreate_default_run
      (A : adapter) (X : operations)
      (transaction : string -> atomic -> callback -> M unit)
      (e0 : value) (done : callback)
      (f : string -> value -> callback -> M unit)
      (collectionName : string) (l : loc) (ps : props) (values : value)
      (cb : callback) (w w2 : world) (lm : loc) (items : list value)
      (aps : props) :
  (forall name logic w', transaction name logic cb w' = logic e0 done w') ->
  a_findOrCreate X = None ->
  a_find A = Some f ->
  nth_error (w_heap w) l = Some (CObj ps) ->
  NoDup (keys ps) ->
  all_plain ps ->
  operational ps = false ->
  endless ps = false ->
  (forall k : callback,
      f collectionName (VRef (List.length (w_heap w))) k
        (set_heap
           (heap_set l (CObj (coerced (stripped ps))) (w_heap w)
            ++ [CObj [("where", VRef l)]])%list w)
      = k [VNull; VRef lm] w2) ->
  nth_error (w_heap w2) lm = Some (CArr items aps) ->
  (Z.of_nat (List.length items) < 2 ^ 32)%Z ->
  let values' := if truthy values then values else VRef l in
  findOrCreate A X transaction collectionName (VRef l) values cb w
  = match items with
    | [] => create A collectionName values' done w2
    | [m] =>
        if truthy m then done [VNull; m] w2
        else create A collectionName values' done w2
    | _ => done [VStr ("More than one " ++ collectionName ++ " returned!")] w2
    end.
Proof.
  intros Htr Hx Hf H N P Hop He Hfind Hm Hlen values'.
  unfold findOrCreate.
  rewrite (normalize_mapping_then w l ps unit _ H N P Hop He).
  cbn [isString]. rewrite Hx.
  set (n := List.length (w_heap w)) in *.
  set (w1 := set_heap _ w) in *.
  destruct (normalized_mapping_cells (w_heap w) l ps H) as (Hn1 & Hl1 & Hne).
  assert (Ev : (if negb (truthy values) then getp (VRef n) "where"
                else ret values) w1 = (Ok values', w1)).
  { unfold values'. destruct (truthy values); cbn [negb]; [reflexivity|].
    apply (@getp_obj w1 n [("where", VRef l)] "where"). exact Hn1. }
  erewrite bind_ok by (exact Ev).
  rewrite Htr.
  unfold findThenCreate, find, firstIfNone.
  cbn [truthy negb]. unfold ret at 1. unfold bind at 1.
  unfold findAll. rewrite Hf.
  rewrite (normalize_wrapped_then w1 n l (coerced (stripped ps)) unit _
             Hn1 Hl1 Hne).
  - cbn [isString]. rewrite Hfind.
    rewrite (afterFindAll_answer collectionName _ w2 lm items aps Hm Hlen).
    destruct items as [|m [|m' rest]]; cbn [find_answer arg nth truthy].
    + reflexivity.
    + destruct (truthy m); reflexivity.
    + reflexivity.
  - rewrite keys_coerced. apply keys_stripped. exact N.
  - apply all_plain_coerced. apply all_plain_stripped. exact P.
  - apply coerced_twice.
Qed.

(** X14.  The default [findOrCreate], with a lock that is granted at once, on
    a mapping without operational keys (and without a numeric [length]
    above 2^53, which the normaliser's walk never reaches).  The
    adapter's [find] is asked once, with the normalised criterion, the
    caller's object being rewritten in place as the normaliser does.  When it answers with exactly
    one record, that record is handed to the callback and nothing is
    created; when it answers with none (or with one falsy element),
    [create] is called with the
    values, or with the caller's criteria object when no values were
    given; when it answers with several, the callback receives the
    error "More than one <name> returned!" and nothing is created. *)
Theorem findOrCreate_finds_or_creates
        (A : adapter) (X : operations)
        (f : string -> value -> callback -> M unit)
        (collectionName : string) (l : loc) (ps : props) (values : value)
        (cb : callback) (w w2 : world) (lm : loc) (items : list value)
        (aps : props) :
  a_findOrCreate X = None ->
  a_find A = Some f ->
  nth_error (w_heap w) l = Some (CObj ps) ->
  NoDup (keys ps) ->
  all_plain ps ->
  operational ps = false ->
  endless ps = false ->
  (forall k : callback,
      f collectionName (VRef (List.length (w_heap w))) k
        (set_heap
           (heap_set l (CObj (coerced (stripped ps))) (w_heap w)
            ++ [CObj [("where", VRef l)]])%list w)
      = k [VNull; VRef lm] w2) ->
  nth_error (w_heap w2) lm = Some (CArr items aps) ->
  (Z.of_nat (List.length items) < 2 ^ 32)%Z ->
  let values' := if truthy values then values else VRef l in
  findOrCreate A X uncontended collectionName (VRef l) values cb w
  = match items with
    | [] => create A collectionName values' cb w2
    | [m] =>
        if truthy m then cb [VNull; m] w2
        else create A collectionName values' cb w2
    | _ => cb [VStr ("More than one " ++ collectionName ++ " returned!")] w2
    end.
Proof.
  intros Hx Hf H N P Hop He Hfind Hm Hlen.
  apply (findOrCreate_default_run A X uncontended VNull cb f collectionName
           l ps values cb w w2 lm items aps); try assumption.
  intros name logic w'. reflexivity.
Qed.



Lemma findOrCreate_finds_or_creates_witness :
  let A := Samples.store_adapter Samples.no_config 1 in
  let X := Operations None None None None None None in
  let w := Samples.world_of [CObj [("name", VStr "x")]; CArr [] []] in
  w_log (snd (findOrCreate A X uncontended "user" (VRef 0) VUndefined
                           user_cb w))
  = [EvAdapter "find" [VStr "user"; VRef 2];
     EvAdapter "create" [VStr "user"; VRef 0];
     EvCallback [VNull; VRef 0]].
Proof.
  intros A X w.
  rewrite (findOrCreate_finds_or_creates A X
             (fun name criteria k =>
                emit (EvAdapter "find" [VStr name; criteria]) ;;
                k [VNull; VRef 1])
             "user" 0 [("name", VStr "x")] VUndefined user_cb w
             (World [CObj [("name", VStr "x")]; CArr [] [];
                     CObj [("where", VRef 0)]]
                    (w_clock w) 0 [EvAdapter "find" [VStr "user"; VRef 2]] [])
             1 [] [] eq_refl eq_refl eq_refl).
  - reflexivity.
  - repeat constructor; simpl; intuition discriminate.
  - intros kv [<-|[]]. reflexivity.
  - reflexivity.
  - reflexivity.
  - intros k. reflexivity.
  - reflexivity.
  - reflexivity.
Defined.


(** X16.  Without a [count] of the adapter, [count] answers with the length
    of the models that [findAll] hands over, next to whatever error
    [findAll] reports with them.  When [findAll] hands over no models
    (as it does when it reports a failure of its own, or passes on an
    error of the adapter), [count] throws while reading their length,
    and its callback is never invoked. *)
Theorem count_reports_length_or_throws
        (A : adapter) (X : operations) (collectionName : string)
        (criteria c' : value) (cb : callback) (w w1 w2 : world)
        (err : value) :
  a_count X = None ->
  run (normalizeCriteria criteria) w = (Ok c', w1) ->
  (forall (lm : loc) (items : list value) (aps : props),
      (forall k : callback,
          findAll A collectionName c' k w1 = k [err; VRef lm] w2) ->
      nth_error (w_heap w2) lm = Some (CArr items aps) ->
      count A X collectionName criteria cb w
      = cb [err; VNum (of_Z (Z.of_nat (List.length items)))] w2)
  /\ ((forall k : callback,
          findAll A collectionName c' k w1 = k [err] w2) ->
      count A X collectionName criteria cb w
      = (Throw (TypeError "Cannot read property 'length'"), w2)).
Proof.
  intros Hc Hn. split.
  - intros lm items aps Hf Hm. unfold count. rewrite Hc.
    erewrite bind_ok by (exact Hn). rewrite Hf. cbn [arg nth].
    erewrite bind_ok by (exact (getp_length Hm)). reflexivity.
  - intros Hf. unfold count. rewrite Hc.
    erewrite bind_ok by (exact Hn). rewrite Hf. reflexivity.
Qed.

Lemma count_reports_length_or_throws_witness :
  let A := Samples.store_adapter Samples.no_config 0 in
  let X := Operations None None None None None None in
  let w := Samples.world_of [CArr [VRef 1; VRef 1; VRef 1] []; CObj []] in
  w_log (snd (count A X "user" (VNum (of_Z 5)) user_cb w))
  = [EvAdapter "find" [VStr "user"; VRef 3];
     EvCallback [VNull; VNum (of_Z 3)]].
Proof.
  intros A X w.
  rewrite (proj1 (count_reports_length_or_throws A X "user" (VNum (of_Z 5))
                    (VRef 3) user_cb w
                    (set_heap [CArr [VRef 1; VRef 1; VRef 1] []; CObj [];
                               CObj [("id", VNum (of_Z 5))];
                               CObj [("where", VRef 2)]] w)
                    (World [CArr [VRef 1; VRef 1; VRef 1] []; CObj [];
                            CObj [("id", VNum (of_Z 5))];
                            CObj [("where", VRef 2)]]
                           (w_clock w) 0
                           [EvAdapter "find" [VStr "user"; VRef 3]] [])
                    VNull eq_refl eq_refl)
             0 [VRef 1; VRef 1; VRef 1] []).
  - reflexivity.
  - intros k. reflexivity.
  - reflexivity.
Defined.


(** X17.  [find] without criteria asks for any one record: for criteria that
    are falsy (absent, [null], but also the id [0], the empty text,
    [false] or [NaN]) the adapter's [find] receives a new criterion
    [{ limit: 1 }], which the normaliser leaves as it is. *)
Theorem find_without_criteria
        (A : adapter) (f : string -> value -> callback -> M unit)
        (collectionName : string) (criteria : value) (cb : callback)
        (w : world) :
  a_find A = Some f ->
  truthy criteria = false ->
  find A collectionName criteria cb w
  = f collectionName (VRef (List.length (w_heap w)))
      (afterFindAll collectionName cb)
      (set_heap (w_heap w ++ [CObj [("limit", VNum (of_Z 1))]])%list w).
Proof.
  intros Hf Ht. unfold find, firstIfNone. rewrite Ht. cbn [negb].
  erewrite bind_ok by (apply alloc_at).
  set (n := List.length (w_heap w)).
  set (w1 := set_heap _ w).
  assert (H1 : nth_error (w_heap w1) n
               = Some (CObj [("limit", VNum (of_Z 1))])).
  { apply nth_error_fresh. }
  unfold findAll. rewrite Hf.
  rewrite (normalize_nowhere_then w1 n [("limit", VNum (of_Z 1))] unit _ H1).
  - change (stripped [("limit", VNum (of_Z 1))])
      with [("limit", VNum (of_Z 1))].
    rewrite (heap_set_same H1), set_heap_same.
    erewrite bind_ok.
    2:{ apply (normalize_sort_none w1 n [("limit", VNum (of_Z 1))] H1).
        reflexivity. }
    reflexivity.
  - repeat constructor. simpl. tauto.
  - reflexivity.
  - reflexivity.
  - reflexivity.
Qed.

Lemma find_without_criteria_witness :
  let A := Samples.store_adapter Samples.no_config 0 in
  let w := Samples.world_of [CArr [VRef 1] []; CObj [("id", VNum (of_Z 9))]] in
  w_log (snd (find A "user" (VNum zero) user_cb w))
  = [EvAdapter "find" [VStr "user"; VRef 2]; EvCallback [VNull; VRef 1]]
  /\ nth_error (w_heap (snd (find A "user" (VNum zero) user_cb w))) 2
     = Some (CObj [("limit", VNum (of_Z 1))]).
Proof.
  intros A w.
  rewrite (find_without_criteria A
             (fun name criteria k =>
                emit (EvAdapter "find" [VStr name; criteria]) ;;
                k [VNull; VRef 0])
             "user" (VNum zero) user_cb w eq_refl eq_refl).
  split; reflexivity.
Defined.

End WrapperFacts.

(* ===================================================================== *)
(** * Loops over asynchronous steps that succeed                           *)
(* ===================================================================== *)

Module AsyncFacts.

Import Num JS Eff Criteria Lib Facade Wrapper.
Import CriteriaFacts FacadeFacts Steps.
Local Open Scope string_scope.
Local Open Scope eff_scope.

Definition with_frames (fs : list frame) (w : world) : world :=
  World (w_heap w) (w_clock w) (w_tick w) (w_log w) fs.

(** A step that succeeds, and that neither reads nor writes the counters
    of the loops in progress. *)
Definition steady (m : M unit) : Prop :=
  forall w,
    fst (m w) = Ok tt
    /\ w_frames (snd (m w)) = w_frames w
    /\ forall fs, snd (m (with_frames fs w)) = with_frames fs (snd (m w)).

Lemma steady_run (m : M unit) (w : world) :
  steady m -> m w = (Ok tt, snd (m w)).
Proof.
  intros S. destruct (S w) as (E & _). destruct (m w) as [r w'].
  simpl in *. rewrite E. reflexivity.
Qed.

Lemma steady_bind (m k : M unit) :
  steady m -> steady k -> steady (m ;; k).
Proof.
  intros Sm Sk w. unfold bind.
  pose proof (steady_run m w Sm) as Em.
  destruct (Sm w) as (_ & Fm & Cm).
  destruct (Sk (snd (m w))) as (Ek & Fk & Ck).
  rewrite Em. repeat split.
  - exact Ek.
  - congruence.
  - intros fs. pose proof (steady_run m (with_frames fs w) Sm) as Em'.
    rewrite Em'. rewrite Cm. apply Ck.
Qed.

Lemma steady_ret : steady (ret tt).
Proof. intros w. repeat split. Qed.

Lemma steady_emit (e : event) : steady (emit e).
Proof. intros w. repeat split. Qed.

Lemma steady_stamp (flag : value) (l : loc) (field : string) :
  steady (stamp flag (VRef l) field).
Proof.
  intros [h c t lg f]. unfold stamp. destruct (truthy flag); [|repeat split].
  unfold bind, new_Date, setp, bind, read_heap, write_heap, with_frames.
  cbn [set w_heap w_clock w_tick w_log w_frames].
  destruct (nth_error h l) as [[ps|items ps]|];
    try (repeat split; fail).
  destruct (array_index field); repeat split.
Qed.

Lemma with_frames_fold {A} (body : A -> M unit) (arr : list A) :
  (forall x, In x arr -> steady (body x)) ->
  forall (w : world) (fs gs : list frame),
    with_frames gs (fold_left (fun w x => snd (body x w)) arr
                              (with_frames fs w))
    = with_frames gs (fold_left (fun w x => snd (body x w)) arr w).
Proof.
  induction arr as [|x arr IH]; intros S w fs gs; [reflexivity|].
  cbn [fold_left].
  destruct (S x (or_introl eq_refl) w) as (_ & _ & C). rewrite C.
  apply IH. intros y Hy. apply S. right. exact Hy.
Qed.

Lemma frames_set_last (fs : list frame) (f g : frame) :
  frames_set (List.length fs) g (fs ++ [f])%list = (fs ++ [g])%list.
Proof. induction fs as [|x fs IH]; simpl; [reflexivity|]. rewrite IH. reflexivity. Qed.

Lemma nth_last (fs : list frame) (f d : frame) :
  nth (List.length fs) (fs ++ [f])%list d = f.
Proof. induction fs as [|x fs IH]; simpl; auto. Qed.

Lemma bind_ret_unit (m : M unit) (w : world) : (m ;; ret tt) w = m w.
Proof. unfold bind, ret. destruct (m w) as [[[]|e] w']; reflexivity. Qed.

(** [async.forEach] over steps that succeed and report no error: every
    step is run, in order, and then the final callback is called, once,
    with [null]. *)
Lemma forEach_steady {A} (arr : list A) (body : A -> M unit)
      (res : A -> list value) (final : callback) (w : world) :
  arr <> [] ->
  (forall x, In x arr -> steady (body x)) ->
  (forall x, In x arr -> truthy (arg 0 (res x)) = false) ->
  forEach arr (fun x k => body x ;; k (res x)) final w
  = final [VNull]
      (with_frames (w_frames w ++ [Frame (List.length arr) true])%list
                   (fold_left (fun w x => snd (body x w)) arr w)).
Proof.
  intros Hne St R.
  set (n := List.length arr).
  set (fs := w_frames w).
  set (i := List.length fs).
  set (inner := fun x : A => fun args : list value =>
         let err := arg 0 args in
         fr <- read_frame i ;;
         if truthy err then
           (if live fr then final [err] else ret tt) ;;
           fr' <- read_frame i ;;
           write_frame i (Frame (completed fr') false)
         else
           write_frame i (Frame (S (completed fr)) (live fr)) ;;
           if Nat.eqb (S (completed fr)) n
           then (if live fr then final [VNull] else ret tt)
           else ret tt).
  assert (Inner : forall (x : A) (c : nat) (w1 : world),
    truthy (arg 0 (res x)) = false ->
    w_frames w1 = (fs ++ [Frame c true])%list ->
    inner x (res x) w1
    = (if Nat.eqb (S c) n then final [VNull] else ret tt)
        (with_frames (fs ++ [Frame (S c) true])%list w1)).
  { intros x c [h cl t lg f] Hr Hf. cbn [w_frames] in Hf. subst f.
    unfold inner. cbn zeta. rewrite Hr.
    unfold bind, read_frame, write_frame, with_frames.
    cbn [w_frames w_heap w_clock w_tick w_log].
    unfold i. rewrite nth_last, frames_set_last. cbn [completed live].
    destruct (S c =? n)%nat; reflexivity. }
  assert (Loop : forall (suffix : list A) (c : nat) (w' : world),
    suffix <> [] ->
    (forall x, In x suffix -> In x arr) ->
    w_frames w' = (fs ++ [Frame c true])%list ->
    c + List.length suffix = n ->
    for_each suffix (fun x => body x ;; inner x (res x)) w'
    = final [VNull]
        (with_frames (fs ++ [Frame n true])%list
                     (fold_left (fun w x => snd (body x w)) suffix w'))).
  { induction suffix as [|x r IH]; intros c w' Hs Hin Hf Hc; [congruence|].
    cbn [for_each fold_left].
    assert (Sx : steady (body x)) by (apply St, Hin; left; reflexivity).
    rewrite bind_assoc.
    erewrite bind_ok by (exact (steady_run (body x) w' Sx)).
    destruct (Sx w') as (_ & Fx & _).
    set (w1 := snd (body x w')) in *.
    unfold bind at 1.
    rewrite (Inner x c w1) by
        (try (apply R, Hin; left; reflexivity); congruence).
    destruct r as [|y r].
    - cbn [List.length] in Hc.
      replace (S c =? n)%nat with true by (symmetry; apply Nat.eqb_eq; lia).
      cbn [for_each fold_left].
      change ((final [VNull] ;; ret tt)
                (with_frames (fs ++ [Frame (S c) true])%list w1)
              = final [VNull] (with_frames (fs ++ [Frame n true])%list w1)).
      rewrite bind_ret_unit.
      replace (S c) with n by lia. reflexivity.
    - cbn [List.length] in Hc.
      replace (S c =? n)%nat with false by (symmetry; apply Nat.eqb_neq; lia).
      unfold ret at 1.
      rewrite (IH (S c)).
      + rewrite with_frames_fold; [reflexivity|].
        intros z Hz. apply St, Hin. right. exact Hz.
      + discriminate.
      + intros z Hz. apply Hin. right. exact Hz.
      + reflexivity.
      + cbn [List.length]. lia. }
  unfold forEach. destruct arr as [|a arr]; [congruence|].
  unfold new_frame at 1. unfold bind at 1.
  fold (with_frames (w_frames w ++ [Frame 0 true])%list w).
  fold fs. fold i. fold n.
  change (for_each (a :: arr)
            (fun x => body x ;; inner x (res x))
            (with_frames (fs ++ [Frame 0 true])%list w)
          = final [VNull]
              (with_frames (fs ++ [Frame n true])%list
                 (fold_left (fun w x => snd (body x w)) (a :: arr) w))).
  rewrite (Loop (a :: arr) 0).
  - rewrite with_frames_fold; [reflexivity|exact St].
  - discriminate.
  - auto.
  - reflexivity.
  - reflexivity.
Qed.

Lemma for_each_ext {A} (F G : A -> M unit) (l : list A) (w : world) :
  (forall x w', F x w' = G x w') -> for_each l F w = for_each l G w.
Proof.
  intros E. revert w. induction l as [|x l IH]; intros w; [reflexivity|].
  cbn [for_each]. unfold bind. rewrite E.
  destruct (G x w) as [[[]|e] w']; [apply IH|reflexivity].
Qed.

Lemma forEach_ext {A} (it1 it2 : A -> callback -> M unit) (arr : list A)
      (final : callback) (w : world) :
  (forall x k w', it1 x k w' = it2 x k w') ->
  forEach arr it1 final w = forEach arr it2 final w.
Proof.
  intros E. unfold forEach. destruct arr as [|a arr]; [reflexivity|].
  unfold bind. destruct (new_frame w) as [[i|e] w']; [|reflexivity].
  apply for_each_ext. intros x w''. apply E.
Qed.

End AsyncFacts.

(* ===================================================================== *)
(** * Creating each item of a list                                         *)
(* ===================================================================== *)

Module CreateEachFacts.

Import Num JS Eff Criteria Lib Facade Wrapper.
Import CriteriaFacts FacadeFacts Steps AsyncFacts.
Local Open Scope string_scope.
Local Open Scope eff_scope.

(** What [create] does for one item before the adapter calls back. *)
Definition create_step (cfg : config) (collectionName : string)
           (values : value) : M unit :=
  stamp (createdAt cfg) values "createdAt" ;;
  stamp (updatedAt cfg) values "updatedAt" ;;
  emit (EvAdapter "create" [VStr collectionName; values]).

Definition create_event (collectionName : string) (values : value) : event :=
  EvAdapter "create" [VStr collectionName; values].

Definition all_references (items : list value) : Prop :=
  forall v, In v items -> exists l, v = VRef l.

Lemma create_step_steady (cfg : config) (collectionName : string) (l : loc) :
  steady (create_step cfg collectionName (VRef l)).
Proof.
  unfold create_step. apply steady_bind; [apply steady_stamp|].
  apply steady_bind; [apply steady_stamp|]. apply steady_emit.
Qed.

Lemma stamp_log (flag : value) (l : loc) (field : string) (w : world) :
  w_log (snd (stamp flag (VRef l) field w)) = w_log w.
Proof.
  destruct w as [h c t lg f]. unfold stamp.
  destruct (truthy flag); [|reflexivity].
  unfold bind, new_Date, setp, bind, read_heap, write_heap.
  cbn [set w_heap w_clock w_tick w_log w_frames].
  destruct (nth_error h l) as [[ps|items ps]|]; try reflexivity.
  destruct (array_index field); reflexivity.
Qed.

Lemma create_step_log (cfg : config) (collectionName : string) (l : loc)
      (w : world) :
  w_log (snd (create_step cfg collectionName (VRef l) w))
  = (w_log w ++ [create_event collectionName (VRef l)])%list.
Proof.
  unfold create_step.
  pose proof (steady_run _ w (steady_stamp (createdAt cfg) l "createdAt"))
    as E1.
  unfold bind at 1. rewrite E1.
  set (w1 := snd (stamp (createdAt cfg) (VRef l) "createdAt" w)).
  pose proof (steady_run _ w1 (steady_stamp (updatedAt cfg) l "updatedAt"))
    as E2.
  unfold bind at 1. rewrite E2.
  unfold emit. cbn [snd w_log]. rewrite stamp_log.
  unfold w1. rewrite stamp_log. reflexivity.
Qed.

Lemma create_steps_log (cfg : config) (collectionName : string)
      (items : list value) :
  all_references items ->
  forall w,
    w_log (fold_left
             (fun w v => snd (create_step cfg collectionName v w)) items w)
    = (w_log w ++ map (create_event collectionName) items)%list.
Proof.
  induction items as [|v items IH]; intros R w.
  - cbn. rewrite app_nil_r. reflexivity.
  - cbn [fold_left map].
    destruct (R v (or_introl eq_refl)) as (l & ->).
    rewrite IH by (intros x Hx; apply R; right; exact Hx).
    rewrite create_step_log. rewrite <- app_assoc. reflexivity.
Qed.

(** X18.  The default [createEach], with a lock that is granted at once and
    an adapter whose [create] succeeds: [create] is called for every
    item of the list, once, in the order of the list, and after the last
    one the callback is called, once, with [null] (with no argument for
    an empty list). *)
Theorem createEach_creates_in_order
        (cfg : config) (models : loc) (X : operations)
        (collectionName : string) (la : loc) (items : list value)
        (aps : props) (w : world) :
  a_createEach X = None ->
  nth_error (w_heap w) la = Some (CArr items aps) ->
  all_references items ->
  let r := createEach (Samples.store_adapter cfg models) X uncontended
                      collectionName (VRef la) user_cb w in
  fst r = Ok tt
  /\ w_log (snd r)
     = (w_log w ++ map (create_event collectionName) items
        ++ [EvCallback (match items with [] => [] | _ => [VNull] end)])%list.
Proof.
  intros Hx Ha R r. unfold r, createEach. rewrite Hx. unfold uncontended.
  assert (Ee : elements (VRef la) w = (Ok items, w)).
  { unfold elements. erewrite bind_ok by (exact (getp_length Ha)).
    unfold read_heap, bind, ret. rewrite Ha. reflexivity. }
  erewrite bind_ok by (exact Ee).
  destruct items as [|v items].
  - cbn [forEach]. split; [reflexivity|]. cbn. reflexivity.
  - set (arr := v :: items) in *.
    rewrite (forEach_ext _
               (fun x k => create_step cfg collectionName x ;; k [VNull; x])).
    2:{ intros x k w'. unfold create, create_step. cbn [Samples.store_adapter
          a_create a_config]. rewrite !bind_assoc.
        unfold bind. destruct (stamp (createdAt cfg) x "createdAt" w')
          as [[[]|e] w1]; [|reflexivity].
        destruct (stamp (updatedAt cfg) x "updatedAt" w1)
          as [[[]|e] w2]; reflexivity. }
    rewrite forEach_steady.
    + unfold user_cb, emit, with_frames. cbn [fst snd w_log].
      split; [reflexivity|].
      rewrite create_steps_log by exact R. rewrite <- app_assoc.
      reflexivity.
    + discriminate.
    + intros x Hx'. destruct (R x Hx') as (l & ->).
      apply create_step_steady.
    + intros x _. reflexivity.
Qed.

Lemma createEach_creates_in_order_witness :
  let X := Operations None None None None None None in
  let cfg := Config (VBool true) (VBool true) VUndefined in
  let w := Samples.world_of [CArr [VRef 1; VRef 2] []; CObj []; CObj []] in
  w_log (snd (createEach (Samples.store_adapter cfg 0) X uncontended "user"
                         (VRef 0) user_cb w))
  = [EvAdapter "create" [VStr "user"; VRef 1];
     EvAdapter "create" [VStr "user"; VRef 2];
     EvCallback [VNull]].
Proof.
  intros X cfg w.
  refine (proj2 (createEach_creates_in_order cfg 0 X "user" 0
                   [VRef 1; VRef 2] [] w eq_refl eq_refl _)).
  intros v [<-|[<-|[]]]; eexists; reflexivity.
Defined.

End CreateEachFacts.

(* ===================================================================== *)
(** * What [alter] asks of an adapter with column operations               *)
(* ===================================================================== *)

Module AlterFacts.

Import Num JS Eff Criteria Lib Facade Wrapper.
Import CriteriaFacts FacadeFacts Steps AsyncFacts.
Local Open Scope string_scope.
Local Open Scope eff_scope.

(** An attribute of the target under whose name the collection holds
    nothing truthy, of its own or inherited. *)
Definition fresh (current : props) (kv : string * value) : bool :=
  negb (truthy (held_under current (fst kv))).

(** An attribute of the collection under whose name the target does not
    hold an equal definition: one that is to go, or one that is to
    change. *)
Definition changed (h : heap) (target : props) (kv : string * value) : bool :=
  negb (eq_values (S (List.length h)) h (held_under target (fst kv))
                  (snd kv)).

Definition lacking (target : props) (kv : string * value) : bool :=
  negb (truthy (held_under target (fst kv))).

(** A mapping of attributes that [_.each] walks name by name, in the
    order in which the names were added: no name is an array index,
    none is [__proto__], and there is no numeric [length]. *)
Definition named (ps : props) : Prop :=
  (forall k, In k (keys ps) -> element_index k = None /\ k <> "__proto__")
  /\ array_like ps = None.

Definition add_event (collectionName : string) (kv : string * value)
  : event :=
  EvAdapter "addAttribute" [VStr collectionName; VStr (fst kv); snd kv].

Definition remove_event (collectionName : string) (kv : string * value)
  : event :=
  EvAdapter "removeAttribute" [VStr collectionName; VStr (fst kv); snd kv].

Definition all_truthy (ps : props) : Prop :=
  forall kv, In kv ps -> truthy (snd kv) = true.

Lemma assoc_set_added (k : string) (v : value) (ps : props) :
  ~ In k (keys ps) -> element_index k = None ->
  assoc_set k v ps = (ps ++ [(k, v)])%list.
Proof.
  intros H E. apply assoc_set_new; [|exact E]. apply assoc_none. exact H.
Qed.

Lemma assoc_set_last (k : string) (v x : value) (ps : props) :
  ~ In k (keys ps) ->
  assoc_set k x (ps ++ [(k, v)])%list = (ps ++ [(k, x)])%list.
Proof.
  intros H. rewrite (assoc_set_mid k v x ps [] H). reflexivity.
Qed.

Lemma keys_app (ps qs : props) : keys (ps ++ qs)%list = (keys ps ++ keys qs)%list.
Proof. unfold keys. apply map_app. Qed.

Lemma keys_filter (f : string * value -> bool) (ps : props) (k : string) :
  In k (keys (filter f ps)) -> In k (keys ps).
Proof.
  unfold keys. intros H. apply in_map_iff in H.
  destruct H as (kv & <- & Hin). apply filter_In in Hin.
  apply in_map. apply Hin.
Qed.

Lemma NoDup_keys_filter (f : string * value -> bool) (ps : props) :
  NoDup (keys ps) -> NoDup (keys (filter f ps)).
Proof.
  induction ps as [|[k v] ps IH]; intros N; [exact N|].
  cbn [keys map fst] in N. inversion N as [|? ? Hn N']; subst.
  cbn [filter]. destruct (f (k, v)).
  - cbn [keys map fst]. constructor; [|apply IH; exact N'].
    intros Hin. apply Hn. apply (keys_filter f). exact Hin.
  - apply IH. exact N'.
Qed.

Lemma lookup_in (ps : props) (k : string) (v : value) :
  NoDup (keys ps) -> In (k, v) ps -> Facade.lookup ps k = v.
Proof.
  intros N H. unfold Facade.lookup. rewrite (in_assoc k v ps N H).
  reflexivity.
Qed.

(** The first loop of [alter]. *)
Lemma checkAttributes_fresh (lo : loc) (current : props) (w : world) :
  nth_error (w_heap w) lo = Some (CObj current) ->
  forall (entries acc : props),
    NoDup (keys entries) ->
    (forall k, In k (keys entries) -> element_index k = None) ->
    (forall k, In k (keys entries) -> ~ In k (keys acc)) ->
    checkAttributes (VRef lo) entries acc w
    = (Ok (acc ++ filter (fresh current) entries)%list, w).
Proof.
  intros Ho. induction entries as [|[k a] entries IH]; intros acc N I D.
  - cbn. rewrite app_nil_r. reflexivity.
  - cbn [keys map fst] in N. inversion N as [|? ? Hn N']; subst.
    cbn [checkAttributes].
    erewrite bind_ok by (exact (memberp_obj w lo current k Ho)).
    change (negb (truthy (held_under current k)))
      with (fresh current (k, a)).
    cbn [filter]. destruct (fresh current (k, a)).
    + rewrite assoc_set_added
        by (apply D + apply I; left; reflexivity).
      rewrite IH.
      * rewrite <- app_assoc. reflexivity.
      * exact N'.
      * intros k' Hk'. apply I. right. exact Hk'.
      * intros k' Hk'. rewrite keys_app. intros Hin.
        apply in_app_or in Hin. destruct Hin as [Hin|[<-|[]]].
        -- apply (D k'); [right; exact Hk'|exact Hin].
        -- apply Hn. exact Hk'.
    + apply IH; [exact N'| |].
      * intros k' Hk'. apply I. right. exact Hk'.
      * intros k' Hk'. apply D. right. exact Hk'.
Qed.

(** The second loop of [alter]. *)
Lemma markDeprecated_changed (lt : loc) (target : props) (w : world) :
  nth_error (w_heap w) lt = Some (CObj target) ->
  forall (entries dep new : props),
    NoDup (keys entries) ->
    (forall k, In k (keys entries) -> element_index k = None) ->
    (forall k, In k (keys entries) -> ~ In k (keys dep)) ->
    (forall k, In k (keys entries) -> ~ In k (keys new)) ->
    markDeprecated (VRef lt) entries dep new w
    = (Ok ((dep ++ filter (fun kv => lacking target kv
                                     || changed (w_heap w) target kv)
                          entries)%list,
           (new ++ filter (changed (w_heap w) target) entries)%list), w).
Proof.
  intros Ht. induction entries as [|[k a] entries IH];
    intros dep new N I Dd Dn.
  - cbn. rewrite !app_nil_r. reflexivity.
  - cbn [keys map fst] in N. inversion N as [|? ? Hn N']; subst.
    cbn [markDeprecated].
    erewrite bind_ok by (exact (memberp_obj w lt target k Ht)).
    erewrite bind_ok by (exact (memberp_obj w lt target k Ht)).
    unfold isEqual. unfold read_heap at 1. unfold bind at 2.
    unfold ret at 1. unfold bind at 1.
    change (negb (truthy (held_under target k)))
      with (lacking target (k, a)).
    change (negb (eq_values (S (List.length (w_heap w))) (w_heap w)
                            (held_under target k) a))
      with (changed (w_heap w) target (k, a)).
    cbn [filter].
    assert (Kd : ~ In k (keys dep)) by (apply Dd; left; reflexivity).
    assert (Kn : ~ In k (keys new)) by (apply Dn; left; reflexivity).
    assert (Ki : element_index k = None) by (apply I; left; reflexivity).
    assert (I' : forall k', In k' (keys entries) -> element_index k' = None).
    { intros k' Hk'. apply I. right. exact Hk'. }
    assert (Step : forall dep' new' : props,
      keys dep' = keys dep \/ keys dep' = (keys dep ++ [k])%list ->
      keys new' = keys new \/ keys new' = (keys new ++ [k])%list ->
      (forall k', In k' (keys entries) -> ~ In k' (keys dep'))
      /\ (forall k', In k' (keys entries) -> ~ In k' (keys new'))).
    { intros dep' new' Ed En. split; intros k' Hk' Hin.
      - destruct Ed as [Ed|Ed]; rewrite Ed in Hin.
        + apply (Dd k'); [right; exact Hk'|exact Hin].
        + apply in_app_or in Hin. destruct Hin as [Hin|[<-|[]]].
          * apply (Dd k'); [right; exact Hk'|exact Hin].
          * apply Hn. exact Hk'.
      - destruct En as [En|En]; rewrite En in Hin.
        + apply (Dn k'); [right; exact Hk'|exact Hin].
        + apply in_app_or in Hin. destruct Hin as [Hin|[<-|[]]].
          * apply (Dn k'); [right; exact Hk'|exact Hin].
          * apply Hn. exact Hk'. }
    destruct (lacking target (k, a)) eqn:El;
      destruct (changed (w_heap w) target (k, a)) eqn:Ec;
      cbn [orb].
    + rewrite (assoc_set_added k a dep Kd Ki).
      rewrite (assoc_set_last k a a dep Kd).
      rewrite (assoc_set_added k a new Kn Ki).
      destruct (Step (dep ++ [(k, a)])%list (new ++ [(k, a)])%list)
        as [D1 D2];
        [right; apply keys_app|right; apply keys_app|].
      rewrite (IH _ _ N' I' D1 D2). rewrite <- !app_assoc. reflexivity.
    + rewrite (assoc_set_added k a dep Kd Ki).
      destruct (Step (dep ++ [(k, a)])%list new) as [D1 D2];
        [right; apply keys_app|left; reflexivity|].
      rewrite (IH _ _ N' I' D1 D2). rewrite <- !app_assoc. reflexivity.
    + rewrite (assoc_set_added k a dep Kd Ki).
      rewrite (assoc_set_added k a new Kn Ki).
      destruct (Step (dep ++ [(k, a)])%list (new ++ [(k, a)])%list)
        as [D1 D2];
        [right; apply keys_app|right; apply keys_app|].
      rewrite (IH _ _ N' I' D1 D2). rewrite <- !app_assoc. reflexivity.
    + destruct (Step dep new) as [D1 D2];
        [left; reflexivity|left; reflexivity|].
      rewrite (IH _ _ N' I' D1 D2). reflexivity.
Qed.


Lemma eq_values_truthy (fuel : nat) (h : heap) (x y : value) :
  eq_values fuel h x y = true -> truthy x = truthy y.
Proof.
  destruct fuel; destruct x, y; simpl; intros H; try discriminate;
    try reflexivity.
  - apply Bool.eqb_prop in H. congruence.
  - destruct x, x0; simpl in *; try discriminate; reflexivity.
  - apply String.eqb_eq in H. congruence.
  - apply Bool.eqb_prop in H. congruence.
  - destruct x, x0; simpl in *; try discriminate; reflexivity.
  - apply String.eqb_eq in H. congruence.
Qed.

Lemma lacking_is_changed (h : heap) (current target : props) :
  NoDup (keys current) ->
  all_truthy current ->
  filter (fun kv => lacking target kv || changed h target kv) current
  = filter (changed h target) current.
Proof.
  intros N T. apply filter_ext_in. intros [k a] Hin.
  destruct (changed h target (k, a)) eqn:Ec; [apply orb_true_r|].
  rewrite orb_false_r. unfold changed in Ec. cbn [fst snd] in Ec.
  apply negb_false_iff in Ec. apply eq_values_truthy in Ec.
  unfold lacking. cbn [fst]. rewrite Ec.
  pose proof (T (k, a) Hin) as Ha. cbn [snd] in Ha. rewrite Ha.
  reflexivity.
Qed.

Lemma emit_keys_log (ev : string -> event) (ks : list string) (w : world) :
  w_log (fold_left (fun w k => snd (emit (ev k) w)) ks w)
  = (w_log w ++ map ev ks)%list.
Proof.
  revert w. induction ks as [|k ks IH]; intros w.
  - cbn. rewrite app_nil_r. reflexivity.
  - cbn [fold_left map]. rewrite IH. unfold emit. cbn [snd w_log].
    rewrite <- app_assoc. reflexivity.
Qed.

Lemma map_keys_lookup (ev : string -> value -> event) (ps : props) :
  NoDup (keys ps) ->
  map (fun k => ev k (Facade.lookup ps k)) (keys ps)
  = map (fun kv => ev (fst kv) (snd kv)) ps.
Proof.
  intros N. unfold keys. rewrite map_map. apply map_ext_in.
  intros [k a] Hin. cbn [fst snd]. rewrite (lookup_in ps k a N Hin).
  reflexivity.
Qed.

(** A loop of [alter] over the keys of a mapping, on an adapter whose
    column operation records the call and reports success. *)
Lemma forEach_columns (method collectionName : string) (ps : props)
      (final : callback) (w : world) :
  NoDup (keys ps) ->
  exists w',
    forEach (keys ps)
      (fun attrName k =>
         emit (EvAdapter method [VStr collectionName; VStr attrName;
                                 Facade.lookup ps attrName]) ;;
         k [])
      final w
    = final (match ps with [] => [] | _ => [VNull] end) w'
    /\ w_log w'
       = (w_log w
          ++ map (fun kv => EvAdapter method [VStr collectionName;
                                              VStr (fst kv); snd kv]) ps)%list.
Proof.
  intros N. destruct ps as [|kv ps].
  - exists w. split; [reflexivity|]. cbn. rewrite app_nil_r. reflexivity.
  - eexists. split.
    + apply (forEach_steady (keys (kv :: ps))
               (fun attrName =>
                  emit (EvAdapter method [VStr collectionName; VStr attrName;
                                          Facade.lookup (kv :: ps) attrName]))
               (fun _ => [])).
      * discriminate.
      * intros x _. apply steady_emit.
      * intros x _. reflexivity.
    + unfold with_frames. cbn [w_log].
      rewrite (emit_keys_log
                 (fun k => EvAdapter method [VStr collectionName; VStr k;
                                             Facade.lookup (kv :: ps) k])).
      rewrite (map_keys_lookup
                 (fun k v => EvAdapter method [VStr collectionName;
                                               VStr k; v])
                 (kv :: ps) N).
      reflexivity.
Qed.

(** An adapter without [alter] whose [describe] answers with the object
    at [current], and whose column operations record what they are
    asked and report success. *)
Definition records_columns (A : adapter) (current : loc) : Prop :=
  a_alter A = None
  /\ (exists d, a_describe A = Some d
                /\ forall name k w, d name k w = k [VNull; VRef current] w)
  /\ (exists add,
        a_addAttribute A = Some add
        /\ forall name attrName def k w,
             add name attrName def k w
             = (emit (EvAdapter "addAttribute"
                                [VStr name; VStr attrName; def]) ;;
                k []) w)
  /\ (exists remove,
        a_removeAttribute A = Some remove
        /\ forall name attrName def k w,
             remove name attrName def k w
             = (emit (EvAdapter "removeAttribute"
                                [VStr name; VStr attrName; def]) ;;
                k []) w).

Lemma column_adapter_records (lo : loc) :
  records_columns (Samples.column_adapter lo) lo.
Proof.
  split; [reflexivity|]. split; [|split].
  - eexists. split; [reflexivity|]. reflexivity.
  - eexists. split; [reflexivity|]. reflexivity.
  - eexists. split; [reflexivity|]. reflexivity.
Defined.

Lemma alter_columns_run
      (A : adapter) (collectionName : string) (lo lt : loc)
      (current target : props) (w : world) :
  records_columns A lo ->
  nth_error (w_heap w) lo = Some (CObj current) ->
  nth_error (w_heap w) lt = Some (CObj target) ->
  NoDup (keys current) ->
  NoDup (keys target) ->
  named current ->
  named target ->
  all_truthy current ->
  let again := filter (changed (w_heap w) target) current in
  exists w',
    alter A collectionName (VRef lt) user_cb w = (Ok tt, w')
    /\ w_log w'
       = (w_log w
          ++ map (add_event collectionName) (filter (fresh current) target)
          ++ map (add_event collectionName) again
          ++ map (remove_event collectionName) again
          ++ [EvCallback (match again with [] => [] | _ => [VNull] end)])%list.
Proof.
  intros (Hal & (d & Hd & Ed) & (add & Hadd & Eadd) & (rem & Hrem & Erem))
         Ho Ht Nc Nt [Ic _] [It _] T again.
  unfold alter. rewrite Hal, Hadd, Hrem.
  unfold describe. rewrite Hd, Ed.
  unfold afterDescribe.
  cbn [arg nth truthy].
  unfold read_heap at 1. unfold bind at 1.
  cbn [each_entries]. rewrite Ht.
  erewrite bind_ok.
  2:{ apply (checkAttributes_fresh lo current w Ho target [] Nt).
      - intros k Hk. apply It. exact Hk.
      - intros k _ []. }
  cbn [app].
  unfold read_heap at 1. unfold bind at 1.
  cbn [each_entries]. rewrite Ho.
  set (new1 := filter (fresh current) target).
  assert (Dn : forall k, In k (keys current) -> ~ In k (keys new1)).
  { intros k Hk Hin. unfold keys in Hk, Hin.
    apply in_map_iff in Hk. destruct Hk as ([k' a] & <- & Hk).
    apply in_map_iff in Hin. destruct Hin as ([k2 a2] & E & Hin).
    cbn [fst] in E. subst k2. apply filter_In in Hin.
    destruct Hin as [_ Hf]. unfold fresh in Hf. cbn [fst] in Hf.
    rewrite (held_under_in current k' a Nc Hk) in Hf.
    pose proof (T (k', a) Hk) as Ha. cbn [snd] in Ha.
    rewrite Ha in Hf. discriminate. }
  erewrite bind_ok.
  2:{ apply (markDeprecated_changed lt target w Ht current [] new1 Nc).
      - intros k Hk. apply Ic. exact Hk.
      - intros k _ [].
      - exact Dn. }
  cbn [fst snd app].
  rewrite (lacking_is_changed (w_heap w) current target Nc T).
  fold again.
  set (new := (new1 ++ again)%list).
  assert (Nn : NoDup (keys new)).
  { unfold new. rewrite keys_app. apply NoDup_app.
    - apply NoDup_keys_filter. exact Nt.
    - apply NoDup_keys_filter. exact Nc.
    - intros k H1 H2. apply (Dn k); [|exact H1].
      apply (keys_filter (changed (w_heap w) target)). exact H2. }
  assert (Na : NoDup (keys again)).
  { apply NoDup_keys_filter. exact Nc. }
  rewrite (forEach_ext _
             (fun attrName k =>
                emit (EvAdapter "addAttribute"
                        [VStr collectionName; VStr attrName;
                         Facade.lookup new attrName]) ;;
                k []))
    by (intros x k w'; apply Eadd).
  destruct (forEach_columns "addAttribute" collectionName new
              (fun args' =>
                 if truthy (arg 0 args') then throw (Thrown (arg 0 args'))
                 else
                   forEach (keys again)
                     (fun attrName k =>
                        rem collectionName attrName
                            (Facade.lookup again attrName) k)
                     user_cb) w Nn) as (w1 & E1 & L1).
  rewrite E1.
  assert (Efalse : truthy (arg 0 (match new with [] => [] | _ => [VNull] end))
                   = false).
  { destruct new; reflexivity. }
  rewrite Efalse.
  rewrite (forEach_ext _
             (fun attrName k =>
                emit (EvAdapter "removeAttribute"
                        [VStr collectionName; VStr attrName;
                         Facade.lookup again attrName]) ;;
                k []))
    by (intros x k w'; apply Erem).
  destruct (forEach_columns "removeAttribute" collectionName again
              user_cb w1 Na) as (w2 & E2 & L2).
  rewrite E2. unfold user_cb, emit.
  eexists. split; [reflexivity|]. cbn [w_log].
  rewrite L2, L1. unfold new. rewrite map_app.
  rewrite <- !app_assoc. reflexivity.
Qed.

(** X19.  [alter] on an adapter without [alter] whose [describe] answers
    with the current attributes and whose [addAttribute] and
    [removeAttribute] record the call and report success.  The
    attributes are walked name by name in the order in which they were
    added (no name is an array index or [__proto__], no definition is a
    numeric [length]), and the current definitions are truthy.  Every
    attribute of the target is added under whose name the collection
    holds nothing truthy, of its own or inherited: an attribute of the
    target called [constructor] or [toString] is never taken for a new
    one, since every object inherits a member of that name.  Every
    attribute of the collection under whose name the target does not
    hold an equal definition (one that is to go as well as one that is
    to change) is added once more with its old definition, and then
    removed; the new definition of a changed attribute is never passed
    to the adapter.  All additions come before all removals, and the
    callback is called once, at the end. *)
Theorem alter_adds_then_removes
        (A : adapter) (collectionName : string) (lo lt : loc)
        (current target : props) (w : world) :
  records_columns A lo ->
  nth_error (w_heap w) lo = Some (CObj current) ->
  nth_error (w_heap w) lt = Some (CObj target) ->
  NoDup (keys current) ->
  NoDup (keys target) ->
  named current ->
  named target ->
  all_truthy current ->
  let r := run (alter A collectionName (VRef lt) user_cb) w in
  let again := filter (changed (w_heap w) target) current in
  fst r = Ok tt
  /\ w_log (snd r)
     = (w_log w
        ++ map (add_event collectionName) (filter (fresh current) target)
        ++ map (add_event collectionName) again
        ++ map (remove_event collectionName) again
        ++ [EvCallback (match again with [] => [] | _ => [VNull] end)])%list.
Proof.
  intros HA Ho Ht Nc Nt Mc Mt T r again.
  destruct (alter_columns_run A collectionName lo lt current target w
              HA Ho Ht Nc Nt Mc Mt T) as (w' & E & L).
  unfold r, run. rewrite E. split; [reflexivity|exact L].
Qed.

Lemma named_sample (ps : props) :
  forallb (fun kv => match element_index (fst kv) with
                     | Some _ => false
                     | None => negb (String.eqb (fst kv) "__proto__")
                     end) ps = true ->
  array_like ps = None ->
  named ps.
Proof.
  intros H L. split; [|exact L].
  intros k Hk. unfold keys in Hk. apply in_map_iff in Hk.
  destruct Hk as (kv & <- & Hin).
  rewrite forallb_forall in H. specialize (H kv Hin).
  destruct (element_index (fst kv)); [discriminate|].
  split; [reflexivity|].
  apply negb_true_iff in H. apply String.eqb_neq. exact H.
Defined.

Lemma alter_adds_then_removes_witness :
  let w := Samples.world_of
             [CObj [("a", VStr "string"); ("b", VStr "int");
                    ("d", VStr "int")];
              CObj [("a", VStr "string"); ("c", VStr "bool");
                    ("d", VStr "text"); ("constructor", VStr "text")]] in
  w_log (snd (run (alter (Samples.column_adapter 0) "user" (VRef 1) user_cb)
                  w))
  = [EvAdapter "addAttribute" [VStr "user"; VStr "c"; VStr "bool"];
     EvAdapter "addAttribute" [VStr "user"; VStr "b"; VStr "int"];
     EvAdapter "addAttribute" [VStr "user"; VStr "d"; VStr "int"];
     EvAdapter "removeAttribute" [VStr "user"; VStr "b"; VStr "int"];
     EvAdapter "removeAttribute" [VStr "user"; VStr "d"; VStr "int"];
     EvCallback [VNull]].
Proof.
  intros w.
  refine (proj2 (alter_adds_then_removes (Samples.column_adapter 0)
                   "user" 0 1
                   [("a", VStr "string"); ("b", VStr "int");
                    ("d", VStr "int")]
                   [("a", VStr "string"); ("c", VStr "bool");
                    ("d", VStr "text"); ("constructor", VStr "text")]
                   w (column_adapter_records 0) eq_refl eq_refl _ _ _ _ _)).
  - repeat constructor; simpl; intuition discriminate.
  - repeat constructor; simpl; intuition discriminate.
  - apply named_sample; reflexivity.
  - apply named_sample; reflexivity.
  - intros kv Hin. simpl in Hin.
    repeat (destruct Hin as [<-|Hin]; [reflexivity|]). destruct Hin.
Defined.

End AlterFacts.

(* ===================================================================== *)
(** * The lock queue: acquisition, hand-over, and what can go wrong        *)
(* ===================================================================== *)

Module QueueFacts.

Import JS Locks Loop InProcess LocksFacts MutexFacts.
Local Open Scope Z_scope.

(** An entry that stands in the way of [l]: same name, another call,
    smaller id. *)
Definition conflicts (l e : lock) : Prop :=
  name e = name l /\ uuid e <> uuid l /\ id e < id l.

Lemma eachLock_conflicts (l e : lock) (acc : option lock) :
  ~ conflicts l e -> eachLock l acc e = acc.
Proof.
  intros H. unfold eachLock.
  destruct (String.eqb (name e) (name l)) eqn:En; [|reflexivity].
  destruct (String.eqb (uuid e) (uuid l)) eqn:Eu; [reflexivity|].
  destruct (id e <? id l) eqn:Ei; [|reflexivity].
  exfalso. apply H. unfold conflicts.
  apply String.eqb_eq in En. apply String.eqb_neq in Eu.
  apply Z.ltb_lt in Ei. auto.
Qed.

Lemma findConflict_none (ls : list lock) (l : lock) :
  findConflict ls l = None <-> forall e, In e ls -> ~ conflicts l e.
Proof.
  split.
  - intros H e Hin (Hn & Hu & Hi).
    apply (findConflict_some ls l e Hin Hn Hu Hi). exact H.
  - intros H. unfold findConflict.
    assert (G : forall acc, fold_left (eachLock l) ls acc = acc).
    { induction ls as [|x ls IH]; intros acc; [reflexivity|].
      cbn [fold_left]. rewrite eachLock_conflicts by (apply H; left; reflexivity).
      apply IH. intros e He. apply H. right. exact He. }
    apply G.
Qed.

Lemma transaction_now_scan (c : call) (col : collection) :
  let l := entry_of c col in
  let s := transaction_now c col in
  let scan :=
    [ Called c;
      Served (Create (c_uuid c) (c_name c) (c_atomicLogic c)
                     (c_afterUnlock c))
             (Created VNull (Some l));
      Served FindAll (Found VNull (entries col ++ [l])) ] in
  entries (coll s) = entries col ++ [l]
  /\ pending s = [] /\ ready s = []
  /\ ((forall e, In e (entries col) -> ~ conflicts l e) ->
      held s = [l]
      /\ trace s = scan ++ [ Did (SetWarningTimer l);
                             Did (CallAtomicLogic (c_atomicLogic c) VNull
                                                  (Unlock l)) ])
  /\ ((exists e, In e (entries col) /\ conflicts l e) ->
      held s = [] /\ trace s = scan).
Proof.
  intros l s scan. unfold s, transaction_now. simpl.
  fold (entry_of c col). fold l.
  assert (Own : forall e, In e (entries col ++ [l]) ->
                  (forall e', In e' (entries col) -> ~ conflicts l e') ->
                  ~ conflicts l e).
  { intros e He H. apply in_app_or in He. destruct He as [He|[<-|[]]].
    - apply H. exact He.
    - intros (_ & Hu & _). apply Hu. reflexivity. }
  destruct (findConflict (entries col ++ [l]) l) as [x|] eqn:E; simpl.
  - split; [reflexivity|]. split; [reflexivity|]. split; [reflexivity|].
    split.
    + intros H. exfalso.
      assert (N : findConflict (entries col ++ [l]) l = None).
      { apply findConflict_none. intros e He. apply (Own e He H). }
      congruence.
    + intros _. split; reflexivity.
  - split; [reflexivity|]. split; [reflexivity|]. split; [reflexivity|].
    split.
    + intros _. split; reflexivity.
    + intros (e & He & Hc). exfalso.
      apply (proj1 (findConflict_none (entries col ++ [l]) l) E e).
      * apply in_or_app. left. exact He.
      * exact Hc.
Qed.

(** X20.  A call of [transaction] on a collection that answers at once: the
    entry is created and the collection is scanned; the atomic logic is
    invoked, at once and with no error, exactly when no entry of the
    same name and another call has a smaller id.  Otherwise it is not
    invoked and nothing is left in flight: the call waits for a
    release. *)
Theorem transaction_now_acquires (c : call) (col : collection) :
  let l := entry_of c col in
  let s := transaction_now c col in
  let scan :=
    [ Called c;
      Served (Create (c_uuid c) (c_name c) (c_atomicLogic c)
                     (c_afterUnlock c))
             (Created VNull (Some l));
      Served FindAll (Found VNull (entries col ++ [l])) ] in
  entries (coll s) = entries col ++ [l]
  /\ pending s = [] /\ ready s = []
  /\ ((forall e, In e (entries col) -> ~ conflicts l e) ->
      held s = [l]
      /\ trace s = scan ++ [ Did (SetWarningTimer l);
                             Did (CallAtomicLogic (c_atomicLogic c) VNull
                                                  (Unlock l)) ])
  /\ ((exists e, In e (entries col) /\ conflicts l e) ->
      held s = [] /\ trace s = scan).
Proof. exact (transaction_now_scan c col). Qed.


Lemma filter_other_uuid (u : string) (ls : list lock) :
  (forall e, In e ls -> uuid e <> u) ->
  filter (fun e => negb (String.eqb (uuid e) u)) ls = ls.
Proof.
  induction ls as [|x ls IH]; intros H; [reflexivity|].
  cbn [filter].
  assert (E : String.eqb (uuid x) u = false).
  { apply String.eqb_neq. apply H. left. reflexivity. }
  rewrite E. cbn [negb]. rewrite IH; [reflexivity|].
  intros e He. apply H. right. exact He.
Qed.

(** X21.  Acquire and release, on a collection that answers at once and holds
    no entry of the call's uuid and none that stands in its way: the
    atomic logic is invoked; once it calls [unlock(args)], the function
    to run after unlock receives [args], nothing is left in flight, and
    the collection holds the entries it held before the call. *)
Theorem transaction_round_trip (c : call) (col : collection)
        (args : list value) :
  let l := entry_of c col in
  (forall e, In e (entries col) -> ~ conflicts l e) ->
  (forall e, In e (entries col) -> uuid e <> c_uuid c) ->
  let s1 := transaction_now c col in
  let s2 := unlock_now l args (coll s1) in
  held s1 = [l]
  /\ entries (coll s2) = entries col
  /\ pending s2 = [] /\ ready s2 = []
  /\ (forall g, c_afterUnlock c = Some g ->
        In (Did (CallAfterUnlock g args)) (trace s2)).
Proof.
  intros l Hc Hu s1 s2.
  destruct (transaction_now_scan c col) as (He & _ & _ & Hacq & _).
  fold l in He, Hacq. destruct (Hacq Hc) as (Hh & _).
  split; [exact Hh|].
  unfold s2, s1, unlock_now. simpl. rewrite He.
  destruct (c_afterUnlock c) as [g|] eqn:Eg;
    destruct (getNextLock (entries col ++ [l]) l) as [n|]; simpl;
    rewrite filter_app; cbn [filter uuid l entry_of];
    rewrite String.eqb_refl; cbn [negb];
    rewrite (filter_other_uuid (c_uuid c) (entries col) Hu), app_nil_r;
    (split; [reflexivity|]); (split; [reflexivity|]);
    (split; [reflexivity|]); intros g' Hg'; try discriminate;
    injection Hg' as <-; simpl;
    repeat (first [left; reflexivity | right]).
Qed.


(** ** Executions in which the operations on the collection complete
       out of order *)

Lemma after_step (t : turn) (ts : list turn) (s s' : state) :
  take_turn t s = Some s' -> after (t :: ts) s = after ts s'.
Proof. intros H. cbn [after]. rewrite H. reflexivity. Qed.

Ltac compare_ids :=
  repeat match goal with
         | |- context [?a <? ?b] =>
             first [ replace (a <? b) with true
                       by (symmetry; apply Z.ltb_lt; unfold MAX_INTEGER; lia)
                   | replace (a <? b) with false
                       by (symmetry; apply Z.ltb_ge; unfold MAX_INTEGER; lia) ]
         end.

Ltac compare_uuids :=
  rewrite ?String.eqb_refl;
  repeat match goal with
         | E : String.eqb _ _ = false |- _ => rewrite E
         end.

Ltac settle :=
  repeat progress
    (cbn -[Z.add Z.ltb String.eqb eachLock pickNext];
     try unfold eachLock; try unfold pickNext;
     cbn -[Z.add Z.ltb String.eqb];
     compare_uuids; compare_ids).

Ltac take_one_turn :=
  erewrite after_step; [ | unfold take_turn; settle; reflexivity ].

(** No operation on the collection has failed. *)
Definition no_failure (t : list event) : bool :=
  forallb (fun e => match e with
                    | Served _ rp => negb (truthy (reply_err rp))
                    | _ => true
                    end) t.

(** How often an atomic logic has been invoked. *)
Definition invocations (t : list event) : nat :=
  count (fun e => match e with
                  | Did (CallAtomicLogic _ _ _) => true
                  | _ => false
                  end) t.

(** How often an [unlock] has been called. *)
Definition releases (t : list event) : nat :=
  count (fun e => match e with
                  | Unlocked _ _ => true
                  | _ => false
                  end) t.

(** Nothing is left to happen. *)
Definition quiescent (s : state) : Prop :=
  calls s = [] /\ pending s = [] /\ ready s = [] /\ held s = [].

Lemma quiescent_stuck (s s' : state) : quiescent s -> ~ step s s'.
Proof.
  intros (Hc & Hp & Hr & Hh) St.
  destruct St as [s c cs1 cs2 E|s r k p1 p2 E|s r k p1 p2 err E _
                 |s rp k r1 r2 E|s l args h1 h2 E];
    [rewrite Hc in E|rewrite Hp in E|rewrite Hp in E|rewrite Hr in E
    |rewrite Hh in E];
    destruct cs1 + destruct p1 + destruct r1 + destruct h1; discriminate.
Qed.

(** The first call enters and leaves its critical section while the
    second call is being made; the release scans the collection after
    the entry of the second call is created, the second call scans it
    after the entry of the first is destroyed. *)
Definition entered_twice : list turn :=
  [ Call_ 0; Serve 0; Resume 0; Serve 0; Resume 0;
    Call_ 0; Serve 0; Unlock_ 0 []; Serve 0; Resume 1; Serve 0;
    Resume 0; Serve 0; Resume 0; Resume 0 ].

(** The release of the first call scans the collection before the
    entry of the second call is created; the second call scans it
    before the entry of the first is destroyed. *)
Definition wake_up_lost : list turn :=
  [ Call_ 0; Serve 0; Resume 0; Serve 0; Resume 0;
    Unlock_ 0 []; Serve 0; Call_ 0; Serve 0; Resume 1; Serve 0;
    Resume 1; Resume 0; Serve 0; Resume 0 ].

(** After [entered_twice], a third call is made and waits; the second
    call leaves one of its two critical sections, which hands the lock
    to the third. *)
Definition third_overlaps : list turn :=
  entered_twice ++
  [ Call_ 0; Serve 0; Resume 0; Serve 0; Resume 0;
    Unlock_ 0 []; Serve 0; Resume 0; Serve 0; Resume 0 ].

(** X22.  When the operations on the collection may complete in any order,
    the atomic logic of one call can be invoked twice, with both
    critical sections open at once: the second of two calls of the same
    name is granted the lock by the release of the first, and once more
    by its own scan of the collection, which finds the entry of the
    first call gone.  No operation fails in this execution. *)
Theorem second_caller_can_enter_twice (cA cB : call) (n : Z) :
  c_name cA = c_name cB ->
  c_uuid cA <> c_uuid cB ->
  n + 1 < MAX_INTEGER ->
  let lB := Lock (n + 1) (c_uuid cB) (c_name cB) (c_atomicLogic cB)
                 (c_afterUnlock cB) in
  exists s,
    reachable (initial (Collection [] n) [cA; cB]) s
    /\ held s = [lB; lB]
    /\ entries (coll s) = [lB]
    /\ no_failure (trace s) = true.
Proof.
  intros Hn Hu Hmax lB.
  exists (after entered_twice (initial (Collection [] n) [cA; cB])).
  split; [apply after_reachable; apply reach_refl|].
  unfold lB. clear lB.
  destruct cA as [uA nA fA gA], cB as [uB nB fB gB].
  cbn [c_name c_uuid c_atomicLogic c_afterUnlock] in *. subst nB.
  assert (E1 : String.eqb uA uB = false) by (apply String.eqb_neq; exact Hu).
  assert (E2 : String.eqb uB uA = false)
    by (apply String.eqb_neq; congruence).
  unfold entered_twice, initial. unfold MAX_INTEGER in Hmax.
  destruct gA, gB; do 15 take_one_turn; repeat split.
Qed.

Lemma second_caller_can_enter_twice_witness :
  exists s,
    reachable (initial no_locks [callA; callB]) s
    /\ held s = [lockB; lockB].
Proof.
  destruct (second_caller_can_enter_twice callA callB 1 eq_refl)
    as (s & R & H & _).
  - discriminate.
  - reflexivity.
  - exists s. split; [exact R|exact H].
Defined.

(** X23.  When the operations on the collection may complete in any order, a
    call can be left waiting for ever: the release of the first call
    scans the collection before the entry of the second call exists,
    and the second call scans it while the entry of the first is still
    there.  No operation fails, nothing is left to happen, the entry of
    the second call stays in the collection, and its atomic logic has
    not been invoked (the only invocation is that of the first call). *)
Theorem second_caller_can_wait_for_ever (cA cB : call) (n : Z) :
  c_name cA = c_name cB ->
  c_uuid cA <> c_uuid cB ->
  let lB := Lock (n + 1) (c_uuid cB) (c_name cB) (c_atomicLogic cB)
                 (c_afterUnlock cB) in
  exists s,
    reachable (initial (Collection [] n) [cA; cB]) s
    /\ quiescent s
    /\ (forall s', ~ step s s')
    /\ entries (coll s) = [lB]
    /\ invocations (trace s) = 1%nat
    /\ no_failure (trace s) = true.
Proof.
  intros Hn Hu lB.
  exists (after wake_up_lost (initial (Collection [] n) [cA; cB])).
  split; [apply after_reachable; apply reach_refl|].
  unfold lB. clear lB.
  destruct cA as [uA nA fA gA], cB as [uB nB fB gB].
  cbn [c_name c_uuid c_atomicLogic c_afterUnlock] in *. subst nB.
  assert (E1 : String.eqb uA uB = false) by (apply String.eqb_neq; exact Hu).
  assert (E2 : String.eqb uB uA = false)
    by (apply String.eqb_neq; congruence).
  unfold wake_up_lost, initial.
  destruct gA, gB; do 15 take_one_turn;
    (split; [repeat split|]);
    (split; [intros s'; apply quiescent_stuck; repeat split|]);
    repeat split.
Qed.

Lemma second_caller_can_wait_for_ever_witness :
  exists s,
    reachable (initial no_locks [callA; callB]) s
    /\ quiescent s
    /\ entries (coll s) = [lockB].
Proof.
  destruct (second_caller_can_wait_for_ever callA callB 1 eq_refl)
    as (s & R & Q & _ & H & _).
  - discriminate.
  - exists s. split; [exact R|]. split; [exact Q|exact H].
Defined.

(** X24.  Mutual exclusion does not extend to three calls when the operations
    on the collection may complete in any order: after the second call
    has entered twice, its first [unlock] hands the lock to the third
    call while its other critical section is still open.  Two critical
    sections of different calls are then open at once.  No operation
    has failed, and no invocation of an atomic logic has called
    [unlock] twice: of the four invocations, two have called it once
    and two are the open critical sections. *)
Theorem third_caller_can_overlap (cA cB cC : call) (n : Z) :
  c_name cA = c_name cB -> c_name cB = c_name cC ->
  c_uuid cA <> c_uuid cB -> c_uuid cB <> c_uuid cC ->
  c_uuid cA <> c_uuid cC ->
  n + 2 < MAX_INTEGER ->
  let lB := Lock (n + 1) (c_uuid cB) (c_name cB) (c_atomicLogic cB)
                 (c_afterUnlock cB) in
  let lC := Lock (n + 2) (c_uuid cC) (c_name cC) (c_atomicLogic cC)
                 (c_afterUnlock cC) in
  exists s,
    reachable (initial (Collection [] n) [cA; cB; cC]) s
    /\ held s = [lB; lC]
    /\ uuid lB <> uuid lC
    /\ no_failure (trace s) = true
    /\ invocations (trace s) = 4%nat
    /\ releases (trace s) = 2%nat.
Proof.
  intros Hn1 Hn2 Hu1 Hu2 Hu3 Hmax lB lC.
  exists (after third_overlaps (initial (Collection [] n) [cA; cB; cC])).
  split; [apply after_reachable; apply reach_refl|].
  unfold lB, lC. clear lB lC.
  destruct cA as [uA nA fA gA], cB as [uB nB fB gB], cC as [uC nC fC gC].
  cbn [c_name c_uuid c_atomicLogic c_afterUnlock uuid] in *. subst nB nC.
  assert (E1 : String.eqb uA uB = false) by (apply String.eqb_neq; exact Hu1).
  assert (E2 : String.eqb uB uA = false)
    by (apply String.eqb_neq; congruence).
  assert (E3 : String.eqb uB uC = false) by (apply String.eqb_neq; exact Hu2).
  assert (E4 : String.eqb uC uB = false)
    by (apply String.eqb_neq; congruence).
  assert (E5 : String.eqb uA uC = false) by (apply String.eqb_neq; exact Hu3).
  assert (E6 : String.eqb uC uA = false)
    by (apply String.eqb_neq; congruence).
  unfold third_overlaps, entered_twice, initial. cbn [app].
  unfold MAX_INTEGER in Hmax.
  replace (n + 1 + 1) with (n + 2) by lia.
  destruct gA, gB, gC; do 25 take_one_turn;
    replace (n + 1 + 1) with (n + 2) by lia;
    (split; [reflexivity|]); (split; [exact Hu2|]);
    repeat split; reflexivity.
Qed.


Definition callC : call := Call "uuid-c"%string "X"%string 2 (Some 12%nat).
Definition lockC : lock := Lock 3 "uuid-c"%string "X"%string 2 (Some 12%nat).

Lemma third_caller_can_overlap_witness :
  exists s,
    reachable (initial no_locks [callA; callB; callC]) s
    /\ held s = [lockB; lockC].
Proof.
  destruct (third_caller_can_overlap callA callB callC 1 eq_refl eq_refl)
    as (s & R & H & _).
  - discriminate.
  - discriminate.
  - discriminate.
  - reflexivity.
  - exists s. split; [exact R|exact H].
Defined.

Lemma transaction_round_trip_witness :
  let s1 := transaction_now callA no_locks in
  let s2 := unlock_now lockA [VNull] (coll s1) in
  held s1 = [lockA] /\ entries (coll s2) = [].
Proof.
  intros s1 s2.
  destruct (transaction_round_trip callA no_locks [VNull])
    as (H1 & H2 & _).
  - intros e [].
  - intros e [].
  - split; [exact H1|exact H2].
Defined.

(** ** A release that fails *)

(** The holder of [cur] calls [unlock(args)], and the scan of the
    collection that the release starts with fails. *)
Definition release_scan_fails (args : list value) (err : value)
  : list turn :=
  [ Unlock_ 0 args; Refuse 0 err; Resume 0 ].

(** The scan succeeds and the deletion of the entry fails. *)
Definition release_destroy_fails (args : list value) (err : value)
  : list turn :=
  [ Unlock_ 0 args; Serve 0; Resume 0; Refuse 0 err; Resume 0 ].

(** X25.  When the scan or the deletion of a release fails, the function to
    run after unlock is called with the error alone (not with the
    arguments of [unlock]), the collection is left as it was, with the
    entry of the lock in it, and the next in line is not granted the
    lock: no atomic logic is invoked and nothing is left to happen. *)
Theorem failed_release_keeps_the_lock
        (cur : lock) (col : collection) (args : list value) (err : value)
        (ts : list turn) :
  truthy err = true ->
  ts = release_scan_fails args err \/ ts = release_destroy_fails args err ->
  let s := after ts (State col [] [] [] [cur] []) in
  coll s = col
  /\ quiescent s
  /\ (forall s', ~ step s s')
  /\ invocations (trace s) = 0%nat
  /\ (forall g, afterUnlock cur = Some g ->
        filter (fun e => match e with
                         | Did (CallAfterUnlock _ _) => true
                         | _ => false
                         end) (trace s)
        = [Did (CallAfterUnlock g [err])]).
Proof.
  intros Ht Hts s.
  assert (Q : coll s = col /\ quiescent s
              /\ invocations (trace s) = 0%nat
              /\ (forall g, afterUnlock cur = Some g ->
                    filter (fun e => match e with
                                     | Did (CallAfterUnlock _ _) => true
                                     | _ => false
                                     end) (trace s)
                    = [Did (CallAfterUnlock g [err])])).
  { unfold s. destruct Hts as [-> | ->].
    - unfold release_scan_fails. cbn [after take_turn pick held pending].
      cbn. rewrite Ht. cbn. rewrite Ht.
      destruct (afterUnlock cur) as [g|]; cbn;
        (split; [reflexivity|]); (split; [repeat split|]);
        (split; [reflexivity|]); intros g' Hg'; try discriminate;
        injection Hg' as <-; reflexivity.
    - unfold release_destroy_fails. cbn. rewrite Ht. cbn. rewrite Ht.
      destruct (afterUnlock cur) as [g|]; cbn;
        (split; [reflexivity|]); (split; [repeat split|]);
        (split; [reflexivity|]); intros g' Hg'; try discriminate;
        injection Hg' as <-; reflexivity. }
  destruct Q as (Q1 & Q2 & Q3 & Q4).
  split; [exact Q1|]. split; [exact Q2|].
  split; [intros s'; apply quiescent_stuck; exact Q2|].
  split; [exact Q3|exact Q4].
Qed.

Lemma failed_release_keeps_the_lock_witness :
  let s := after (release_destroy_fails [VNull] (VStr "down"))
                 (State (Collection [lockA; lockB] 3) [] [] [] [lockA] []) in
  entries (coll s) = [lockA; lockB] /\ quiescent s.
Proof.
  intros s.
  destruct (failed_release_keeps_the_lock lockA (Collection [lockA; lockB] 3)
              [VNull] (VStr "down")
              (release_destroy_fails [VNull] (VStr "down")) eq_refl
              (or_intror eq_refl)) as (H1 & H2 & _).
  split; [|exact H2]. unfold s. rewrite H1. reflexivity.
Defined.


(** ** An acquisition that fails *)

(** The call is made, and the creation of its entry fails. *)
Definition creation_fails (err : value) : list turn :=
  [ Call_ 0; Refuse 0 err; Resume 0 ].

(** The entry is created, and the scan that follows fails. *)
Definition scan_fails (err : value) : list turn :=
  [ Call_ 0; Serve 0; Resume 0; Refuse 0 err; Resume 0 ].

(** X26.  When the creation of the entry or the scan of the collection fails,
    the atomic logic is invoked all the same, once, with the error and
    with a function that throws it, and nothing else is left to happen.
    After a failed creation the collection is as it was.  After a failed
    scan the entry of the call stays in the collection: on a collection
    that answers at once, a later call of that name by another caller
    is not granted the lock. *)
Theorem failed_acquisition_runs_the_logic
        (c : call) (col : collection) (err : value) :
  truthy err = true ->
  let l := entry_of c col in
  let s1 := after (creation_fails err) (initial col [c]) in
  let s2 := after (scan_fails err) (initial col [c]) in
  (coll s1 = col /\ quiescent s1
   /\ filter (fun e => match e with Did _ => true | _ => false end) (trace s1)
      = [Did (CallAtomicLogic (c_atomicLogic c) err (Rethrow err))])
  /\ (entries (coll s2) = entries col ++ [l] /\ quiescent s2
      /\ filter (fun e => match e with Did _ => true | _ => false end)
                (trace s2)
         = [Did (CallAtomicLogic (c_atomicLogic c) err (Rethrow err))]
      /\ forall c2,
           c_name c2 = c_name c -> c_uuid c2 <> c_uuid c ->
           held (transaction_now c2 (coll s2)) = []).
Proof.
  intros Ht l s1 s2. split.
  - unfold s1, creation_fails. cbn. rewrite Ht. cbn. rewrite Ht. cbn.
    repeat split.
  - unfold s2, scan_fails. cbn. rewrite Ht. cbn. rewrite Ht. cbn.
    fold (entry_of c col). fold l.
    split; [reflexivity|]. split; [repeat split|]. split; [reflexivity|].
    intros c2 Hn Hu.
    destruct (transaction_now_scan c2
                (Collection (entries col ++ [l]) (next_id col + 1)))
      as (_ & _ & _ & _ & Hwait).
    apply Hwait. exists l. split.
    + cbn [entries]. apply in_or_app. right. left. reflexivity.
    + unfold conflicts, l, entry_of. cbn [name uuid id next_id].
      split; [symmetry; exact Hn|]. split; [congruence|lia].
Qed.

Lemma failed_acquisition_runs_the_logic_witness :
  let s2 := after (scan_fails (VStr "down")) (initial no_locks [callA]) in
  entries (coll s2) = [lockA]
  /\ held (transaction_now callB (coll s2)) = [].
Proof.
  intros s2.
  destruct (failed_acquisition_runs_the_logic callA no_locks (VStr "down")
              eq_refl) as (_ & H1 & _ & _ & H2).
  split; [exact H1|]. apply H2; [reflexivity|discriminate].
Defined.

(** ** The two claims about the queue, on the event loop *)

(** The first call is inside its critical section when the second call
    is made; the entry of the second call is created, and the scan that
    follows is refused. *)
Definition scan_refused (err : value) : list turn :=
  [ Call_ 0; Serve 0; Resume 0; Serve 0; Resume 0;
    Call_ 0; Serve 0; Resume 0; Refuse 0 err; Resume 0 ].

(** The invocations of atomic logic, the calls of [unlock] and the calls
    of the functions to run after unlock, in the order in which they
    happen. *)
Definition milestones (t : list event) : list event :=
  filter (fun e => match e with
                   | Did (CallAtomicLogic _ _ _) => true
                   | Did (CallAfterUnlock _ _) => true
                   | Unlocked _ _ => true
                   | _ => false
                   end) t.


(** The first call is inside its critical section and the entry of the
    second call is created when the first call calls [unlock]; the
    release scans the collection and deletes the entry of the first
    call; the second call scans the collection after that deletion, and
    the callback of its scan runs before the callback of the
    deletion. *)
Definition early_entry (args : list value) : list turn :=
  [ Call_ 0; Serve 0; Resume 0; Serve 0; Resume 0;
    Call_ 0; Serve 0; Unlock_ 0 args; Serve 0; Resume 1; Serve 0;
    Resume 0; Serve 0; Resume 1; Resume 0 ].

(** C6 fails on this execution of two calls A and B of one name, in
    which no operation fails.  The release of A finds B next in line,
    yet the atomic logic of B is invoked before the function to run
    after the unlock of A is called: the scan of B itself finds the
    entry of A deleted and grants B the lock.  The release then calls
    the function to run after unlock and grants B the lock once
    more. *)
Theorem next_in_line_enters_before_afterUnlock :
  let args := [VStr "done"] in
  let s := after (early_entry args) (initial no_locks [callA; callB]) in
  reachable (initial no_locks [callA; callB]) s
  /\ no_failure (trace s) = true
  /\ getNextLock [lockA; lockB] lockA = Some lockB
  /\ In (Served FindAll (Found VNull [lockA; lockB])) (trace s)
  /\ milestones (trace s)
     = [ Did (CallAtomicLogic 0 VNull (Unlock lockA));
         Unlocked lockA args;
         Did (CallAtomicLogic 1 VNull (Unlock lockB));
         Did (CallAfterUnlock 10 args);
         Did (CallAtomicLogic 1 VNull (Unlock lockB)) ]
  /\ held s = [lockB; lockB].
Proof.
  intros args s.
  split; [apply after_reachable; apply reach_refl|].
  vm_compute. repeat split; try reflexivity.
  repeat (first [left; reflexivity | right]).
Qed.

End QueueFacts.

(* ===================================================================== *)
(** * Properties of the node controller                                    *)
(* ===================================================================== *)

Module NodeControllerFacts.

Import Num JS Eff NodeController.
Import CriteriaFacts FacadeFacts Steps AsyncFacts.
Local Open Scope string_scope.
Local Open Scope eff_scope.

(** Copying what is read under the names [ks] to an object, where it
    passes [test]. *)
Fixpoint copied (test : value -> bool) (rd : string -> value)
         (ks : list string) (acc : props) : props :=
  match ks with
  | [] => acc
  | k :: r =>
      copied test rd r
             (if test (rd k) then assoc_set k (rd k) acc else acc)
  end.

Lemma lookup_copied (test : value -> bool) (rd : string -> value)
      (ks : list string) :
  forall (acc : props) (k : string),
    Facade.lookup (copied test rd ks acc) k
    = if existsb (String.eqb k) ks && test (rd k)
      then rd k
      else Facade.lookup acc k.
Proof.
  induction ks as [|k0 ks IH]; intros acc k; [reflexivity|].
  cbn [copied existsb]. rewrite IH.
  destruct (existsb (String.eqb k) ks && test (rd k)) eqn:E.
  - rewrite andb_true_iff in E. destruct E as [E1 E2].
    rewrite E1, E2, orb_true_r. reflexivity.
  - destruct (String.eqb k k0) eqn:Ek; cbn [orb].
    + apply String.eqb_eq in Ek. subst k0.
      destruct (test (rd k)) eqn:Et.
      * cbn [andb].
        unfold Facade.lookup at 1. rewrite assoc_set_same. reflexivity.
      * reflexivity.
    + rewrite E.
      destruct (test (rd k0)); [|reflexivity].
      unfold Facade.lookup at 1.
      rewrite assoc_set_other by (apply String.eqb_neq; exact Ek).
      reflexivity.
Qed.

(** The loop that copies properties, one read and one write at a
    time. *)
Lemma copy_loop (test : value -> bool) (ls ld : loc) (sps : props) :
  ls <> ld ->
  forall (ks : list string) (acc : props) (w : world),
    nth_error (w_heap w) ls = Some (CObj sps) ->
    nth_error (w_heap w) ld = Some (CObj acc) ->
    for_each ks
      (fun k =>
         p <- getp (VRef ls) k ;;
         if test p
         then (x <- getp (VRef ls) k ;; setp (VRef ld) k x)
         else ret tt) w
    = (Ok tt,
       set_heap (heap_set ld (CObj (copied test (Facade.lookup sps) ks acc))
                          (w_heap w)) w).
Proof.
  intros Hne. induction ks as [|k ks IH]; intros acc w Hs Hd.
  - cbn. unfold ret. rewrite (heap_set_same Hd), set_heap_same.
    reflexivity.
  - cbn [for_each copied].
    rewrite bind_assoc.
    erewrite bind_ok by (exact (getp_obj k Hs)).
    fold (Facade.lookup sps k).
    destruct (test (Facade.lookup sps k)).
    + rewrite bind_assoc.
      erewrite bind_ok by (exact (getp_obj k Hs)).
      fold (Facade.lookup sps k).
      erewrite bind_ok by (exact (setp_obj k _ Hd)).
      rewrite (IH (assoc_set k (Facade.lookup sps k) acc)).
      * cbn [set_heap w_heap]. rewrite set_heap_twice, heap_set_twice.
        reflexivity.
      * cbn [set_heap w_heap]. rewrite nth_error_heap_set_other by exact Hne.
        exact Hs.
      * cbn [set_heap w_heap]. apply (nth_error_heap_set _ Hd).
    + unfold ret at 1. unfold bind at 1. apply IH; assumption.
Qed.

(** The text of a primitive does not depend on the heap. *)
Lemma name_of_primitive (key : value) (w : world) :
  isObject key = false -> name_of key w = (Ok (ToStringPrim key), w).
Proof.
  intros H. unfold name_of, bind, read_heap, ret, ToString.
  destruct key; try discriminate; reflexivity.
Qed.

(** The loop that copies what an object holds under the names, its own
    or inherited, one read and one write at a time. *)
Lemma trim_loop (test : value -> bool) (ls ld : loc) (sps : props) :
  ls <> ld ->
  forall (names : list value) (acc : props) (w : world),
    Forall (fun key => isObject key = false) names ->
    nth_error (w_heap w) ls = Some (CObj sps) ->
    nth_error (w_heap w) ld = Some (CObj acc) ->
    for_each names
      (fun key =>
         k <- name_of key ;;
         p <- memberp (VRef ls) k ;;
         if test p
         then (x <- memberp (VRef ls) k ;; setp (VRef ld) k x)
         else ret tt) w
    = (Ok tt,
       set_heap
         (heap_set ld
            (CObj (copied test (held_under sps) (map ToStringPrim names) acc))
            (w_heap w)) w).
Proof.
  intros Hne. induction names as [|key names IH]; intros acc w F Hs Hd.
  - cbn. unfold ret. rewrite (heap_set_same Hd), set_heap_same.
    reflexivity.
  - inversion F as [|? ? Hk F']; subst.
    cbn [for_each map copied].
    rewrite bind_assoc.
    erewrite bind_ok by (exact (name_of_primitive key w Hk)).
    set (k := ToStringPrim key).
    rewrite bind_assoc.
    erewrite bind_ok by (exact (memberp_obj w ls sps k Hs)).
    destruct (test (held_under sps k)).
    + rewrite bind_assoc.
      erewrite bind_ok by (exact (memberp_obj w ls sps k Hs)).
      erewrite bind_ok by (exact (setp_obj k _ Hd)).
      rewrite (IH (assoc_set k (held_under sps k) acc)).
      * cbn [set_heap w_heap]. rewrite set_heap_twice, heap_set_twice.
        reflexivity.
      * exact F'.
      * cbn [set_heap w_heap]. rewrite nth_error_heap_set_other by exact Hne.
        exact Hs.
      * cbn [set_heap w_heap]. apply (nth_error_heap_set _ Hd).
    + unfold ret at 1. unfold bind at 1. apply IH; assumption.
Qed.

Definition always (v : value) : bool := true.

Lemma for_each_map {A B} (f : A -> B) (F : B -> M unit) (l : list A)
      (w : world) :
  for_each (map f l) F w = for_each l (fun x => F (f x)) w.
Proof.
  revert w. induction l as [|x l IH]; intros w; [reflexivity|].
  cbn [map for_each]. unfold bind.
  destruct (F (f x) w) as [[[]|e] w']; [apply IH|reflexivity].
Qed.

(** A loop that copies every property named. *)
Lemma copy_all_loop {K} (ls ld : loc) (sps : props) (name : K -> string)
      (ks : list K) (acc : props) (w : world) :
  ls <> ld ->
  nth_error (w_heap w) ls = Some (CObj sps) ->
  nth_error (w_heap w) ld = Some (CObj acc) ->
  for_each ks
    (fun key => x <- getp (VRef ls) (name key) ;;
                setp (VRef ld) (name key) x) w
  = (Ok tt,
     set_heap (heap_set ld (CObj (copied always (Facade.lookup sps)
                                         (map name ks) acc))
                        (w_heap w)) w).
Proof.
  intros Hne Hs Hd.
  rewrite <- (copy_loop always ls ld sps Hne (map name ks) acc w Hs Hd).
  rewrite for_each_map. apply for_each_ext. intros key w'.
  destruct (getp_ref ls (name key) w') as (x & E).
  unfold bind. rewrite E. unfold always. rewrite E. reflexivity.
Qed.

(** The loop of [trimModel]: every name is copied. *)
Lemma trim_all_loop (ls ld : loc) (sps : props) (names : list value)
      (acc : props) (w : world) :
  ls <> ld ->
  Forall (fun key => isObject key = false) names ->
  nth_error (w_heap w) ls = Some (CObj sps) ->
  nth_error (w_heap w) ld = Some (CObj acc) ->
  for_each names
    (fun key =>
       k <- name_of key ;;
       x <- memberp (VRef ls) k ;;
       setp (VRef ld) k x) w
  = (Ok tt,
     set_heap
       (heap_set ld
          (CObj (copied always (held_under sps) (map ToStringPrim names) acc))
          (w_heap w)) w).
Proof.
  intros Hne F Hs Hd.
  rewrite <- (trim_loop always ls ld sps Hne names acc w F Hs Hd).
  apply for_each_ext. intros key w'.
  unfold bind. destruct (name_of key w') as [[k|e] w2]; [|reflexivity].
  destruct (memberp (VRef ls) k w2) as [[x|e] w3] eqn:E; [|reflexivity].
  unfold always.
  assert (E' : memberp (VRef ls) k w3 = (Ok x, w3)).
  { unfold memberp, bind, read_heap in E |- *.
    destruct (member (w_heap w2) (VRef ls) k) as [y|] eqn:Em;
      [|discriminate].
    unfold ret in E. injection E as <- <-. rewrite Em. reflexivity. }
  rewrite E'. reflexivity.
Qed.

Definition listed (ks : list string) (k : string) : bool :=
  existsb (String.eqb k) ks.

Lemma success_object (w : world) (l : loc) (ps : props) :
  nth_error (w_heap w) l = Some (CObj ps) ->
  success (VRef l) w
  = (Ok (VRef (List.length (w_heap w))),
     set_heap (w_heap w
               ++ [CObj (copied always (Facade.lookup ps) (keys ps)
                                [("success", VBool true)])])%list w).
Proof.
  intros Hl. set (n := List.length (w_heap w)).
  unfold success.
  erewrite bind_ok by (apply alloc_at). fold n.
  set (w1 := set_heap _ w).
  assert (Hl1 : nth_error (w_heap w1) l = Some (CObj ps)).
  { apply nth_error_old. exact Hl. }
  assert (Hn1 : nth_error (w_heap w1) n
                = Some (CObj [("success", VBool true)])).
  { apply nth_error_fresh. }
  assert (Hne : l <> n).
  { intros E. assert (l < n) by (apply nth_error_Some; congruence). lia. }
  unfold extend. unfold read_heap at 1. unfold bind at 1.
  cbn [for_in own_props]. rewrite Hl1.
  erewrite bind_ok.
  2:{ unfold keys.
      apply (copy_all_loop l n ps (fun k : string => k) (map fst ps)
               [("success", VBool true)] w1 Hne Hl1 Hn1
             : for_each (map fst ps)
                 (fun prop => x <- getp (VRef l) prop ;;
                              setp (VRef n) prop x) w1 = _). }
  unfold ret. f_equal. unfold w1. cbn [set_heap w_heap].
  rewrite set_heap_twice. f_equal. rewrite map_id.
  apply heap_set_fresh. reflexivity.
Qed.




(** X28.  [trimModel] and [trimParams], for a model and parameters that
    are plain objects and attribute names that are primitives, none of
    them [__proto__]: the answer is a new object with no property of
    its own besides the attributes of the model.  Under the name of an
    attribute the trimmed model holds what the model holds under it, as
    its own or inherited; the trimmed parameters hold what the
    parameters hold under it, as their own or inherited, when that is
    truthy, and nothing when it is falsy ([0], [false], the empty text
    and [null] are dropped).  So an attribute called [toString] or
    [constructor], of which the object has none of its own, brings
    along the member that every object inherits.  Under a name that is
    not among the attributes neither answer holds anything of its own,
    whatever the model or the parameters hold under it. *)
Theorem trim_keeps_the_attributes
        (w : world) (lm la lp : loc) (mps pps aps : props)
        (names : list value) :
  nth_error (w_heap w) lm = Some (CObj mps) ->
  Facade.lookup mps "attributes" = VRef la ->
  nth_error (w_heap w) la = Some (CArr names aps) ->
  nth_error (w_heap w) lp = Some (CObj pps) ->
  Forall (fun key => isObject key = false) names ->
  ~ In "__proto__" (map ToStringPrim names) ->
  let n := List.length (w_heap w) in
  let attrs := map ToStringPrim names in
  exists tm tp,
    trimModel (VRef lm) w
    = (Ok (VRef n), set_heap (w_heap w ++ [CObj tm])%list w)
    /\ trimParams (VRef lp) (VRef lm) w
       = (Ok (VRef n), set_heap (w_heap w ++ [CObj tp])%list w)
    /\ forall k,
         Facade.lookup tm k
         = (if listed attrs k then held_under mps k else VUndefined)
         /\ Facade.lookup tp k
            = (if listed attrs k && truthy (held_under pps k)
               then held_under pps k else VUndefined).
Proof.
  intros Hm Ha Hla Hp F _ n attrs.
  set (w1 := set_heap (w_heap w ++ [CObj []])%list w).
  assert (Hm1 : nth_error (w_heap w1) lm = Some (CObj mps)).
  { apply nth_error_old. exact Hm. }
  assert (Hp1 : nth_error (w_heap w1) lp = Some (CObj pps)).
  { apply nth_error_old. exact Hp. }
  assert (Hla1 : nth_error (w_heap w1) la = Some (CArr names aps)).
  { apply nth_error_old. exact Hla. }
  assert (Hn1 : nth_error (w_heap w1) n = Some (CObj [])).
  { apply nth_error_fresh. }
  assert (Hmn : lm <> n).
  { intros E. assert (lm < n) by (apply nth_error_Some; congruence). lia. }
  assert (Hpn : lp <> n).
  { intros E. assert (lp < n) by (apply nth_error_Some; congruence). lia. }
  exists (copied always (held_under mps) attrs []),
         (copied truthy (held_under pps) attrs []).
  split; [|split].
  - unfold trimModel.
    erewrite bind_ok by (apply alloc_at). fold n. fold w1.
    erewrite bind_ok by (exact (getp_obj "attributes" Hm1)).
    fold (Facade.lookup mps "attributes"). rewrite Ha.
    unfold read_heap at 1. unfold bind at 1.
    cbn [each_values]. rewrite Hla1.
    erewrite bind_ok
      by (exact (trim_all_loop lm n mps names [] w1 Hmn F Hm1 Hn1)).
    unfold ret. f_equal. unfold w1. cbn [set_heap w_heap].
    rewrite set_heap_twice. f_equal. apply heap_set_fresh. reflexivity.
  - unfold trimParams.
    erewrite bind_ok by (apply alloc_at). fold n. fold w1.
    erewrite bind_ok by (exact (getp_obj "attributes" Hm1)).
    fold (Facade.lookup mps "attributes"). rewrite Ha.
    unfold read_heap at 1. unfold bind at 1.
    cbn [each_values]. rewrite Hla1.
    erewrite bind_ok
      by (exact (trim_loop truthy lp n pps Hpn names [] w1 F Hp1 Hn1)).
    unfold ret. f_equal. unfold w1. cbn [set_heap w_heap].
    rewrite set_heap_twice. f_equal. apply heap_set_fresh. reflexivity.
  - intros k. rewrite !lookup_copied. unfold always, listed.
    rewrite andb_true_r. split; reflexivity.
Qed.

Lemma primitive_names (names : list value) :
  forallb (fun key => negb (isObject key)) names = true ->
  Forall (fun key => isObject key = false) names.
Proof.
  intros H. apply Forall_forall. intros key Hin.
  rewrite forallb_forall in H. specialize (H key Hin).
  apply negb_true_iff. exact H.
Defined.

Lemma trim_keeps_the_attributes_witness :
  let w := Samples.world_of
             [CObj [("attributes", VRef 1); ("title", VStr "old");
                    ("secret", VStr "s")];
              CArr [VStr "title"; VStr "body"; VStr "toString"] [];
              CObj [("title", VStr ""); ("body", VStr "b");
                    ("secret", VStr "x")]] in
  exists tm tp,
    trimModel (VRef 0) w = (Ok (VRef 3), set_heap (w_heap w ++ [CObj tm])%list w)
    /\ trimParams (VRef 2) (VRef 0) w
       = (Ok (VRef 3), set_heap (w_heap w ++ [CObj tp])%list w)
    /\ Facade.lookup tm "title" = VStr "old"
    /\ Facade.lookup tp "title" = VUndefined
    /\ Facade.lookup tp "body" = VStr "b"
    /\ Facade.lookup tp "secret" = VUndefined
    /\ Facade.lookup tp "toString" = inherited "toString".
Proof.
  intros w.
  destruct (trim_keeps_the_attributes w 0 1 2
              [("attributes", VRef 1); ("title", VStr "old");
               ("secret", VStr "s")]
              [("title", VStr ""); ("body", VStr "b"); ("secret", VStr "x")]
              [] [VStr "title"; VStr "body"; VStr "toString"]
              eq_refl eq_refl eq_refl eq_refl
              (primitive_names [VStr "title"; VStr "body"; VStr "toString"]
                               eq_refl))
    as (tm & tp & E1 & E2 & L).
  { simpl. intuition discriminate. }
  exists tm, tp. split; [exact E1|]. split; [exact E2|].
  split; [exact (proj1 (L "title"))|].
  split; [exact (proj2 (L "title"))|].
  split; [exact (proj2 (L "body"))|].
  split; [exact (proj2 (L "secret"))|exact (proj2 (L "toString"))].
Defined.


(** ** Error responses *)

Lemma error_text (m : string) (w : world) :
  let n := List.length (w_heap w) in
  error (VStr m) w
  = (Ok (VRef n),
     set_heap (w_heap w
               ++ [CObj [("success", VBool false); ("error", VRef (S n))];
                   CObj [("message", VStr m)]])%list w).
Proof.
  intros n. unfold error.
  erewrite bind_ok by (apply alloc_at). fold n. cbn [isString].
  erewrite bind_ok by (apply alloc_at).
  cbn [set_heap w_heap]. rewrite set_heap_twice, length_app.
  cbn [List.length]. fold n. replace (n + 1) with (S n) by lia.
  rewrite <- app_assoc. cbn [app].
  erewrite bind_ok.
  2:{ apply (@setp_obj _ n [("success", VBool false)] "error" (VRef (S n))).
      cbn [set_heap w_heap]. apply nth_error_at. }
  unfold ret. cbn [set_heap w_heap assoc_set String.eqb Ascii.eqb Bool.eqb].
  rewrite set_heap_twice. unfold n. rewrite heap_set_at. reflexivity.
Qed.

Lemma error_object (l : loc) (w : world) :
  let n := List.length (w_heap w) in
  error (VRef l) w
  = (Ok (VRef n),
     set_heap (w_heap w
               ++ [CObj [("success", VBool false); ("error", VRef l)]])%list
              w).
Proof.
  intros n. unfold error.
  erewrite bind_ok by (apply alloc_at). fold n. cbn [isString].
  unfold ret at 1. unfold bind at 1.
  erewrite bind_ok.
  2:{ apply (@setp_obj _ n [("success", VBool false)] "error" (VRef l)).
      cbn [set_heap w_heap]. apply nth_error_fresh. }
  unfold ret. cbn [set_heap w_heap assoc_set String.eqb Ascii.eqb Bool.eqb].
  rewrite set_heap_twice. f_equal. f_equal.
  apply heap_set_fresh. reflexivity.
Qed.

Lemma sent_emit (body : value) (w : world) :
  sent (snd (res_json body w)) = (sent w ++ [body])%list.
Proof.
  unfold res_json, emit, sent. cbn [snd w_log].
  rewrite flat_map_app. reflexivity.
Qed.

(** An id is valid when it is truthy and reads as a number. *)
Definition valid_id (id : value) : bool :=
  truthy id && negb (is_nan (ToNumber [] id)).

Definition id_message (id : value) : string :=
  if truthy id then "'" ++ ToStringPrim id ++ "' is not a valid node id."
  else "No node id specified.".

Lemma validateId_answer (id : value) (w : world) :
  plain id = true ->
  let n := List.length (w_heap w) in
  validateId id w
  = if valid_id id then (Ok true, w)
    else (Ok false,
          World (w_heap w
                 ++ [CObj [("success", VBool false); ("error", VRef (S n))];
                     CObj [("message", VStr (id_message id))]])%list
                (w_clock w) (w_tick w)
                (w_log w ++ [EvAdapter "res.json" [VRef n]])%list
                (w_frames w)).
Proof.
  intros Hp n. unfold validateId, valid_id, id_message.
  destruct (truthy id) eqn:Ht; cbn [negb andb].
  - unfold validId. rewrite Ht.
    rewrite bind_assoc.
    erewrite bind_ok by (exact (to_number_plain id w Hp)).
    unfold ret at 1. unfold bind at 1. cbn [truthy].
    destruct (is_nan (ToNumber [] id)); cbn [negb].
    + erewrite bind_ok by (apply error_text). reflexivity.
    + reflexivity.
  - erewrite bind_ok by (apply error_text). reflexivity.
Qed.

Lemma remove_run (id method params : value) (w : world) :
  plain id = true ->
  let n := List.length (w_heap w) in
  remove id method params w
  = (Ok tt,
     World (if valid_id id
            then w_heap w
                 ++ [CArr [VStr "DELETE"] []; CObj [("params", params)];
                     CObj [("success", VBool true); ("params", params)]]
            else w_heap w
                 ++ [CObj [("success", VBool false); ("error", VRef (S n))];
                     CObj [("message", VStr (id_message id))]])%list
           (w_clock w) (w_tick w)
           (w_log w ++ [EvAdapter "res.json"
                          [VRef (if valid_id id then S (S n) else n)]])%list
           (w_frames w)).
Proof.
  intros Hp n. unfold remove.
  pose proof (validateId_answer id w Hp) as E. cbn zeta in E. fold n in E.
  destruct (valid_id id) eqn:Ev; erewrite bind_ok by (exact E); cbv iota.
  - rewrite bind_assoc.
    erewrite bind_ok by (apply alloc_at).
    unfold validateVerb. unfold ret at 1. unfold bind at 1.
    erewrite bind_ok by (apply alloc_at).
    cbn [set_heap w_heap]. rewrite set_heap_twice.
    rewrite length_app. cbn [List.length]. fold n.
    rewrite <- app_assoc. cbn [app].
    erewrite bind_ok.
    2:{ apply (success_object _ (n + 1) [("params", params)]).
        cbn [set_heap w_heap].
        replace (n + 1)
          with (List.length (w_heap w ++ [CArr [VStr "DELETE"] []])%list)
          by (rewrite length_app; reflexivity).
        change (w_heap w ++ [CArr [VStr "DELETE"] [];
                             CObj [("params", params)]])%list
          with (w_heap w ++ ([CArr [VStr "DELETE"] []]
                             ++ [CObj [("params", params)]]))%list.
        rewrite app_assoc. apply nth_error_fresh. }
    cbn [set_heap w_heap]. rewrite set_heap_twice.
    rewrite length_app. cbn [List.length]. fold n.
    replace (n + 2) with (S (S n)) by lia.
    unfold res_json, emit, set_heap.
    cbn [w_heap w_clock w_tick w_log w_frames].
    rewrite <- app_assoc. reflexivity.
  - reflexivity.
Qed.

(** X29.  [remove] answers every request exactly once, whatever the verb: the
    verb is never looked at.  For an id that is truthy and reads as a
    number (which a text of blanks does, and a hexadecimal numeral) the
    answer is [{ success: true, params: <the params> }]; otherwise it is
    an error answer, [{ success: false, error: { message: ... } }],
    whose message is "No node id specified." for a falsy id and
    "'<id>' is not a valid node id." for the others.  (The id is a
    primitive.) *)
Theorem remove_answers_once (id method params : value) (w : world) :
  isObject id = false ->
  let n := List.length (w_heap w) in
  let r := remove id method params w in
  fst r = Ok tt
  /\ w_heap (snd r)
     = (if valid_id id
        then w_heap w
             ++ [CArr [VStr "DELETE"] []; CObj [("params", params)];
                 CObj [("success", VBool true); ("params", params)]]
        else w_heap w
             ++ [CObj [("success", VBool false); ("error", VRef (S n))];
                 CObj [("message", VStr (id_message id))]])%list
  /\ sent (snd r)
     = (sent w ++ [VRef (if valid_id id then S (S n) else n)])%list.
Proof.
  intros Ho n r.
  assert (Hp : plain id = true) by (destruct id; try discriminate; reflexivity).
  unfold r. rewrite (remove_run id method params w Hp).
  cbn [fst snd w_heap]. fold n.
  split; [reflexivity|]. split; [reflexivity|].
  unfold sent. cbn [w_log]. rewrite flat_map_app. reflexivity.
Qed.

Lemma remove_answers_once_witness :
  let w := Samples.world_of [] in
  sent (snd (remove (VStr " ") (VStr "GET") VNull w)) = [VRef 2]
  /\ w_heap (snd (remove (VStr "abc") (VStr "DELETE") VNull w))
     = [CObj [("success", VBool false); ("error", VRef 1)];
        CObj [("message", VStr "'abc' is not a valid node id.")]].
Proof.
  intros w. split.
  - exact (proj2 (proj2 (remove_answers_once (VStr " ") (VStr "GET") VNull w
                           eq_refl))).
  - exact (proj1 (proj2 (remove_answers_once (VStr "abc") (VStr "DELETE")
                           VNull w eq_refl))).
Defined.


(** ** Content types *)

Definition accepted (type : value) : bool :=
  contains [VStr "html"; VStr "text"] type.

Lemma accepted_iff (type : value) :
  accepted type = true <-> type = VStr "html" \/ type = VStr "text".
Proof.
  unfold accepted, contains. cbn [existsb]. rewrite orb_false_r.
  rewrite orb_true_iff. split.
  - intros [H|H]; destruct type; try discriminate; cbn [strict_equal] in H;
      apply String.eqb_eq in H; subst; auto.
  - intros [->| ->]; [left|right]; reflexivity.
Qed.

Lemma accepted_truthy (type : value) : accepted type = true -> truthy type = true.
Proof.
  intros H. apply accepted_iff in H. destruct H as [->| ->]; reflexivity.
Qed.

(** The cells that [validateType] leaves behind its list of types when
    it refuses a type, and the place of the answer among them. *)
Definition refusal (type : value) (n : nat) : list cell * nat :=
  if truthy type
  then ([CObj [("message",
                VStr ("'" ++ ToStringPrim type ++ "' is not a valid type."));
               ("validTypes", VRef n)];
         CObj [("success", VBool false); ("error", VRef (S n))]],
        S (S n))
  else ([CObj [("success", VBool false); ("error", VRef (S (S n)))];
         CObj [("message", VStr "No content type specified.")]],
        S n).

Lemma validateType_run (type : value) (w : world) :
  let n := List.length (w_heap w) in
  validateType type w
  = if accepted type
    then (Ok true,
          set_heap (w_heap w ++ [CArr [VStr "html"; VStr "text"] []])%list w)
    else (Ok false,
          World (w_heap w ++ CArr [VStr "html"; VStr "text"] []
                             :: fst (refusal type n))%list
                (w_clock w) (w_tick w)
                (w_log w ++ [EvAdapter "res.json"
                               [VRef (snd (refusal type n))]])%list
                (w_frames w)).
Proof.
  intros n. unfold validateType, refusal.
  erewrite bind_ok by (apply alloc_at). fold n.
  set (w1 := set_heap _ w).
  assert (L1 : List.length (w_heap w1) = S n).
  { unfold w1. cbn [set_heap w_heap]. rewrite length_app. cbn [List.length].
    fold n. lia. }
  destruct (truthy type) eqn:Ht; cbn [negb fst snd].
  - fold (accepted type). destruct (accepted type) eqn:Ea; cbn [negb].
    + reflexivity.
    + erewrite bind_ok by (apply alloc_at). rewrite L1.
      erewrite bind_ok by (apply error_object).
      cbn [set_heap w_heap]. rewrite !set_heap_twice.
      rewrite length_app, L1. cbn [List.length].
      replace (S n + 1) with (S (S n)) by lia.
      unfold w1, res_json, emit, set_heap.
      cbn [w_heap w_clock w_tick w_log w_frames].
      rewrite <- !app_assoc. reflexivity.
  - assert (Ea : accepted type = false).
    { destruct (accepted type) eqn:E; [|reflexivity].
      apply accepted_truthy in E. congruence. }
    rewrite Ea.
    erewrite bind_ok by (apply error_text). rewrite L1.
    unfold w1, res_json, emit, set_heap.
    cbn [w_heap w_clock w_tick w_log w_frames].
    rewrite <- !app_assoc. reflexivity.
Qed.

(** X30.  [validateType] accepts the texts "html" and "text" and nothing
    else.  It answers the request exactly when it refuses: nothing is
    sent for an accepted type, and one error answer is sent for any
    other value, whose message is "No content type specified." for a
    falsy type and "'<type>' is not a valid type.", together with the
    list of valid types, for the others.  (The type is a primitive.) *)
Theorem validateType_accepts_html_and_text (type : value) (w : world) :
  isObject type = false ->
  let n := List.length (w_heap w) in
  let r := validateType type w in
  fst r = Ok (accepted type)
  /\ (accepted type = true <-> type = VStr "html" \/ type = VStr "text")
  /\ sent (snd r)
     = (sent w ++ if accepted type then []
                  else [VRef (snd (refusal type n))])%list
  /\ w_heap (snd r)
     = (w_heap w ++ CArr [VStr "html"; VStr "text"] []
                    :: if accepted type then [] else fst (refusal type n))%list.
Proof.
  intros _ n r. unfold r. rewrite (validateType_run type w). fold n.
  split; [destruct (accepted type); reflexivity|].
  split; [apply accepted_iff|].
  destruct (accepted type); cbn [fst snd set_heap w_heap].
  - split; [|reflexivity]. unfold sent. cbn [w_log].
    rewrite app_nil_r. reflexivity.
  - split; [|reflexivity]. unfold sent. cbn [w_log].
    rewrite flat_map_app. reflexivity.
Qed.


Lemma validateType_accepts_html_and_text_witness :
  let w := Samples.world_of [] in
  fst (validateType (VStr "HTML") w) = Ok false
  /\ sent (snd (validateType (VStr "HTML") w)) = [VRef 2]
  /\ fst (validateType (VStr "html") w) = Ok true
  /\ sent (snd (validateType (VStr "html") w)) = [].
Proof.
  intros w.
  destruct (validateType_accepts_html_and_text (VStr "HTML") w eq_refl)
    as (H1 & _ & H2 & _).
  destruct (validateType_accepts_html_and_text (VStr "html") w eq_refl)
    as (H3 & _ & H4 & _).
  split; [exact H1|]. split; [exact H2|]. split; [exact H3|exact H4].
Defined.

End NodeControllerFacts.
